(** * ManipuCheck: locating quotations in a rendered document and wrapping them

    A shallow embedding of [src/content/text-matcher.ts] and
    [src/content/text-highlighter.ts], with the part of the DOM those
    files drive (text nodes, elements, ranges, [surroundContents],
    [extractContents], [insertNode], [normalize]), and of what they rest
    on: the text helpers of [src/shared/utils.ts], the tables of
    [src/shared/constants.ts], the formatting helpers of the tooltip
    manager, and the API key of [src/shared/storage.ts].

    Conventions.
    - A JavaScript string is a list of UTF-16 code units.  The model keeps
      the code units below 256 (Latin-1), carried by [ascii]; on that
      alphabet [/\s/], [trim] and [toLowerCase] are exactly the functions
      below.
    - A JavaScript [number] holding a length, an index or an offset is a
      [nat]; the similarity and the threshold are binary64 floats.
    - [indexOf]'s [-1] and a [null] result are [None].
    - The document is the tree of [Text] nodes and elements below
      [document.body]; comments and other kinds of node are left out, and
      the ancestors of [body] are taken to carry no highlight class.  The
      DOM calls follow the algorithms of the DOM Standard ("extract",
      "insert" and "surround" of a range, "normalize").
    - A script runs to completion: nothing but the modelled code edits the
      document between two of its steps.
    - A [manipulation_type] is one of the eighteen literals of the
      TypeScript type [ManipulationType]. *)

From Stdlib Require Import List Arith Bool Lia Ascii PeanoNat Sorted.
From Stdlib Require String.
Import String.StringSyntax.
From Stdlib Require Import Floats Uint63 ZArith.
Import ListNotations.

Set Warnings "-inexact-float,-register-all".

(* ================================================================== *)
(** ** JavaScript strings *)

Module JsString.

Definition str := list ascii.

(** A string literal of the source. *)
Definition lit (s : String.string) : str := String.list_ascii_of_string s.
Arguments lit s%_string_scope.

Definition space : ascii := " "%char.

(** [/\s/.test(c)]: TAB, LF, VT, FF, CR, SPACE and NO-BREAK SPACE are the
    white space and line terminator code units below 256. *)
Definition isWhitespace (c : ascii) : bool :=
  let n := nat_of_ascii c in
  ((9 <=? n) && (n <=? 13)) || (n =? 32) || (n =? 160).

(** [c.toLowerCase()] on Latin-1: A-Z, and the accented capitals 192-222
    except the multiplication sign 215, move up by 32. *)
Definition lowerChar (c : ascii) : ascii :=
  let n := nat_of_ascii c in
  if ((65 <=? n) && (n <=? 90))
     || ((192 <=? n) && (n <=? 222) && negb (n =? 215))
  then ascii_of_nat (n + 32) else c.

Definition toLowerCase (s : str) : str := map lowerChar s.

Definition str_eqb (a b : str) : bool :=
  if list_eq_dec ascii_dec a b then true else false.

(** [text.replace(/\s+/g, ' ')]: [inRun] tells that the previous code unit
    was white space, so that the current run has already been replaced. *)
Fixpoint collapseWs (inRun : bool) (s : str) : str :=
  match s with
  | [] => []
  | c :: r =>
      if isWhitespace c
      then (if inRun then collapseWs true r else space :: collapseWs true r)
      else c :: collapseWs false r
  end.

Definition replaceWsRuns (s : str) : str := collapseWs false s.

Fixpoint trimStart (s : str) : str :=
  match s with
  | [] => []
  | c :: r => if isWhitespace c then trimStart r else s
  end.

Definition trimEnd (s : str) : str := rev (trimStart (rev s)).

(** [s.trim()] *)
Definition trim (s : str) : str := trimEnd (trimStart s).

(** [utils.ts: normalizeText] *)
Definition normalizeText (text : str) : str := trim (replaceWsRuns text).

(** [s.startsWith(pat)] at the head of [s]. *)
Fixpoint startsWith (pat s : str) : bool :=
  match pat, s with
  | [], _ => true
  | _ :: _, [] => false
  | p :: pat', c :: s' => Ascii.eqb p c && startsWith pat' s'
  end.

(** The scan of [indexOf]: [s] is the suffix of the string that starts at
    index [k]. *)
Fixpoint indexOfFrom (pat s : str) (k : nat) : option nat :=
  if startsWith pat s then Some k
  else match s with
       | [] => None
       | _ :: s' => indexOfFrom pat s' (S k)
       end.

(** [s.indexOf(pat, position)] *)
Definition indexOf (s pat : str) (position : nat) : option nat :=
  let start := Nat.min position (length s) in
  indexOfFrom pat (skipn start s) start.

(** [s.substring(a, b)] for [a <= b]. *)
Definition substring (s : str) (a b : nat) : str := firstn (b - a) (skipn a s).

(** [s.split(' ')] *)
Fixpoint split (sep : ascii) (s : str) : list str :=
  match s with
  | [] => [[]]
  | c :: r =>
      if Ascii.eqb c sep then [] :: split sep r
      else match split sep r with
           | w :: ws => (c :: w) :: ws
           | [] => [[c]]
           end
  end.

(** [parts.join(sep)] *)
Fixpoint join (sep : str) (parts : list str) : str :=
  match parts with
  | [] => []
  | [x] => x
  | x :: rest => x ++ sep ++ join sep rest
  end.

(** [arr.slice(a, b)] *)
Definition slice {A} (l : list A) (a b : nat) : list A := firstn (b - a) (skipn a l).

(** [s.includes(pat)] *)
Fixpoint includes (s pat : str) : bool :=
  startsWith pat s || match s with [] => false | _ :: s' => includes s' pat end.

End JsString.

Import JsString.

(* ================================================================== *)
(** ** Exceptions and the state-and-exception monad

    A DOM call either returns or throws a [DOMException]; in both cases the
    edits made so far stay in the state.  [tryCatch] is the source's
    [try { ... } catch (error) { ... }]. *)

Inductive DOMException : Type :=
| IndexSizeError
| InvalidStateError
| HierarchyRequestError
| NotAddressable.
(** [NotAddressable] has no counterpart in a browser, where a [Range] always
    addresses nodes of its tree; the model raises it so that every function
    is total on arbitrary [Range] records. *)

Section StateExn.
Context {St : Type}.

Inductive outcome (A : Type) : Type :=
| Ok (a : A) (s : St)
| Throw (e : DOMException) (s : St).

Definition M (A : Type) : Type := St -> outcome A.

Definition ret {A} (a : A) : M A := fun s => Ok A a s.
Definition throw {A} (e : DOMException) : M A := fun s => Throw A e s.
Definition bind {A B} (m : M A) (k : A -> M B) : M B :=
  fun s => match m s with
           | Ok _ a s' => k a s'
           | Throw _ e s' => Throw B e s'
           end.
Definition tryCatch {A} (body : M A) (handler : DOMException -> M A) : M A :=
  fun s => match body s with
           | Ok _ a s' => Ok A a s'
           | Throw _ e s' => handler e s'
           end.
Definition get : M St := fun s => Ok St s s.
Definition put (s : St) : M unit := fun _ => Ok unit tt s.
End StateExn.

Arguments outcome St A : clear implicits.
Arguments M St A : clear implicits.
Arguments Ok {St A} a s.
Arguments Throw {St A} e s.

Declare Scope monad_scope.
Delimit Scope monad_scope with monad.
Notation "x <- m ;; k" := (bind m (fun x => k))
  (at level 61, m at next level, right associativity) : monad_scope.
Notation "m ;;; k" := (bind m (fun _ => k))
  (at level 61, right associativity) : monad_scope.

(* ================================================================== *)
(** ** The document tree and its ranges *)

Module Dom.

(** A node is addressed by the child indices that lead to it from the root
    of the model, [document.body]. *)
Definition path := list nat.

(** [ref] stands for the identity of the JavaScript object: an element
    created by [document.createElement] gets a fresh one, a clone made by
    [extractContents] is an object nobody holds, [None]. *)
Inductive node : Type :=
| Text (data : str)
| Elem (ref : option nat) (tagName : str) (className : str)
       (childNodes : list node).

(** [node.textContent] *)
Fixpoint textContent (n : node) : str :=
  match n with
  | Text d => d
  | Elem _ _ _ kids => flat_map textContent kids
  end.

Definition isText (n : node) : bool :=
  match n with Text _ => true | Elem _ _ _ _ => false end.

(** The DOM's "length" of a node. *)
Definition nodeLength (n : node) : nat :=
  match n with
  | Text d => length d
  | Elem _ _ _ kids => length kids
  end.

Fixpoint nodeAt (p : path) (n : node) : option node :=
  match p with
  | [] => Some n
  | i :: p' =>
      match n with
      | Elem _ _ _ kids =>
          match nth_error kids i with
          | Some k => nodeAt p' k
          | None => None
          end
      | Text _ => None
      end
  end.

(** A [Text] object as the tree walker hands it out: where it is, the tag
    of its [parentElement], and its [textContent]. *)
Record TextRef : Type := mkTextRef {
  tpath : path;
  parentTag : str;
  tdata : str
}.

Definition under (i : nat) (t : TextRef) : TextRef :=
  mkTextRef (i :: tpath t) (parentTag t) (tdata t).

(** All [Text] descendants in tree order ([NodeFilter.SHOW_TEXT]). *)
Fixpoint walkText (parent : str) (n : node) : list TextRef :=
  match n with
  | Text d => [mkTextRef [] parent d]
  | Elem _ tag _ kids =>
      (fix children (i : nat) (l : list node) : list TextRef :=
         match l with
         | [] => []
         | k :: l' => map (under i) (walkText tag k) ++ children (S i) l'
         end) 0 kids
  end.

(** The loop of [walkText] over the children of an element, by name. *)
Definition walkChildren (tag : str) : nat -> list node -> list TextRef :=
  fix children (i : nat) (l : list node) : list TextRef :=
    match l with
    | [] => []
    | k :: l' => map (under i) (walkText tag k) ++ children (S i) l'
    end.

Record Range : Type := mkRange {
  startContainer : path;
  startOffset : nat;
  endContainer : path;
  endOffset : nat
}.

Definition path_eqb (a b : path) : bool :=
  if list_eq_dec Nat.eq_dec a b then true else false.

(** [range.collapsed] *)
Definition collapsed (r : Range) : bool :=
  path_eqb (startContainer r) (endContainer r)
  && (startOffset r =? endOffset r).

(** The DOM's position of boundary point [(pa, oa)] relative to
    [(pb, ob)]: [Lt] is before, [Gt] is after. *)
Fixpoint bpCompare (pa : path) (oa : nat) (pb : path) (ob : nat) : comparison :=
  match pa, pb with
  | [], [] => Nat.compare oa ob
  | [], j :: _ => if j <? oa then Gt else Lt
  | i :: _, [] => if i <? ob then Lt else Gt
  | i :: pa', j :: pb' =>
      match Nat.compare i j with
      | Eq => bpCompare pa' oa pb' ob
      | c => c
      end
  end.

Fixpoint commonPrefix (a b : path) : path :=
  match a, b with
  | i :: a', j :: b' => if i =? j then i :: commonPrefix a' b' else []
  | _, _ => []
  end.

(** [range.commonAncestorContainer] *)
Definition commonAncestorContainer (r : Range) : path :=
  commonPrefix (startContainer r) (endContainer r).

(** [document.createRange()] followed by [range.setStart(node, offset)]:
    the new range sits at the very start of the document, so the boundary
    point is after its end and both ends move to it. *)
Definition createRangeSetStart (p : path) (o : nat) : M node Range :=
  (doc <- get ;;
   match nodeAt p doc with
   | Some n => if nodeLength n <? o then throw IndexSizeError
               else ret (mkRange p o p o)
   | None => throw NotAddressable
   end)%monad.

(** [range.setEnd(node, offset)] *)
Definition setEnd (r : Range) (p : path) (o : nat) : M node Range :=
  (doc <- get ;;
   match nodeAt p doc with
   | Some n =>
       if nodeLength n <? o then throw IndexSizeError
       else match bpCompare p o (startContainer r) (startOffset r) with
            | Lt => ret (mkRange p o p o)
            | _ => ret (mkRange (startContainer r) (startOffset r) p o)
            end
   | None => throw NotAddressable
   end)%monad.

(** A node is contained in a range when its start [(node, 0)] is after
    the start of the range and its end [(node, length)] is before the end
    of the range. *)
Definition containedIn (r : Range) (q : path) (len : nat) : bool :=
  match bpCompare q 0 (startContainer r) (startOffset r),
        bpCompare q len (endContainer r) (endOffset r) with
  | Gt, Lt => true
  | _, _ => false
  end.

(** [range.toString()] *)
Definition rangeToString (doc : node) (r : Range) : str :=
  let startNode := nodeAt (startContainer r) doc in
  let endNode := nodeAt (endContainer r) doc in
  match startNode, path_eqb (startContainer r) (endContainer r) with
  | Some (Text d), true => substring d (startOffset r) (endOffset r)
  | _, _ =>
      (match startNode with
       | Some (Text d) => skipn (startOffset r) d
       | _ => []
       end)
      ++ flat_map (fun t => if containedIn r (tpath t) (length (tdata t))
                            then tdata t else [])
                  (walkText [] doc)
      ++ (match endNode with
          | Some (Text d) => firstn (endOffset r) d
          | _ => []
          end)
  end.

(** *** Extracting a range

    [extractTail p n o] cuts node [n] at the boundary point [(p, o)] inside
    it and takes what follows: the DOM's steps for the "first partially
    contained child".  It returns what is left of [n] and the clone that
    carries the extracted part.  [extractHead] is the mirror image for the
    "last partially contained child". *)
Fixpoint extractTail (p : path) (n : node) (o : nat) : option (node * node) :=
  match p, n with
  | [], Text d =>
      if o <=? length d then Some (Text (firstn o d), Text (skipn o d))
      else None
  | [], Elem r t c kids =>
      if o <=? length kids
      then Some (Elem r t c (firstn o kids), Elem None t c (skipn o kids))
      else None
  | i :: p', Elem r t c kids =>
      match nth_error kids i with
      | Some k =>
          match extractTail p' k o with
          | Some (rest, clone) =>
              Some (Elem r t c (firstn i kids ++ [rest]),
                    Elem None t c (clone :: skipn (i + 1) kids))
          | None => None
          end
      | None => None
      end
  | _ :: _, Text _ => None
  end.

Fixpoint extractHead (p : path) (n : node) (o : nat) : option (node * node) :=
  match p, n with
  | [], Text d =>
      if o <=? length d then Some (Text (firstn o d), Text (skipn o d))
      else None
  | [], Elem r t c kids =>
      if o <=? length kids
      then Some (Elem None t c (firstn o kids), Elem r t c (skipn o kids))
      else None
  | i :: p', Elem r t c kids =>
      match nth_error kids i with
      | Some k =>
          match extractHead p' k o with
          | Some (clone, rest) =>
              Some (Elem None t c (firstn i kids ++ [clone]),
                    Elem r t c (rest :: skipn (i + 1) kids))
          | None => None
          end
      | None => None
      end
  | _ :: _, Text _ => None
  end.

(** The DOM's "extract" of the range from [(sp, so)] to [(ep, eo)] below
    node [n]: what is left of [n], the children of the fragment, and the
    boundary point the range collapses to.  While both paths enter the same
    child the common ancestor lies deeper. *)
Fixpoint extractRange (sp : path) (so : nat) (ep : path) (eo : nat) (n : node)
  : option (node * list node * (path * nat)) :=
  match sp, ep, n with
  | [], [], Text d =>
      if (so <=? eo) && (eo <=? length d)
      then Some (Text (firstn so d ++ skipn eo d),
                 [Text (substring d so eo)], ([], so))
      else None
  | [], [], Elem r t c kids =>
      if (so <=? eo) && (eo <=? length kids)
      then Some (Elem r t c (firstn so kids ++ skipn eo kids),
                 slice kids so eo, ([], so))
      else None
  | [], j :: ep', Elem r t c kids =>
      match nth_error kids j with
      | Some kj =>
          if so <=? j then
            match extractHead ep' kj eo with
            | Some (clone, rest) =>
                Some (Elem r t c (firstn so kids ++ rest :: skipn (j + 1) kids),
                      slice kids so j ++ [clone], ([], so))
            | None => None
            end
          else None
      | None => None
      end
  | i :: sp', [], Elem r t c kids =>
      match nth_error kids i with
      | Some ki =>
          if (i <? eo) && (eo <=? length kids) then
            match extractTail sp' ki so with
            | Some (rest, clone) =>
                Some (Elem r t c (firstn i kids ++ rest :: skipn eo kids),
                      clone :: slice kids (i + 1) eo, ([], i + 1))
            | None => None
            end
          else None
      | None => None
      end
  | i :: sp', j :: ep', Elem r t c kids =>
      if i =? j then
        match nth_error kids i with
        | Some k =>
            match extractRange sp' so ep' eo k with
            | Some (k', fragment, (p, o)) =>
                Some (Elem r t c (firstn i kids ++ k' :: skipn (i + 1) kids),
                      fragment, (i :: p, o))
            | None => None
            end
        | None => None
        end
      else if i <? j then
        match nth_error kids i, nth_error kids j with
        | Some ki, Some kj =>
            match extractTail sp' ki so, extractHead ep' kj eo with
            | Some (resti, clonei), Some (clonej, restj) =>
                Some (Elem r t c
                        (firstn i kids ++ resti :: restj :: skipn (j + 1) kids),
                      clonei :: slice kids (i + 1) j ++ [clonej], ([], i + 1))
            | _, _ => None
            end
        | _, _ => None
        end
      else None
  | _, _, Text _ => None
  end.

(** [range.extractContents()]: the fragment's children; the range is left
    collapsed where the content was. *)
Definition extractContents (r : Range) : M node (list node * Range) :=
  (doc <- get ;;
   if collapsed r then ret ([], r)
   else match extractRange (startContainer r) (startOffset r)
                           (endContainer r) (endOffset r) doc with
        | Some (doc', fragment, (p, o)) =>
            put doc' ;;; ret (fragment, mkRange p o p o)
        | None => throw NotAddressable
        end)%monad.

(** Inserting [new] at the boundary point [(p, o)] below [n]; the result is
    the list of nodes that takes the place of [n]: a [Text] start node is
    split in two around the new node. *)
Fixpoint insertInto (p : path) (o : nat) (new : node) (n : node)
  : option (list node) :=
  match p, n with
  | [], Text d =>
      if o <=? length d then Some [Text (firstn o d); new; Text (skipn o d)]
      else None
  | [], Elem r t c kids =>
      if o <=? length kids
      then Some [Elem r t c (firstn o kids ++ new :: skipn o kids)]
      else None
  | i :: p', Elem r t c kids =>
      match nth_error kids i with
      | Some k =>
          match insertInto p' o new k with
          | Some l => Some [Elem r t c (firstn i kids ++ l ++ skipn (i + 1) kids)]
          | None => None
          end
      | None => None
      end
  | _ :: _, Text _ => None
  end.

(** [range.insertNode(new)].  A [Text] start node without a parent cannot
    be split: [HierarchyRequestError]. *)
Definition insertNode (r : Range) (new : node) : M node unit :=
  (doc <- get ;;
   match insertInto (startContainer r) (startOffset r) new doc with
   | Some [doc'] => put doc'
   | Some _ => throw HierarchyRequestError
   | None => throw NotAddressable
   end)%monad.

(** Is a node that is not a [Text] partially contained on the side of the
    boundary point whose path below the common ancestor is [rel]? *)
Definition partialNonText (doc : node) (anc rel : path) : bool :=
  match rel with
  | [] => false
  | [i] => match nodeAt (anc ++ [i]) doc with
           | Some (Text _) => false
           | _ => true
           end
  | _ :: _ :: _ => true
  end.

Definition partiallyContainsNonText (doc : node) (r : Range) : bool :=
  let anc := commonAncestorContainer r in
  partialNonText doc anc (skipn (length anc) (startContainer r))
  || partialNonText doc anc (skipn (length anc) (endContainer r)).

Definition withChildren (n : node) (kids : list node) : node :=
  match n with
  | Elem r t c _ => Elem r t c kids
  | Text d => Text d
  end.

(** [range.surroundContents(newParent)] for a freshly created, childless
    element: the check comes before any edit; then the content is
    extracted, [newParent] inserted at the range and the fragment appended
    to it (here [newParent] is inserted with the fragment already in it). *)
Definition surroundContents (r : Range) (newParent : node) : M node unit :=
  (doc <- get ;;
   if partiallyContainsNonText doc r then throw InvalidStateError
   else
     x <- extractContents r ;;
     let '(fragment, r') := x in
     insertNode r' (withChildren newParent fragment))%monad.

(** *** Selectors *)

(** Does some descendant of [n] satisfy [f]?  ([querySelector] never
    returns the element it is called on.) *)
Fixpoint anyDescendant (f : node -> bool) (n : node) : bool :=
  match n with
  | Text _ => false
  | Elem _ _ _ kids => existsb (fun k => f k || anyDescendant f k) kids
  end.

(** Does [n] or a node below it, on the way to [p] but before [p] itself,
    satisfy [f]?  These are the inclusive ancestors of the parent of the
    node at [p]: [parentElement.closest]. *)
Fixpoint anyProperAncestor (f : node -> bool) (p : path) (n : node) : bool :=
  match p with
  | [] => false
  | i :: p' =>
      f n || match n with
             | Elem _ _ _ kids =>
                 match nth_error kids i with
                 | Some k => anyProperAncestor f p' k
                 | None => false
                 end
             | Text _ => false
             end
  end.

(** *** Normalizing and unwrapping *)

(** Within one child list: empty [Text] nodes go, adjacent ones merge. *)
Fixpoint mergeTexts (l : list node) : list node :=
  match l with
  | [] => []
  | Text d :: rest =>
      match d with
      | [] => mergeTexts rest
      | _ :: _ =>
          match mergeTexts rest with
          | Text d' :: rest' => Text (d ++ d') :: rest'
          | rest' => Text d :: rest'
          end
      end
  | e :: rest => e :: mergeTexts rest
  end.

(** [node.normalize()] *)
Fixpoint normalize (n : node) : node :=
  match n with
  | Text d => Text d
  | Elem r t c kids => Elem r t c (mergeTexts (map normalize kids))
  end.

(** Where the element object [r] is in the tree, if it is there. *)
Fixpoint findRef (r : nat) (n : node) : option path :=
  match n with
  | Text _ => None
  | Elem r' _ _ kids =>
      if match r' with Some x => x =? r | None => false end then Some []
      else
        (fix inChildren (i : nat) (l : list node) : option path :=
           match l with
           | [] => None
           | k :: l' =>
               match findRef r k with
               | Some p => Some (i :: p)
               | None => inChildren (S i) l'
               end
           end) 0 kids
  end.

(** The body of [clearHighlights] for the element at path [p]: its
    children move in front of it under its parent, it is removed, and the
    parent is normalized. *)
Fixpoint unwrapAt (p : path) (n : node) : option node :=
  match p, n with
  | [i], Elem r t c kids =>
      match nth_error kids i with
      | Some (Elem _ _ _ inner) =>
          Some (normalize (Elem r t c (firstn i kids ++ inner ++ skipn (i + 1) kids)))
      | _ => None
      end
  | i :: p', Elem r t c kids =>
      match nth_error kids i with
      | Some k =>
          match unwrapAt p' k with
          | Some k' => Some (Elem r t c (firstn i kids ++ k' :: skipn (i + 1) kids))
          | None => None
          end
      | None => None
      end
  | _, _ => None
  end.

(** [element.className = c] on the element object [r].  Object identities
    are unique: at most one element of a document carries [r]. *)
Fixpoint setClassName (r : nat) (c : str) (n : node) : node :=
  match n with
  | Text d => Text d
  | Elem r' t c' kids =>
      Elem r' t
        (if match r' with Some x => x =? r | None => false end then c else c')
        (map (setClassName r c) kids)
  end.

End Dom.

(* ================================================================== *)
(** ** [text-matcher.ts]: class [TextMatcher] *)

Module Matcher.
Import Dom.

Record TextPositionMap : Type := mkTextPositionMap {
  node : TextRef;
  startOffset : nat;
  endOffset : nat;
  normalizedText : str
}.

Record NodeLocation : Type := mkNodeLocation {
  locNode : TextRef;
  offset : nat
}.

(** [normalizedText] of the source's [DOMRange] is [rangeNormalizedText]
    here, the name being taken by [TextPositionMap]. *)
Record DOMRange : Type := mkDOMRange {
  range : Range;
  originalText : str;
  rangeNormalizedText : str
}.

Record TextMatcher : Type := mkTextMatcher {
  rootElement : Dom.node;
  textNodes : list TextRef;
  textPositionMap : list TextPositionMap;
  fullNormalizedText : str
}.

(** The tree walker's [acceptNode]. *)
Definition acceptNode (n : TextRef) : bool :=
  let text := trim (tdata n) in
  if length text =? 0 then false
  else
    let tagName := toLowerCase (parentTag n) in
    if existsb (str_eqb tagName) [lit "script"; lit "style"; lit "noscript"]
    then false
    else true.

(** The [while (node = walker.nextNode())] loop of [buildTextNodeMap]. *)
Fixpoint buildLoop (nodes : list TextRef) (globalOffset : nat)
  : list TextPositionMap :=
  match nodes with
  | [] => []
  | nd :: rest =>
      let originalText := tdata nd in
      let normalizedText := normalizeText originalText in
      if 0 <? length normalizedText then
        let item := mkTextPositionMap nd globalOffset
                      (globalOffset + length normalizedText) normalizedText in
        let globalOffset := globalOffset + length normalizedText in
        let globalOffset :=
          if 0 <? globalOffset then globalOffset + 1 else globalOffset in
        item :: buildLoop rest globalOffset
      else buildLoop rest globalOffset
  end.

(** [new TextMatcher(rootElement)], that is [buildTextNodeMap]. *)
Definition newTextMatcher (rootElement : Dom.node) : TextMatcher :=
  let accepted := filter acceptNode (walkText [] rootElement) in
  let map := buildLoop accepted 0 in
  mkTextMatcher rootElement (List.map node map) map
    (join [space] (List.map normalizedText map)).

(** The [for] loop of [denormalizeOffset]: [rest] is the text from index
    [i] on and [prev] the code unit at [i - 1]. *)
Fixpoint denormalizeLoop (prev : option ascii) (rest : str)
    (i normalizedPos originalPos normalizedOffset : nat) : nat :=
  match rest with
  | [] => originalPos
  | char :: rest' =>
      if normalizedPos <? normalizedOffset then
        let normalizedPos :=
          if isWhitespace char then
            if (i =? 0)
               || negb (match prev with
                        | Some c => isWhitespace c
                        | None => false
                        end)
            then S normalizedPos else normalizedPos
          else S normalizedPos in
        denormalizeLoop (Some char) rest' (S i) normalizedPos (S i)
                        normalizedOffset
      else originalPos
  end.

Definition denormalizeOffset (originalText : str) (normalizedOffset : nat) : nat :=
  Nat.min (denormalizeLoop None originalText 0 0 0 normalizedOffset)
          (length originalText).

(** The [for ... of] loop of [findNodeAtPosition]. *)
Fixpoint findNodeLoop (items : list TextPositionMap) (currentPos position : nat)
  : option NodeLocation :=
  match items with
  | [] => None
  | mapItem :: rest =>
      let nodeLength := length (normalizedText mapItem) in
      if (currentPos <=? position) && (position <? currentPos + nodeLength)
      then
        let relativeOffset := position - currentPos in
        let originalOffset :=
          denormalizeOffset (tdata (node mapItem)) relativeOffset in
        Some (mkNodeLocation (node mapItem)
                (Nat.min originalOffset (length (tdata (node mapItem)))))
      else findNodeLoop rest (currentPos + nodeLength + 1) position
  end.

Definition findNodeAtPosition (tm : TextMatcher) (position : nat)
  : option NodeLocation :=
  findNodeLoop (textPositionMap tm) 0 position.

(** [createDOMRange(startPos, endPos)].  [endPos - 1] is [-1] when
    [endPos] is 0, a position no segment holds. *)
Definition createDOMRange (tm : TextMatcher) (startPos endPos : nat)
  : option DOMRange :=
  let startLocation := findNodeAtPosition tm startPos in
  let endLocation :=
    match endPos with
    | 0 => None
    | S e => findNodeAtPosition tm e
    end in
  match startLocation, endLocation with
  | Some startLocation, Some endLocation =>
      let body : M Dom.node DOMRange :=
        (r <- createRangeSetStart (tpath (locNode startLocation))
                                  (offset startLocation) ;;
         r <- setEnd r (tpath (locNode endLocation))
                     (offset endLocation + 1) ;;
         doc <- get ;;
         ret (mkDOMRange r (rangeToString doc r)
                (normalizeText (rangeToString doc r))))%monad in
      match body (rootElement tm) with
      | Ok d _ => Some d
      | Throw _ _ => None
      end
  | _, _ => None
  end.

(** The [while] loop of [findTextRanges], each range with the
    [matchIndex] it was made for.  [indexOf] never returns less than
    [searchStart], so the loop ends within [length text + 1] rounds;
    [fuel] bounds the rounds and [None] says it ran out. *)
Fixpoint searchLoop (fuel : nat) (tm : TextMatcher) (normalizedTarget : str)
    (searchStart : nat) : option (list (nat * DOMRange)) :=
  match fuel with
  | 0 => None
  | S fuel' =>
      match indexOf (fullNormalizedText tm) normalizedTarget searchStart with
      | None => Some []
      | Some matchIndex =>
          let range :=
            createDOMRange tm matchIndex
                           (matchIndex + length normalizedTarget) in
          match searchLoop fuel' tm normalizedTarget (matchIndex + 1) with
          | Some ranges =>
              Some (match range with
                    | Some r => (matchIndex, r) :: ranges
                    | None => ranges
                    end)
          | None => None
          end
      end
  end.

Definition findTextMatches (tm : TextMatcher) (targetText : str)
  : option (list (nat * DOMRange)) :=
  let normalizedTarget := normalizeText targetText in
  if length normalizedTarget =? 0 then Some []
  else searchLoop (2 + length (fullNormalizedText tm)) tm normalizedTarget 0.

(** [findTextRanges(targetText)] *)
Definition findTextRanges (tm : TextMatcher) (targetText : str)
  : list DOMRange :=
  match findTextMatches tm targetText with
  | Some ranges => List.map snd ranges
  | None => []
  end.

(** [new Set(words)]: the distinct words, first occurrences kept. *)
Fixpoint distinct (seen : list str) (l : list str) : list str :=
  match l with
  | [] => []
  | w :: rest =>
      if existsb (str_eqb w) seen then distinct seen rest
      else w :: distinct (w :: seen) rest
  end.

Definition ofNat (n : nat) : float :=
  PrimFloat.of_uint63 (Uint63.of_Z (Z.of_nat n)).

(** [calculateSimilarity(text1, text2)] *)
Definition calculateSimilarity (text1 text2 : str) : float :=
  let words1 := distinct [] (split space (toLowerCase text1)) in
  let words2 := distinct [] (split space (toLowerCase text2)) in
  let intersection :=
    distinct [] (filter (fun word => existsb (str_eqb word) words2) words1) in
  let union := distinct [] (words1 ++ words2) in
  PrimFloat.div (ofNat (length intersection)) (ofNat (length union)).

(** The declared default of the [threshold] parameter. *)
Definition defaultThreshold : float := 0.8%float.

(** [similarity >= threshold] *)
Definition reaches (similarity threshold : float) : bool :=
  PrimFloat.leb threshold similarity.

(** What [findFuzzyTextRanges] computes for the window that starts at word
    [i]: its text, its similarity to the query, and the range built when
    the similarity reaches the threshold. *)
Definition windowText (fullTextWords : list str) (windowSize i : nat) : str :=
  join [space] (slice fullTextWords i (i + windowSize)).

Definition fuzzyStep (tm : TextMatcher) (normalizedTarget : str)
    (threshold : float) (fullTextWords : list str) (windowSize i : nat)
  : list DOMRange :=
  let window := windowText fullTextWords windowSize i in
  let similarity := calculateSimilarity normalizedTarget window in
  if reaches similarity threshold then
    let windowStart := length (join [space] (slice fullTextWords 0 i)) in
    let windowEnd := windowStart + length window in
    match createDOMRange tm windowStart windowEnd with
    | Some r => [r]
    | None => []
    end
  else [].

(** [findFuzzyTextRanges(targetText, threshold = 0.8)]; the loop runs for
    [i = 0 .. fullTextWords.length - windowSize] and not at all when that
    bound is negative. *)
Definition findFuzzyTextRanges (tm : TextMatcher) (targetText : str)
    (threshold : option float) : list DOMRange :=
  let threshold :=
    match threshold with Some t => t | None => defaultThreshold end in
  let normalizedTarget := normalizeText targetText in
  if length normalizedTarget <? 10 then []
  else
    let words := split space normalizedTarget in
    if length words <? 3 then []
    else
      let windowSize := Nat.min (length words * 2) 20 in
      let fullTextWords := split space (fullNormalizedText tm) in
      flat_map (fuzzyStep tm normalizedTarget threshold fullTextWords windowSize)
               (seq 0 (S (length fullTextWords) - windowSize)).

(** [getContextAroundPosition(position, contextLength = 100)].  When
    [position - contextLength] lies beyond the text, [substring] clamps
    both ends to the length of the text and the result is empty, as it is
    here. *)
Definition getContextAroundPosition (tm : TextMatcher) (position : nat)
    (contextLength : option nat) : str :=
  let contextLength :=
    match contextLength with Some c => c | None => 100 end in
  let start := Nat.max 0 (position - contextLength) in
  let end_ :=
    Nat.min (length (fullNormalizedText tm)) (position + contextLength) in
  substring (fullNormalizedText tm) start end_.

End Matcher.

(* ================================================================== *)
(** ** [text-highlighter.ts]: class [TextHighlighter]

    The calls into the tooltip manager are left out: [hideTooltip] and the
    event listeners only arm timers and react to pointer events; they
    touch neither the document nor the registry of highlights.  Of a highlight element the
    model keeps its identity, tag and class; the [data-*] attributes and
    the [id] attribute are not read by the code below. *)

Module Highlighter.
Import Dom Matcher.

Inductive ManipulationType : Type :=
| fear_mongering | outrage_bait | emotional_appeal
| strawman | ad_hominem | false_dichotomy | slippery_slope
| cherry_picking | misleading_statistics | false_correlation | quote_mining
| bandwagon | authority_appeal | loaded_language | repetition
| headline_mismatch | buried_lede | false_balance.

(** The string a [ManipulationType] is in the source. *)
Definition typeName (t : ManipulationType) : str :=
  match t with
  | fear_mongering => lit "fear_mongering"
  | outrage_bait => lit "outrage_bait"
  | emotional_appeal => lit "emotional_appeal"
  | strawman => lit "strawman"
  | ad_hominem => lit "ad_hominem"
  | false_dichotomy => lit "false_dichotomy"
  | slippery_slope => lit "slippery_slope"
  | cherry_picking => lit "cherry_picking"
  | misleading_statistics => lit "misleading_statistics"
  | false_correlation => lit "false_correlation"
  | quote_mining => lit "quote_mining"
  | bandwagon => lit "bandwagon"
  | authority_appeal => lit "authority_appeal"
  | loaded_language => lit "loaded_language"
  | repetition => lit "repetition"
  | headline_mismatch => lit "headline_mismatch"
  | buried_lede => lit "buried_lede"
  | false_balance => lit "false_balance"
  end.

Inductive HighlightMode : Type := full_color | low_contrast.

Record ManipulationBlock : Type := mkManipulationBlock {
  original_text : str;
  manipulation_type : ManipulationType;
  manipulation_description : str;
  confidence : float
}.

(** [`highlight-${index}-${rangeIndex}-${Date.now()}`]: the two indices
    already tell the ids of one pass apart. *)
Definition HighlightId : Type := (nat * nat)%type.

(** [range] of the source's [HighlightInfo] is never read again and is
    left out; [element] is the identity of the span. *)
Record HighlightInfo : Type := mkHighlightInfo {
  element : nat;
  manipulation : ManipulationBlock;
  id : HighlightId
}.

(** The document below [document.body], the allocator of object
    identities, and the fields of the highlighter. *)
Record State : Type := mkState {
  body : Dom.node;
  nextRef : nat;
  highlightedElements : list (HighlightId * HighlightInfo);
  currentMode : HighlightMode
}.

Definition setBody (st : State) (doc : Dom.node) : State :=
  mkState doc (nextRef st) (highlightedElements st) (currentMode st).

(** A DOM call made on the document of the state. *)
Definition onDocument {A} (m : M Dom.node A) : M State A :=
  fun st => match m (body st) with
            | Ok a doc => Ok a (setBody st doc)
            | Throw e doc => Throw e (setBody st doc)
            end.

Definition HIGHLIGHT_CLASS_PREFIX : str := lit "manipulation-highlight".

Definition getHighlightClass (currentMode : HighlightMode)
    (manipulationType : ManipulationType) : str :=
  let baseClass :=
    HIGHLIGHT_CLASS_PREFIX ++ lit "-" ++ typeName manipulationType in
  let modeClass :=
    match currentMode with
    | low_contrast => lit "low-contrast"
    | full_color => lit "full-color"
    end in
  baseClass ++ lit " " ++ modeClass ++ lit " manipulation-highlight-base".

(** The selector [[class*="manipulation-highlight"]]. *)
Definition matchesHighlightSelector (n : Dom.node) : bool :=
  match n with
  | Elem _ _ className _ => includes className HIGHLIGHT_CLASS_PREFIX
  | Text _ => false
  end.

Definition isRangeHighlighted (doc : Dom.node) (range : Range) : bool :=
  let container := commonAncestorContainer range in
  match nodeAt container doc with
  | Some (Elem _ _ _ _ as element) =>
      anyDescendant matchesHighlightSelector element
  | Some (Text _) =>
      anyProperAncestor matchesHighlightSelector container doc
  | None => false
  end.

(** [document.createElement('span')] with its class set. *)
Definition createSpan (manipulation : ManipulationBlock) : M State (nat * Dom.node) :=
  fun st =>
    let r := nextRef st in
    Ok (r, Elem (Some r) (lit "span")
              (getHighlightClass (currentMode st)
                                 (manipulation_type manipulation)) [])
       (mkState (body st) (S r) (highlightedElements st) (currentMode st)).

Definition createHighlightElementAlternative (range : Range)
    (manipulation : ManipulationBlock) (highlightId : HighlightId)
  : M State (option nat) :=
  tryCatch
    (x <- onDocument (extractContents range) ;;
     let '(contents, range) := x in
     s <- createSpan manipulation ;;
     let '(r, span) := s in
     onDocument (insertNode range (withChildren span contents)) ;;;
     ret (Some r))%monad
    (fun error => ret None).

Definition createHighlightElement (range : Range)
    (manipulation : ManipulationBlock) (highlightId : HighlightId)
  : M State (option nat) :=
  tryCatch
    (st <- get ;;
     if collapsed range || isRangeHighlighted (body st) range then ret None
     else
       s <- createSpan manipulation ;;
       let '(r, span) := s in
       onDocument (surroundContents range span) ;;;
       ret (Some r))%monad
    (fun error =>
       createHighlightElementAlternative range manipulation highlightId).

(** [Map.prototype.set] *)
Fixpoint mapSet (k : HighlightId) (v : HighlightInfo)
    (m : list (HighlightId * HighlightInfo)) : list (HighlightId * HighlightInfo) :=
  match m with
  | [] => [(k, v)]
  | (k', v') :: rest =>
      if (fst k =? fst k') && (snd k =? snd k') then (k, v) :: rest
      else (k', v') :: mapSet k v rest
  end.

Definition register (highlightId : HighlightId) (info : HighlightInfo) : M State unit :=
  fun st =>
    Ok tt (mkState (body st) (nextRef st)
             (mapSet highlightId info (highlightedElements st))
             (currentMode st)).

(** The ranges [highlightManipulation] works on: the exact matches, or the
    fuzzy ones at threshold 0.7 when there is no exact match. *)
Definition locate (textMatcher : TextMatcher) (text : str) : list DOMRange :=
  let ranges := findTextRanges textMatcher text in
  if length ranges =? 0
  then findFuzzyTextRanges textMatcher text (Some 0.7%float)
  else ranges.

(** The body of [clearHighlights] for one highlight.  An element that is
    not in the document, or is its root, has no parent in the model. *)
Definition removeHighlight (highlight : HighlightInfo) : M Dom.node unit :=
  (doc <- get ;;
   match findRef (element highlight) doc with
   | Some p =>
       match unwrapAt p doc with
       | Some doc' => put doc'
       | None => ret tt
       end
   | None => ret tt
   end)%monad.

Fixpoint forEachHighlight (l : list (HighlightId * HighlightInfo)) : M State unit :=
  match l with
  | [] => ret tt
  | (_, highlight) :: rest =>
      (tryCatch (onDocument (removeHighlight highlight)) (fun error => ret tt) ;;;
       forEachHighlight rest)%monad
  end.

Definition clearHighlights : M State unit :=
  (st <- get ;;
   forEachHighlight (highlightedElements st) ;;;
   st <- get ;;
   put (mkState (body st) (nextRef st) [] (currentMode st)))%monad.

Section LiveRanges.

(** The ranges of one manipulation are all built before the first of them
    is wrapped, and the browser keeps the ones still waiting up to date
    while the tree is edited.  [relocate old r new pending] is where the
    browser leaves the range [pending] after the edit, made for range
    [r], that took the document from [old] to [new].  The development
    holds for every such bookkeeping. *)
Variable relocate : Dom.node -> Range -> Dom.node -> Range -> Range.

(** [ranges.forEach((domRange, rangeIndex) => ...)]; [live] is what the
    edits made so far have done to a waiting range. *)
Fixpoint forEachRange (manipulation : ManipulationBlock) (index : nat)
    (ranges : list DOMRange) (rangeIndex : nat) (live : Range -> Range)
  : M State unit :=
  match ranges with
  | [] => ret tt
  | domRange :: rest =>
      (before <- get ;;
       let r := live (range domRange) in
       let highlightId := (index, rangeIndex) in
       highlightElement <- createHighlightElement r manipulation highlightId ;;
       match highlightElement with
       | Some el =>
           register highlightId (mkHighlightInfo el manipulation highlightId)
       | None => ret tt
       end ;;;
       after <- get ;;
       forEachRange manipulation index rest (S rangeIndex)
         (fun x => relocate (body before) r (body after) (live x)))%monad
  end.

Definition highlightManipulation (manipulation : ManipulationBlock)
    (index : nat) : M State unit :=
  (st <- get ;;
   let textMatcher := newTextMatcher (body st) in
   let ranges := locate textMatcher (original_text manipulation) in
   forEachRange manipulation index ranges 0 (fun x => x))%monad.

Fixpoint forEachManipulation (manipulations : list ManipulationBlock)
    (index : nat) : M State unit :=
  match manipulations with
  | [] => ret tt
  | manipulation :: rest =>
      (highlightManipulation manipulation index ;;;
       forEachManipulation rest (S index))%monad
  end.

Definition highlightManipulations (manipulations : list ManipulationBlock)
    (mode : HighlightMode) : M State unit :=
  (st <- get ;;
   put (mkState (body st) (nextRef st) (highlightedElements st) mode) ;;;
   clearHighlights ;;;
   forEachManipulation manipulations 0)%monad.

End LiveRanges.

(** Does a registered highlight element lie inside another one? *)
Definition isRegistered (refs : list nat) (n : Dom.node) : bool :=
  match n with
  | Elem (Some r) _ _ _ => existsb (Nat.eqb r) refs
  | _ => false
  end.

Fixpoint nestedHighlight (refs : list nat) (n : Dom.node) : bool :=
  match n with
  | Text _ => false
  | Elem _ _ _ kids =>
      (isRegistered refs n && anyDescendant (isRegistered refs) n)
      || existsb (nestedHighlight refs) kids
  end.

Definition mode_eqb (a b : HighlightMode) : bool :=
  match a, b with
  | full_color, full_color => true
  | low_contrast, low_contrast => true
  | _, _ => false
  end.

(** [highlightedElements.forEach] of [updateHighlightMode]; an element
    that is not in the document changes no node of it. *)
Fixpoint forEachClass (currentMode : HighlightMode)
    (l : list (HighlightId * HighlightInfo)) : M Dom.node unit :=
  match l with
  | [] => ret tt
  | (_, highlight) :: rest =>
      (let newClass :=
         getHighlightClass currentMode
           (manipulation_type (manipulation highlight)) in
       doc <- get ;;
       put (setClassName (element highlight) newClass doc) ;;;
       forEachClass currentMode rest)%monad
  end.

Definition updateHighlightMode (mode : HighlightMode) : M State unit :=
  (st <- get ;;
   if mode_eqb mode (currentMode st) then ret tt
   else
     put (mkState (body st) (nextRef st) (highlightedElements st) mode) ;;;
     st <- get ;;
     onDocument (forEachClass (currentMode st) (highlightedElements st)))%monad.

(** [getHighlightCount()] *)
Definition getHighlightCount (st : State) : nat :=
  length (highlightedElements st).

(** The keys of the [counts] record are the names of the types. *)
Definition type_eqb (a b : ManipulationType) : bool :=
  str_eqb (typeName a) (typeName b).

(** [counts[type] = (counts[type] || 0) + 1]; a new key goes last. *)
Fixpoint bump (type : ManipulationType) (counts : list (ManipulationType * nat))
  : list (ManipulationType * nat) :=
  match counts with
  | [] => [(type, 0 + 1)]
  | (t, n) :: rest =>
      if type_eqb type t then (t, n + 1) :: rest
      else (t, n) :: bump type rest
  end.

(** [getHighlightsByType()] *)
Definition getHighlightsByType (st : State) : list (ManipulationType * nat) :=
  fold_left
    (fun counts highlight =>
       bump (manipulation_type (manipulation (snd highlight))) counts)
    (highlightedElements st) [].

End Highlighter.

(* ================================================================== *)
(** ** [constants.ts] *)

Module Constants.
Import Highlighter.

Definition MANIPULATION_COLORS (type : ManipulationType) : str :=
  match type with
  | fear_mongering => lit "#FF6B6B"
  | outrage_bait => lit "#FF6B6B"
  | emotional_appeal => lit "#FF6B6B"
  | strawman => lit "#FFB347"
  | ad_hominem => lit "#FFB347"
  | false_dichotomy => lit "#FFB347"
  | slippery_slope => lit "#FFB347"
  | cherry_picking => lit "#FFD93D"
  | misleading_statistics => lit "#FFD93D"
  | false_correlation => lit "#FFD93D"
  | quote_mining => lit "#FFD93D"
  | bandwagon => lit "#6BCEFF"
  | authority_appeal => lit "#6BCEFF"
  | loaded_language => lit "#6BCEFF"
  | repetition => lit "#6BCEFF"
  | headline_mismatch => lit "#B19CD9"
  | buried_lede => lit "#B19CD9"
  | false_balance => lit "#B19CD9"
  end.

(** The entries of the object, in the order it lists them. *)
Definition MANIPULATION_CATEGORIES : list (str * list ManipulationType) :=
  [ (lit "Emotional Manipulation",
     [fear_mongering; outrage_bait; emotional_appeal]);
    (lit "Logical Fallacies",
     [strawman; ad_hominem; false_dichotomy; slippery_slope]);
    (lit "Information Distortion",
     [cherry_picking; misleading_statistics; false_correlation; quote_mining]);
    (lit "Persuasion Techniques",
     [bandwagon; authority_appeal; loaded_language; repetition]);
    (lit "Structural Manipulation",
     [headline_mismatch; buried_lede; false_balance]) ].

(** [types.includes(type)] *)
Definition includesType (types : list ManipulationType) (type : ManipulationType)
  : bool :=
  existsb (type_eqb type) types.

End Constants.

(* ================================================================== *)
(** ** [utils.ts]

    [maxLength] is a length, a [nat]; [maxLength - 3] below 3 is negative
    in the source and [substring] takes it for 0, which is what the
    subtraction of [nat] gives. *)

Module Utils.
Import Highlighter Constants.

(** [s.split(/\s+/)]: [inRun] tells that the previous code unit was white
    space, so that the separator it belongs to has already cut. *)
Fixpoint splitWs (inRun : bool) (s : str) : list str :=
  match s with
  | [] => [[]]
  | c :: r =>
      if isWhitespace c
      then (if inRun then splitWs true r else [] :: splitWs true r)
      else match splitWs false r with
           | w :: ws => (c :: w) :: ws
           | [] => [[c]]
           end
  end.

Definition countWords (text : str) : nat :=
  length (splitWs false (trim text)).

Definition truncateText (text : str) (maxLength : nat) : str :=
  if length text <=? maxLength then text
  else substring text 0 (maxLength - 3) ++ lit "...".

Record AnalysisResult : Type := mkAnalysisResult {
  manipulations : list ManipulationBlock;
  totalCount : nat;
  byCategory : list (str * nat);
  analysisDate : str
}.

(** [byCategory[category]++]; the key is one of those the record was
    initialised with. *)
Fixpoint increment (category : str) (byCategory : list (str * nat))
  : list (str * nat) :=
  match byCategory with
  | [] => []
  | (k, n) :: rest =>
      if str_eqb category k then (k, n + 1) :: rest
      else (k, n) :: increment category rest
  end.

(** The [for ... of] loop over the categories, left at the first one that
    lists the type. *)
Fixpoint countIn (entries : list (str * list ManipulationType))
    (manipulation : ManipulationBlock) (byCategory : list (str * nat))
  : list (str * nat) :=
  match entries with
  | [] => byCategory
  | (category, types) :: rest =>
      if includesType types (manipulation_type manipulation)
      then increment category byCategory
      else countIn rest manipulation byCategory
  end.

(** [formatAnalysisResult(manipulations)]; [now] is
    [new Date().toISOString()]. *)
Definition formatAnalysisResult (manipulations : list ManipulationBlock)
    (now : str) : AnalysisResult :=
  let byCategory := map (fun entry => (fst entry, 0)) MANIPULATION_CATEGORIES in
  let byCategory :=
    fold_left
      (fun byCategory manipulation =>
         countIn MANIPULATION_CATEGORIES manipulation byCategory)
      manipulations byCategory in
  mkAnalysisResult manipulations (length manipulations) byCategory now.

End Utils.

(* ================================================================== *)
(** ** [tooltip-manager.ts]: what the tooltip shows of a manipulation *)

Module Tooltip.
Import Highlighter Constants.

(** The [for ... of] loop of [getManipulationCategory]. *)
Fixpoint categoryIn (entries : list (str * list ManipulationType))
    (type : ManipulationType) : str :=
  match entries with
  | [] => lit "Unknown"
  | (category, types) :: rest =>
      if includesType types type then category else categoryIn rest type
  end.

Definition getManipulationCategory (type : ManipulationType) : str :=
  categoryIn MANIPULATION_CATEGORIES type.

Definition truncateText (text : str) (maxLength : nat) : str :=
  if length text <=? maxLength then text
  else substring text 0 maxLength ++ lit "...".

End Tooltip.

(* ================================================================== *)
(** ** [storage.ts]: class [SecureStorage], the API key

    [chrome.storage.sync] is a record of values under string keys; the
    calls on it are awaited one after the other, so each is a function on
    that record.  [btoa] is base64 as RFC 4648 has it, [atob] the
    "forgiving-base64 decode" of the HTML Standard; on a string with a
    code unit above 255 [btoa] throws, and the strings of the model have
    none. *)

Module Storage.

Definition alphabet : str :=
  lit "ABCDEFGHIJKLMNOPQRSTUVWXYZabcdefghijklmnopqrstuvwxyz0123456789+/".

Definition pad : ascii := "="%char.

Definition encodeSextet (n : nat) : ascii := nth n alphabet pad.

Fixpoint indexIn (c : ascii) (l : str) (i : nat) : option nat :=
  match l with
  | [] => None
  | x :: rest => if Ascii.eqb c x then Some i else indexIn c rest (S i)
  end.

Definition decodeChar (c : ascii) : option nat := indexIn c alphabet 0.

(** [btoa(s)]: three bytes make four characters; a last group of one or
    two bytes is padded with [=]. *)
Fixpoint btoa (s : str) : str :=
  match s with
  | [] => []
  | [a] =>
      let x := nat_of_ascii a in
      [encodeSextet (x / 4); encodeSextet (x mod 4 * 16); pad; pad]
  | [a; b] =>
      let x := nat_of_ascii a in
      let y := nat_of_ascii b in
      [encodeSextet (x / 4); encodeSextet (x mod 4 * 16 + y / 16);
       encodeSextet (y mod 16 * 4); pad]
  | a :: b :: c :: rest =>
      let x := nat_of_ascii a in
      let y := nat_of_ascii b in
      let z := nat_of_ascii c in
      encodeSextet (x / 4) :: encodeSextet (x mod 4 * 16 + y / 16)
      :: encodeSextet (y mod 16 * 4 + z / 64) :: encodeSextet (z mod 64)
      :: btoa rest
  end.

(** ASCII white space: TAB, LF, FF, CR and SPACE. *)
Definition isAsciiWhitespace (c : ascii) : bool :=
  let n := nat_of_ascii c in
  (n =? 9) || (n =? 10) || (n =? 12) || (n =? 13) || (n =? 32).

(** One or two [=] at the end are removed. *)
Definition stripPadding (data : str) : str :=
  match rev data with
  | p1 :: p2 :: r =>
      if Ascii.eqb p1 pad
      then (if Ascii.eqb p2 pad then rev r else rev (p2 :: r))
      else data
  | [p1] => if Ascii.eqb p1 pad then [] else data
  | [] => data
  end.

Fixpoint decodeAll (data : str) : option (list nat) :=
  match data with
  | [] => Some []
  | c :: rest =>
      match decodeChar c, decodeAll rest with
      | Some n, Some l => Some (n :: l)
      | _, _ => None
      end
  end.

(** Four sextets make three bytes; of a last group of two or three the
    bits left over are discarded. *)
Fixpoint decodeSextets (l : list nat) : str :=
  match l with
  | s0 :: s1 :: s2 :: s3 :: rest =>
      ascii_of_nat (s0 * 4 + s1 / 16)
      :: ascii_of_nat (s1 mod 16 * 16 + s2 / 4)
      :: ascii_of_nat (s2 mod 4 * 64 + s3)
      :: decodeSextets rest
  | [s0; s1; s2] =>
      [ascii_of_nat (s0 * 4 + s1 / 16); ascii_of_nat (s1 mod 16 * 16 + s2 / 4)]
  | [s0; s1] => [ascii_of_nat (s0 * 4 + s1 / 16)]
  | _ => []
  end.

(** [atob(data)]; [None] is the [InvalidCharacterError] it throws. *)
Definition atob (data : str) : option str :=
  let data := filter (fun c => negb (isAsciiWhitespace c)) data in
  let data := if length data mod 4 =? 0 then stripPadding data else data in
  if length data mod 4 =? 1 then None
  else
    match decodeAll data with
    | Some sextets => Some (decodeSextets sextets)
    | None => None
    end.

(** [text.split('').reverse().join('')] is [rev text]. *)
Definition obfuscate (text : str) : str := btoa (rev text).

Definition deobfuscate (obfuscated : str) : str :=
  match atob obfuscated with
  | Some s => rev s
  | None => []
  end.

Inductive LLMProvider : Type := gemini.

Definition providerName (provider : LLMProvider) : str :=
  match provider with gemini => lit "gemini" end.

(** [`apiKey_${provider}`] *)
Definition apiKeyOf (provider : LLMProvider) : str :=
  lit "apiKey_" ++ providerName provider.

(** [chrome.storage.sync]: the stored strings under their keys. *)
Definition SyncStorage : Type := list (str * str).

Fixpoint storageGet (key : str) (storage : SyncStorage) : option str :=
  match storage with
  | [] => None
  | (k, v) :: rest => if str_eqb key k then Some v else storageGet key rest
  end.

Fixpoint storageSet (key value : str) (storage : SyncStorage) : SyncStorage :=
  match storage with
  | [] => [(key, value)]
  | (k, v) :: rest =>
      if str_eqb key k then (k, value) :: rest
      else (k, v) :: storageSet key value rest
  end.

Definition storageRemove (key : str) (storage : SyncStorage) : SyncStorage :=
  filter (fun entry => negb (str_eqb key (fst entry))) storage.

Definition storeAPIKey (provider : LLMProvider) (apiKey : str)
    (storage : SyncStorage) : SyncStorage :=
  let encrypted := obfuscate apiKey in
  storageSet (apiKeyOf provider) encrypted storage.

(** [encrypted ? this.deobfuscate(encrypted) : null]: the empty string is
    falsy, as is [undefined]. *)
Definition getAPIKey (provider : LLMProvider) (storage : SyncStorage)
  : option str :=
  match storageGet (apiKeyOf provider) storage with
  | Some encrypted =>
      if length encrypted =? 0 then None else Some (deobfuscate encrypted)
  | None => None
  end.

Definition removeAPIKey (provider : LLMProvider) (storage : SyncStorage)
  : SyncStorage :=
  storageRemove (apiKeyOf provider) storage.

Definition hasValidAPIKey (provider : LLMProvider) (storage : SyncStorage)
  : bool :=
  match getAPIKey provider storage with
  | Some apiKey => 0 <? length apiKey
  | None => false
  end.

End Storage.

(* ================================================================== *)
(** ** Notions the properties are stated with *)

Module Spec.
Import Dom Matcher.

(** A list of segments laid out from offset [g] on: each one starts where
    the previous one ended plus the one separating position. *)
Inductive segmentsFrom : nat -> list TextPositionMap -> Prop :=
| segmentsFrom_nil (g : nat) : segmentsFrom g []
| segmentsFrom_cons (g : nat) (item : TextPositionMap) (rest : list TextPositionMap) :
    startOffset item = g ->
    endOffset item = g + length (normalizedText item) ->
    0 < length (normalizedText item) ->
    normalizedText item = normalizeText (tdata (node item)) ->
    segmentsFrom (endOffset item + 1) rest ->
    segmentsFrom g (item :: rest).

(** Segment [item] owns the normalized position [position]. *)
Definition owns (item : TextPositionMap) (position : nat) : Prop :=
  startOffset item <= position < endOffset item.

(** What [findNodeAtPosition] answers for a position that [item] owns. *)
Definition locationIn (item : TextPositionMap) (position : nat) : NodeLocation :=
  mkNodeLocation (node item)
    (Nat.min (denormalizeOffset (tdata (node item))
                                (position - startOffset item))
             (length (tdata (node item)))).

(** [s] is a substring of [t]. *)
Definition substringOf (s t : str) : Prop :=
  exists before after, t = before ++ s ++ after.

(** The only white space of [s] is single spaces ([afterWs] tells that the
    code unit before [s] was white space): the shape [replace(/\s+/g, ' ')]
    leaves. *)
Fixpoint singleSpaced (afterWs : bool) (s : str) : bool :=
  match s with
  | [] => true
  | c :: r =>
      if isWhitespace c
      then Ascii.eqb c space && negb afterWs && singleSpaced true r
      else singleSpaced false r
  end.

(** [pat] occurs in [s] at index [k]. *)
Definition occursAt (pat s : str) (k : nat) : bool :=
  (k <=? length s) && startsWith pat (skipn k s).

(** The indices from [k] on at which [pat] occurs in [s], in increasing
    order, and all of them. *)
Definition occurrencesFrom (pat s : str) (k : nat) : list nat :=
  filter (occursAt pat s) (seq k (S (length s) - k)).

Definition occurrences (pat s : str) : list nat := occurrencesFrom pat s 0.

(** The state an action ends in, whether it returns or throws. *)
Definition finalState {St A} (o : outcome St A) : St :=
  match o with
  | Ok _ s => s
  | Throw _ s => s
  end.

(** [document.body] is an element. *)
Definition bodyIsElement (st : Highlighter.State) : Prop :=
  isText (Highlighter.body st) = false.

(** The document of [st'] has the text of the document of [st]. *)
Definition sameText (st st' : Highlighter.State) : Prop :=
  textContent (Highlighter.body st') = textContent (Highlighter.body st)
  /\ bodyIsElement st'.

(** An action that leaves the text of the document as it was, also when it
    throws. *)
Definition keepsText {A} (m : M Highlighter.State A) : Prop :=
  forall st, bodyIsElement st -> sameText st (finalState (m st)).

(** An action that keeps [I], also when it throws. *)
Definition preserves {A} (I : Highlighter.State -> Prop)
    (m : M Highlighter.State A) : Prop :=
  forall st, I st -> I (finalState (m st)).

(** [I] looks at the registry and the mode only. *)
Definition bodyBlind (I : Highlighter.State -> Prop) : Prop :=
  forall st doc next,
    I st ->
    I (Highlighter.mkState doc next (Highlighter.highlightedElements st)
         (Highlighter.currentMode st)).



(** An action out of which no exception comes. *)
Definition neverThrows {St A} (m : M St A) : Prop :=
  forall st, exists a st', m st = Ok a st'.

(** Every boundary point inside the node at [q] comes after every boundary
    point inside the node at [p]. *)
Definition precedes (p q : path) : Prop :=
  forall x y, bpCompare q x p y = Gt.

(** Segment [a] lies before segment [b], in the text and in the tree. *)
Definition segmentBefore (a b : TextPositionMap) : Prop :=
  endOffset a < startOffset b
  /\ precedes (tpath (node a)) (tpath (node b)).

(** [s] holds nothing but white space. *)
Definition blank (s : str) : bool := forallb isWhitespace s.

(** [record[key]] of a record kept as the list of its entries; [None] is
    [undefined]. *)
Fixpoint valueOf {K V} (same : K -> K -> bool) (key : K) (record : list (K * V))
  : option V :=
  match record with
  | [] => None
  | (k, v) :: rest => if same key k then Some v else valueOf same key rest
  end.

(** The sum of the values of a record of counts. *)
Definition total {K} (record : list (K * nat)) : nat :=
  list_sum (map snd record).

(** The words [calculateSimilarity] takes a text for. *)
Definition wordsOf (text : str) : list str := split space (toLowerCase text).

(** Two texts with the same words, in whatever order and number. *)
Definition sameWords (a b : str) : Prop :=
  forall w, In w (wordsOf a) <-> In w (wordsOf b).

(** The text of a [Text] node. *)
Definition textOf (n : Dom.node) : option str :=
  match n with
  | Text d => Some d
  | Elem _ _ _ _ => None
  end.

(** Two documents with the same nodes at the same places, up to the
    classes of their elements: the same text nodes in the walk, and at
    every path a node of the same kind, length and text. *)
Definition sameShape (doc doc' : Dom.node) : Prop :=
  (forall parent, walkText parent doc' = walkText parent doc)
  /\ forall p,
       option_map nodeLength (nodeAt p doc') = option_map nodeLength (nodeAt p doc)
       /\ option_map textOf (nodeAt p doc') = option_map textOf (nodeAt p doc).

(** The class an element whose identity is [ref] and whose class was [c]
    has after the loop of [updateHighlightMode] over the highlights [l]. *)
Definition classAfter (mode : Highlighter.HighlightMode)
    (l : list (Highlighter.HighlightId * Highlighter.HighlightInfo))
    (ref : option nat) (c : str) : str :=
  fold_left
    (fun c e =>
       if match ref with
          | Some x => x =? Highlighter.element (snd e)
          | None => false
          end
       then Highlighter.getHighlightClass mode
              (Highlighter.manipulation_type
                 (Highlighter.manipulation (snd e)))
       else c)
    l c.

(** The registry holds each id once and each element once, and every
    registered element is an object that has been created. *)
Definition registryDistinct (st : Highlighter.State) : Prop :=
  NoDup (map fst (Highlighter.highlightedElements st))
  /\ NoDup (map (fun e => Highlighter.element (snd e))
              (Highlighter.highlightedElements st))
  /\ Forall (fun e => Highlighter.element (snd e) < Highlighter.nextRef st)
            (Highlighter.highlightedElements st).

(** The document [n] with the node at [p] replaced by [new]. *)
Fixpoint replaceAt (p : path) (new : Dom.node) (n : Dom.node) : Dom.node :=
  match p, n with
  | [], _ => new
  | i :: p', Elem r t c kids =>
      match nth_error kids i with
      | Some k => Elem r t c (firstn i kids ++ replaceAt p' new k :: skipn (i + 1) kids)
      | None => n
      end
  | _ :: _, Text _ => n
  end.

(** The loop of [findRef] over the children of an element, by name. *)
Definition findRefIn (r : nat) : nat -> list Dom.node -> option path :=
  fix inChildren (i : nat) (l : list Dom.node) : option path :=
    match l with
    | [] => None
    | k :: l' =>
        match findRef r k with
        | Some p => Some (i :: p)
        | None => inChildren (S i) l'
        end
    end.

(** A text node split at [a] and [b], with the middle part inside the
    element [span]: what wrapping the range from [a] to [b] makes of the
    text node. *)
Definition wrapped (d : str) (a b : nat) (span : Dom.node) : list Dom.node :=
  [Text (firstn a d); withChildren span [Text (substring d a b)];
   Text (skipn b d)].

(** The raw texts the index is built from: those of the accepted text
    nodes, in the order of the tree walk. *)
Definition rawTexts (doc : Dom.node) : list str :=
  map tdata (filter acceptNode (walkText [] doc)).

(** What [acceptNode] looks at in a text node: the tag of its parent and
    its text. *)
Definition labels (parent : str) (n : Dom.node) : list (str * str) :=
  map (fun x => (parentTag x, tdata x)) (walkText parent n).

Definition acceptLabel (l : str * str) : bool :=
  acceptNode (mkTextRef [] (fst l) (snd l)).

(** The sextets [btoa] encodes: every byte of [s] laid out over groups of
    six bits, the last group filled up with zeros. *)
Fixpoint sextetsOf (s : str) : list nat :=
  match s with
  | [] => []
  | [a] =>
      let x := nat_of_ascii a in
      [x / 4; x mod 4 * 16]
  | [a; b] =>
      let x := nat_of_ascii a in
      let y := nat_of_ascii b in
      [x / 4; x mod 4 * 16 + y / 16; y mod 16 * 4]
  | a :: b :: c :: rest =>
      let x := nat_of_ascii a in
      let y := nat_of_ascii b in
      let z := nat_of_ascii c in
      x / 4 :: x mod 4 * 16 + y / 16 :: y mod 16 * 4 + z / 64 :: z mod 64
      :: sextetsOf rest
  end.

(** The padding [btoa] ends with. *)
Definition paddingOf (s : str) : str :=
  match length s mod 3 with
  | 1 => [Storage.pad; Storage.pad]
  | 2 => [Storage.pad]
  | _ => []
  end.

(** The comparison of two ids, as [Map.prototype.get] and
    [Map.prototype.set] make it. *)
Definition sameId (k k' : Highlighter.HighlightId) : bool :=
  (fst k =? fst k') && (snd k =? snd k').

(** [highlightedElements.get(highlightId)] *)
Definition registryGet (highlightId : Highlighter.HighlightId)
    (st : Highlighter.State) : option Highlighter.HighlightInfo :=
  valueOf sameId highlightId (Highlighter.highlightedElements st).


(** The occurrences the loop of [highlightManipulation] comes to.
    [Attempt relocate manipulation index ranges rangeIndex live st
    (j, r, s)] says that the loop over [ranges], entered in state [st] at
    range index [rangeIndex] with the waiting ranges kept up to date by
    [live], passes the range [r] to [createHighlightElement] under the id
    [(index, j)] in state [s]: that is so for the first range in the state
    of entry, and for what the loop comes to in the rest once the first
    range has been dealt with. *)
Inductive Attempt
    (relocate : Dom.node -> Range -> Dom.node -> Range -> Range)
    (manipulation : Highlighter.ManipulationBlock) (index : nat)
  : list DOMRange -> nat -> (Range -> Range) -> Highlighter.State ->
    nat * Range * Highlighter.State -> Prop :=
| Attempt_first (domRange : DOMRange) (rest : list DOMRange)
    (rangeIndex : nat) (live : Range -> Range) (st : Highlighter.State) :
    Attempt relocate manipulation index (domRange :: rest) rangeIndex live st
      (rangeIndex, live (range domRange), st)
| Attempt_next (domRange : DOMRange) (rest : list DOMRange)
    (rangeIndex : nat) (live : Range -> Range) (st : Highlighter.State)
    (a : nat * Range * Highlighter.State) :
    Attempt relocate manipulation index rest (S rangeIndex)
      (fun x =>
         relocate (Highlighter.body st) (live (range domRange))
           (Highlighter.body
              (finalState
                 (Highlighter.forEachRange relocate manipulation index
                    [domRange] rangeIndex live st)))
           (live x))
      (finalState
         (Highlighter.forEachRange relocate manipulation index
            [domRange] rangeIndex live st))
      a ->
    Attempt relocate manipulation index (domRange :: rest) rangeIndex live st a.

(** The occurrences [highlightManipulations] comes to: those of the loop
    of each manipulation of the list, entered in the state that the
    manipulations before it have left, with the ranges located in the
    document of that state. *)
Definition attempted
    (relocate : Dom.node -> Range -> Dom.node -> Range -> Range)
    (manipulations : list Highlighter.ManipulationBlock)
    (mode : Highlighter.HighlightMode) (st : Highlighter.State)
    (index : nat) (manipulation : Highlighter.ManipulationBlock)
    (a : nat * Range * Highlighter.State) : Prop :=
  exists before after,
    manipulations = before ++ manipulation :: after
    /\ index = length before
    /\ Attempt relocate manipulation index
         (Highlighter.locate
            (newTextMatcher
               (Highlighter.body
                  (finalState
                     (Highlighter.highlightManipulations relocate before
                        mode st))))
            (Highlighter.original_text manipulation))
         0 (fun x => x)
         (finalState
            (Highlighter.highlightManipulations relocate before mode st))
         a.

End Spec.

(* ================================================================== *)
(** ** Documents and spans the properties are tried on *)

Module Scenario.
Import Dom Matcher Highlighter.

(** A browser in which no range is left waiting: with one range per
    manipulation the bookkeeping of waiting ranges is never consulted. *)
Definition noRelocation : Dom.node -> Range -> Dom.node -> Range -> Range :=
  fun _ _ _ pending => pending.

(** [<body><p>You <b>must </b>act now</p></body>] *)
Definition urgentBody : Dom.node :=
  Elem None (lit "body") []
    [Elem None (lit "p") []
       [Text (lit "You ");
        Elem None (lit "b") [] [Text (lit "must ")];
        Text (lit "act now")]].

Definition urgentState : State := mkState urgentBody 0 [] full_color.

(** Two spans whose quotations overlap: the second lies inside the first. *)
Definition wholeSentence : ManipulationBlock :=
  mkManipulationBlock (lit "You must act now") fear_mongering
    (lit "urgency") 0.9%float.

Definition innerWords : ManipulationBlock :=
  mkManipulationBlock (lit "must act") loaded_language
    (lit "command") 0.8%float.

(** The document [highlightManipulations] leaves for these two spans. *)
Definition urgentBodyHighlighted : Dom.node :=
  Elem None (lit "body") []
    [Elem None (lit "p") []
       [Text [];
        Elem (Some 0) (lit "span")
          (getHighlightClass full_color fear_mongering)
          [Text (lit "You ");
           Elem None (lit "b") [] [Text []];
           Elem (Some 2) (lit "span")
             (getHighlightClass full_color loaded_language)
             [Elem None (lit "b") [] [Text (lit "must ")];
              Text (lit "act")];
           Text (lit " now")];
        Text []]].

(** The scenario of the specification. *)
Definition skyBody : Dom.node :=
  Elem None (lit "body") []
    [Text (lit "The sky is falling and you should be very afraid of what comes next.")].

Definition skySpan : ManipulationBlock :=
  mkManipulationBlock (lit "you should be very afraid") fear_mongering
    (lit "fear") 0.9%float.

(** A paragraph of four words. *)
Definition fourWords : Dom.node :=
  Elem None (lit "body") [] [Text (lit "aa bb cc dd")].

(** The text node of [skyBody] and its segment in the index. *)
Definition skyText : str :=
  lit "The sky is falling and you should be very afraid of what comes next.".

Definition skyItem : TextPositionMap :=
  mkTextPositionMap (mkTextRef [0] (lit "body") skyText) 0 68 skyText.

(** A quotation inside a word of another quotation. *)
Definition reactBody : Dom.node :=
  Elem None (lit "body") [] [Text (lit "We react")].

Definition actSpan : ManipulationBlock :=
  mkManipulationBlock (lit "act") loaded_language (lit "verb") 0.9%float.

Definition reactSpan : ManipulationBlock :=
  mkManipulationBlock (lit "react") loaded_language (lit "verb") 0.9%float.

End Scenario.

(* ================================================================== *)
(** * Properties *)

Import Dom Matcher Highlighter Spec Scenario.

(** ** Strings *)

Section StringFacts.

Lemma trimStart_all_ws (s : str) :
  Forall (fun c => isWhitespace c = true) s -> trimStart s = [].
Proof.
  induction 1 as [|c r Hc _ IH]; simpl; [reflexivity|].
  now rewrite Hc.
Qed.

Lemma trimStart_head (s : str) (c : ascii) (r : str) :
  trimStart s = c :: r -> isWhitespace c = false.
Proof.
  induction s as [|a s IH]; simpl; [discriminate|].
  destruct (isWhitespace a) eqn:Ha; [exact IH|].
  intros E; injection E as <- _; exact Ha.
Qed.

Lemma trimStart_snoc (s : str) (c : ascii) :
  isWhitespace c = false -> trimStart (s ++ [c]) = trimStart s ++ [c].
Proof.
  intros Hc. induction s as [|a s IH]; simpl.
  - now rewrite Hc.
  - destruct (isWhitespace a); [exact IH | reflexivity].
Qed.

Lemma trimStart_length (s : str) : length (trimStart s) <= length s.
Proof.
  induction s as [|a s IH]; simpl; [lia|].
  destruct (isWhitespace a); simpl; lia.
Qed.

Lemma trimStart_keeps (s : str) (c : ascii) :
  In c s -> isWhitespace c = false -> In c (trimStart s).
Proof.
  intros Hin Hc. induction s as [|a s IH]; simpl in *; [contradiction|].
  destruct (isWhitespace a) eqn:Ha.
  - destruct Hin as [->|Hin]; [congruence | now apply IH].
  - exact Hin.
Qed.

Lemma trimEnd_length (s : str) : length (trimEnd s) <= length s.
Proof.
  unfold trimEnd. rewrite length_rev.
  pose proof (trimStart_length (rev s)) as H. now rewrite length_rev in H.
Qed.

Lemma trim_length (s : str) : length (trim s) <= length s.
Proof.
  unfold trim. pose proof (trimEnd_length (trimStart s)).
  pose proof (trimStart_length s). lia.
Qed.

Lemma trim_keeps (s : str) (c : ascii) :
  In c s -> isWhitespace c = false -> In c (trim s).
Proof.
  intros Hin Hc. unfold trim, trimEnd.
  apply in_rev. rewrite rev_involutive.
  apply trimStart_keeps; [|exact Hc].
  apply -> in_rev. now apply trimStart_keeps.
Qed.

(** A trimmed string neither starts nor ends with white space. *)
Lemma trim_head (s : str) (c : ascii) (r : str) :
  trim s = c :: r -> isWhitespace c = false.
Proof.
  unfold trim, trimEnd.
  destruct (trimStart s) as [|a t] eqn:Et; [discriminate|].
  pose proof (trimStart_head _ _ _ Et) as Ha.
  simpl rev. rewrite trimStart_snoc by exact Ha.
  rewrite rev_app_distr. simpl. intros E; injection E as <- _; exact Ha.
Qed.

Lemma trim_last (s : str) (r : str) (c : ascii) :
  trim s = r ++ [c] -> isWhitespace c = false.
Proof.
  unfold trim, trimEnd. intros E.
  apply (f_equal (@rev ascii)) in E.
  rewrite rev_involutive, rev_app_distr in E. simpl in E.
  exact (trimStart_head _ _ _ E).
Qed.

Lemma collapseWs_keeps (b : bool) (s : str) (c : ascii) :
  In c s -> isWhitespace c = false -> In c (collapseWs b s).
Proof.
  intros Hin Hc. revert b.
  induction s as [|a s IH]; intros b; simpl in *; [contradiction|].
  destruct Hin as [->|Hin].
  - rewrite Hc. now left.
  - destruct (isWhitespace a); [destruct b|]; simpl; auto.
Qed.

Lemma normalizeText_keeps (s : str) (c : ascii) :
  In c s -> isWhitespace c = false -> In c (normalizeText s).
Proof.
  intros Hin Hc. unfold normalizeText, replaceWsRuns.
  apply trim_keeps; [|exact Hc]. now apply collapseWs_keeps.
Qed.

Lemma trim_nonempty_has_char (s : str) :
  trim s <> [] -> exists c, In c s /\ isWhitespace c = false.
Proof.
  intros Hne.
  destruct (Forall_Exists_dec (fun c => isWhitespace c = true)
              (fun c => bool_dec (isWhitespace c) true) s) as [Hall|Hex].
  - exfalso. apply Hne. unfold trim. now rewrite trimStart_all_ws.
  - apply Exists_exists in Hex as [c [Hin Hc]].
    exists c. split; [exact Hin|]. now destruct (isWhitespace c).
Qed.

Lemma trim_nonempty_normalize (s : str) :
  trim s <> [] -> normalizeText s <> [].
Proof.
  intros H. destruct (trim_nonempty_has_char s H) as [c [Hin Hc]].
  pose proof (normalizeText_keeps s c Hin Hc) as Hn.
  intros E. now rewrite E in Hn.
Qed.

Lemma normalizeText_length (s : str) :
  length (normalizeText s) <= length (collapseWs false s).
Proof. apply trim_length. Qed.

End StringFacts.

(** ** The text index *)

Section IndexFacts.

Lemma join_cons2 (sep x y : str) (r : list str) :
  join sep (x :: y :: r) = x ++ sep ++ join sep (y :: r).
Proof. reflexivity. Qed.

Lemma buildLoop_segments (nodes : list TextRef) (g : nat) :
  segmentsFrom g (buildLoop nodes g).
Proof.
  revert g. induction nodes as [|nd rest IH]; intros g; simpl.
  - constructor.
  - destruct (0 <? length (normalizeText (tdata nd))) eqn:Hlen; [|apply IH].
    apply Nat.ltb_lt in Hlen.
    assert (Hpos : (0 <? g + length (normalizeText (tdata nd))) = true)
      by (apply Nat.ltb_lt; lia).
    rewrite Hpos.
    constructor; simpl; try reflexivity; try assumption.
    apply IH.
Qed.

Lemma buildLoop_nodes (nodes : list TextRef) (g : nat) :
  map node (buildLoop nodes g)
  = filter (fun nd => 0 <? length (normalizeText (tdata nd))) nodes.
Proof.
  revert g. induction nodes as [|nd rest IH]; intros g; simpl; [reflexivity|].
  destruct (0 <? length (normalizeText (tdata nd))); simpl; now rewrite IH.
Qed.

Lemma acceptNode_normalized (nd : TextRef) :
  acceptNode nd = true -> (0 <? length (normalizeText (tdata nd))) = true.
Proof.
  unfold acceptNode. intros H.
  destruct (length (trim (tdata nd)) =? 0) eqn:E; [discriminate|].
  apply Nat.eqb_neq in E.
  assert (Hne : trim (tdata nd) <> []) by (intros E0; now rewrite E0 in E).
  apply trim_nonempty_normalize in Hne.
  apply Nat.ltb_lt. destruct (normalizeText (tdata nd)); [congruence|simpl; lia].
Qed.

Lemma filter_filter_implied {A} (f g : A -> bool) (l : list A) :
  (forall x, f x = true -> g x = true) ->
  filter g (filter f l) = filter f l.
Proof.
  intros Himp. induction l as [|x l IH]; simpl; [reflexivity|].
  destruct (f x) eqn:Hf; simpl; [|exact IH].
  now rewrite (Himp x Hf), IH.
Qed.

Lemma segmentsFrom_nth (g : nat) (items : list TextPositionMap) :
  segmentsFrom g items ->
  forall k item, nth_error items k = Some item ->
    g <= startOffset item
    /\ 0 < length (normalizedText item)
    /\ endOffset item = startOffset item + length (normalizedText item)
    /\ normalizedText item = normalizeText (tdata (node item))
    /\ firstn (length (normalizedText item))
         (skipn (startOffset item - g)
                (join [space] (map normalizedText items)))
       = normalizedText item.
Proof.
  induction 1 as [g|g it rest Hs He Hl Hn Hrest IH]; intros k item Hk.
  - destruct k; discriminate.
  - destruct k as [|k]; simpl in Hk.
    + injection Hk as <-. rewrite Hs, Nat.sub_diag, skipn_O.
      repeat split; try lia; try assumption.
      destruct rest as [|it2 rest]; simpl map.
      * simpl. apply firstn_all.
      * rewrite join_cons2, firstn_app, Nat.sub_diag, firstn_all.
        simpl. apply app_nil_r.
    + destruct (IH k item Hk) as (Hg & Hlen & Hend & Hnorm & Hsub).
      repeat split; try lia; try assumption.
      destruct rest as [|it2 rest]; [destruct k; discriminate|].
      simpl map. rewrite join_cons2.
      replace (startOffset item - g)
        with (length (normalizedText it ++ [space])
              + (startOffset item - (endOffset it + 1)))
        by (rewrite length_app; simpl; lia).
      rewrite app_assoc, skipn_app, skipn_all2 by lia.
      replace (length (normalizedText it ++ [space]) +
               (startOffset item - (endOffset it + 1)) -
               length (normalizedText it ++ [space]))
        with (startOffset item - (endOffset it + 1)) by lia.
      simpl app. exact Hsub.
Qed.

Lemma segmentsFrom_next (g : nat) (items : list TextPositionMap) :
  segmentsFrom g items ->
  forall k a b, nth_error items k = Some a -> nth_error items (S k) = Some b ->
    startOffset b = endOffset a + 1.
Proof.
  induction 1 as [g|g it rest Hs He Hl Hn Hrest IH]; intros k a b Ha Hb.
  - destruct k; discriminate.
  - destruct k as [|k]; simpl in Ha, Hb.
    + injection Ha as <-. destruct rest as [|it2 rest]; [discriminate|].
      injection Hb as <-. inversion Hrest; subst. assumption.
    + eapply IH; eassumption.
Qed.

Lemma newTextMatcher_segments (root : Dom.node) :
  segmentsFrom 0 (textPositionMap (newTextMatcher root)).
Proof. apply buildLoop_segments. Qed.

End IndexFacts.

(** C9.  After the index is built: the segments are the accepted text
    nodes in the order of the tree walk; every segment has
    [startOffset < endOffset], covers exactly the length of its normalized
    text, which is [normalizeText] of its node's raw text, and the
    concatenated normalized string between its two offsets is that text;
    the next segment starts one position after it ends. *)
Theorem buildTextNodeMap_invariant (root : Dom.node) :
  let tm := newTextMatcher root in
  map node (textPositionMap tm) = filter acceptNode (walkText [] root)
  /\ (forall k item, nth_error (textPositionMap tm) k = Some item ->
        startOffset item < endOffset item
        /\ endOffset item - startOffset item = length (normalizedText item)
        /\ normalizedText item = normalizeText (tdata (node item))
        /\ substring (fullNormalizedText tm) (startOffset item) (endOffset item)
           = normalizedText item)
  /\ (forall k a b, nth_error (textPositionMap tm) k = Some a ->
        nth_error (textPositionMap tm) (S k) = Some b ->
        endOffset a < startOffset b /\ startOffset b = endOffset a + 1).
Proof.
  intros tm. pose proof (newTextMatcher_segments root) as Hseg. fold tm in Hseg.
  split; [|split].
  - unfold tm, newTextMatcher. simpl textPositionMap.
    rewrite buildLoop_nodes. apply filter_filter_implied.
    apply acceptNode_normalized.
  - intros k item Hk.
    destruct (segmentsFrom_nth _ _ Hseg k item Hk) as (_ & Hlen & Hend & Hn & Hsub).
    repeat split; try lia; try assumption.
    unfold substring. rewrite Nat.sub_0_r in Hsub.
    replace (endOffset item - startOffset item)
      with (length (normalizedText item)) by lia.
    exact Hsub.
  - intros k a b Ha Hb.
    pose proof (segmentsFrom_next _ _ Hseg k a b Ha Hb). lia.
Qed.

(** ** The coordinate mapper *)

Section MapperFacts.

Lemma findNodeLoop_sound (g : nat) (items : list TextPositionMap) :
  segmentsFrom g items ->
  forall position loc, findNodeLoop items g position = Some loc ->
    exists item, In item items /\ owns item position
                 /\ loc = locationIn item position.
Proof.
  induction 1 as [g|g it rest Hs He Hl Hn Hrest IH]; intros position loc;
    simpl; [discriminate|].
  destruct ((g <=? position) && (position <? g + length (normalizedText it)))
    eqn:Hin.
  - intros E. injection E as <-.
    apply andb_prop in Hin as [H1 H2].
    apply Nat.leb_le in H1. apply Nat.ltb_lt in H2.
    exists it. split; [now left|]. split; [unfold owns; lia|].
    unfold locationIn. now rewrite Hs.
  - replace (g + length (normalizedText it) + 1) with (endOffset it + 1) by lia.
    intros E. destruct (IH position loc E) as (item & Hi & Ho & Hloc).
    exists item. split; [now right|]. now split.
Qed.

Lemma findNodeLoop_complete (g : nat) (items : list TextPositionMap) :
  segmentsFrom g items ->
  forall position item, In item items -> owns item position ->
    findNodeLoop items g position <> None.
Proof.
  induction 1 as [g|g it rest Hs He Hl Hn Hrest IH]; intros position item Hi Ho;
    simpl; [contradiction|].
  destruct ((g <=? position) && (position <? g + length (normalizedText it)))
    eqn:Hin; [discriminate|].
  replace (g + length (normalizedText it) + 1) with (endOffset it + 1) by lia.
  destruct Hi as [->|Hi]; [|now apply (IH position item)].
  exfalso. unfold owns in Ho.
  apply andb_false_iff in Hin as [H|H];
    [apply Nat.leb_gt in H | apply Nat.ltb_ge in H]; lia.
Qed.

End MapperFacts.

(** C5.  [findNodeAtPosition] returns [null] exactly for the positions
    that no segment owns, that is, for those out of the range
    [[startOffset, endOffset)] of every segment; for a position that a
    segment owns it returns that segment's node, with the raw offset
    [denormalizeOffset] gives for the position relative to the segment,
    clamped to the length of the node's text. *)
Theorem findNodeAtPosition_in_range (root : Dom.node) (position : nat) :
  let tm := newTextMatcher root in
  (findNodeAtPosition tm position = None
   <-> ~ exists item, In item (textPositionMap tm) /\ owns item position)
  /\ (forall loc, findNodeAtPosition tm position = Some loc ->
        exists item, In item (textPositionMap tm) /\ owns item position
          /\ locNode loc = node item
          /\ offset loc
             = Nat.min (denormalizeOffset (tdata (node item))
                                          (position - startOffset item))
                       (length (tdata (node item)))
          /\ offset loc <= length (tdata (node item))).
Proof.
  intros tm. pose proof (newTextMatcher_segments root) as Hseg. fold tm in Hseg.
  unfold findNodeAtPosition. split; [split|].
  - intros Hnone (item & Hi & Ho).
    exact (findNodeLoop_complete _ _ Hseg position item Hi Ho Hnone).
  - intros Hno.
    destruct (findNodeLoop (textPositionMap tm) 0 position) as [loc|] eqn:E;
      [|reflexivity].
    exfalso. apply Hno.
    destruct (findNodeLoop_sound _ _ Hseg position loc E) as (item & Hi & Ho & _).
    now exists item.
  - intros loc E.
    destruct (findNodeLoop_sound _ _ Hseg position loc E) as (item & Hi & Ho & ->).
    exists item. simpl. repeat split; try assumption; try apply Ho.
    apply Nat.le_min_r.
Qed.

(** The position of the separator between two segments is owned by
    neither: in the text "ab cd" of two paragraphs, position 2 gets
    [null], positions 1 and 3 get the first and the second text node. *)
Example separator_position :
  fullNormalizedText
    (newTextMatcher
       (Elem None (lit "body") []
          [Elem None (lit "p") [] [Text (lit "ab")];
           Elem None (lit "p") [] [Text (lit "cd")]]))
  = lit "ab cd"
  /\ map (fun position =>
            option_map (fun loc => (tpath (locNode loc), offset loc))
              (findNodeAtPosition
                 (newTextMatcher
                    (Elem None (lit "body") []
                       [Elem None (lit "p") [] [Text (lit "ab")];
                        Elem None (lit "p") [] [Text (lit "cd")]]))
                 position))
       [1; 2; 3; 5]
     = [Some ([0; 0], 1); None; Some ([1; 0], 0); None].
Proof. split; reflexivity. Qed.

(** ** The tree walk *)

Section TreeFacts.

(** Induction on a node with the property available for its children. *)
Section NodeInduction.
Variable P : Dom.node -> Prop.
Hypothesis HText : forall d, P (Text d).
Hypothesis HElem :
  forall r t c kids, Forall P kids -> P (Elem r t c kids).

Lemma node_induction (n : Dom.node) : P n.
Proof.
  revert n. fix IH 1. intros [d|r t c kids].
  - apply HText.
  - apply HElem. induction kids as [|k kids IHkids]; constructor.
    + apply IH.
    + exact IHkids.
Qed.
End NodeInduction.

Lemma walkText_Elem (parent : str) r t c kids :
  walkText parent (Elem r t c kids) = walkChildren t 0 kids.
Proof. reflexivity. Qed.

Lemma walkChildren_In (tag : str) (l : list Dom.node) (i : nat) (x : TextRef) :
  In x (walkChildren tag i l) ->
  exists j k y, nth_error l j = Some k /\ In y (walkText tag k)
                /\ x = under (i + j) y.
Proof.
  revert i. induction l as [|k l IH]; intros i; simpl; [contradiction|].
  rewrite in_app_iff, in_map_iff. intros [(y & <- & Hy)|H].
  - exists 0, k, y. rewrite Nat.add_0_r. now repeat split.
  - destruct (IH (S i) H) as (j & k' & y & Hj & Hy & ->).
    exists (S j), k', y. rewrite Nat.add_succ_r. now repeat split.
Qed.

(** The walker hands out text nodes of the tree. *)
Lemma walkText_nodeAt (n : Dom.node) :
  forall parent x, In x (walkText parent n) ->
    nodeAt (tpath x) n = Some (Text (tdata x)).
Proof.
  induction n as [d|r t c kids IH] using node_induction; intros parent x.
  - simpl. intros [<-|[]]. reflexivity.
  - rewrite walkText_Elem. intros Hin.
    destruct (walkChildren_In _ _ _ _ Hin) as (j & k & y & Hj & Hy & ->).
    simpl. rewrite Hj.
    rewrite Forall_forall in IH.
    exact (IH k (nth_error_In _ _ Hj) t y Hy).
Qed.

Lemma textPositionMap_node_in (root : Dom.node) (item : TextPositionMap) :
  In item (textPositionMap (newTextMatcher root)) ->
  In (node item) (walkText [] root).
Proof.
  intros Hin. apply (in_map node) in Hin.
  unfold newTextMatcher in Hin. simpl textPositionMap in Hin.
  rewrite buildLoop_nodes in Hin.
  apply filter_In in Hin as [Hin _]. apply filter_In in Hin as [Hin _].
  exact Hin.
Qed.

Lemma textPositionMap_nodeAt (root : Dom.node) (item : TextPositionMap) :
  In item (textPositionMap (newTextMatcher root)) ->
  nodeAt (tpath (node item)) root = Some (Text (tdata (node item))).
Proof.
  intros Hin. eapply walkText_nodeAt. eapply textPositionMap_node_in, Hin.
Qed.

End TreeFacts.

(** ** Exact search *)

Section SearchFacts.

Lemma indexOfFrom_Some (pat s : str) :
  forall k m, indexOfFrom pat s k = Some m ->
    k <= m /\ m - k <= length s
    /\ startsWith pat (skipn (m - k) s) = true
    /\ (forall j, j < m - k -> startsWith pat (skipn j s) = false).
Proof.
  induction s as [|c s IH]; intros k m; simpl.
  - destruct (startsWith pat []) eqn:E; [|discriminate].
    intros H; injection H as <-. rewrite Nat.sub_diag. simpl.
    repeat split; try lia; try assumption.
  - destruct (startsWith pat (c :: s)) eqn:E.
    + intros H; injection H as <-. rewrite Nat.sub_diag. simpl.
      repeat split; try lia; try assumption.
    + intros H. destruct (IH (S k) m H) as (H1 & H2 & H3 & H4).
      replace (m - k) with (S (m - S k)) by lia. simpl.
      repeat split; try lia; try assumption.
      intros [|j] Hj; simpl; [exact E | apply H4; lia].
Qed.

Lemma indexOfFrom_None (pat s : str) :
  forall k, indexOfFrom pat s k = None ->
    forall j, startsWith pat (skipn j s) = false.
Proof.
  induction s as [|c s IH]; intros k; simpl.
  - destruct (startsWith pat []) eqn:E; [discriminate|].
    intros _ j. now rewrite skipn_nil.
  - destruct (startsWith pat (c :: s)) eqn:E; [discriminate|].
    intros H [|j]; simpl; [exact E | exact (IH (S k) H j)].
Qed.

Lemma skipn_from (s : str) (start j : nat) :
  start <= j -> skipn j s = skipn (j - start) (skipn start s).
Proof.
  intros H. rewrite skipn_skipn. f_equal. lia.
Qed.

Lemma indexOf_Some (s pat : str) (start m : nat) :
  start <= length s -> indexOf s pat start = Some m ->
  start <= m /\ m <= length s /\ occursAt pat s m = true
  /\ (forall j, start <= j < m -> occursAt pat s j = false).
Proof.
  intros Hs. unfold indexOf. rewrite Nat.min_l by exact Hs. intros H.
  destruct (indexOfFrom_Some _ _ _ _ H) as (H1 & H2 & H3 & H4).
  rewrite length_skipn in H2.
  repeat split; try lia.
  - unfold occursAt. rewrite (skipn_from s start m H1), H3.
    rewrite andb_true_r. apply Nat.leb_le. lia.
  - intros j Hj. unfold occursAt.
    rewrite (skipn_from s start j) by lia. rewrite H4 by lia.
    apply andb_false_r.
Qed.

Lemma indexOf_None (s pat : str) (start : nat) :
  start <= length s -> indexOf s pat start = None ->
  forall j, start <= j -> occursAt pat s j = false.
Proof.
  intros Hs. unfold indexOf. rewrite Nat.min_l by exact Hs. intros H j Hj.
  unfold occursAt. rewrite (skipn_from s start j Hj).
  rewrite (indexOfFrom_None _ _ _ H). apply andb_false_r.
Qed.

Lemma filter_none {A} (f : A -> bool) (l : list A) :
  (forall x, In x l -> f x = false) -> filter f l = [].
Proof.
  induction l as [|x l IH]; intros H; simpl; [reflexivity|].
  rewrite (H x (or_introl eq_refl)). apply IH. intros y Hy. apply H. now right.
Qed.

Lemma occurrencesFrom_none (pat s : str) (k : nat) :
  (forall j, k <= j -> occursAt pat s j = false) ->
  occurrencesFrom pat s k = [].
Proof.
  intros H. apply filter_none. intros x Hx. apply in_seq in Hx. apply H. lia.
Qed.

Lemma occurrencesFrom_step (pat s : str) (k m : nat) :
  k <= m -> m <= length s -> occursAt pat s m = true ->
  (forall j, k <= j < m -> occursAt pat s j = false) ->
  occurrencesFrom pat s k = m :: occurrencesFrom pat s (m + 1).
Proof.
  intros Hkm Hm Hocc Hbefore. unfold occurrencesFrom.
  replace (S (length s) - k) with ((m - k) + S (length s - m)) by lia.
  rewrite seq_app, filter_app.
  rewrite (filter_none _ (seq k (m - k)))
    by (intros x Hx; apply in_seq in Hx; apply Hbefore; lia).
  replace (k + (m - k)) with m by lia.
  replace (S (length s) - (m + 1)) with (length s - m) by lia.
  replace (m + 1) with (S m) by lia.
  simpl. now rewrite Hocc.
Qed.

Lemma startsWith_length (pat s : str) :
  startsWith pat s = true -> length pat <= length s.
Proof.
  revert s. induction pat as [|p pat IH]; intros [|c s]; simpl; try lia;
    try discriminate.
  intros H. apply andb_prop in H as [_ H]. apply IH in H. lia.
Qed.

Lemma startsWith_app (pat s : str) :
  startsWith pat s = true -> exists rest, s = pat ++ rest.
Proof.
  revert s. induction pat as [|p pat IH]; intros s; simpl.
  - intros _. now exists s.
  - destruct s as [|c s]; [discriminate|].
    intros H. apply andb_prop in H as [Hc H].
    apply Ascii.eqb_eq in Hc as ->.
    destruct (IH s H) as [rest ->]. now exists rest.
Qed.

(** Where an occurrence of a non-empty pattern starts and ends. *)
Lemma occursAt_ends (pat s : str) (k : nat) :
  occursAt pat s k = true -> pat <> [] ->
  k + length pat <= length s
  /\ nth_error s k = nth_error pat 0
  /\ nth_error s (k + length pat - 1) = nth_error pat (length pat - 1).
Proof.
  unfold occursAt. intros H Hne. apply andb_prop in H as [Hk H].
  apply Nat.leb_le in Hk.
  pose proof (startsWith_length _ _ H) as Hlen. rewrite length_skipn in Hlen.
  destruct (startsWith_app _ _ H) as [rest Hrest].
  assert (Hs : s = firstn k s ++ pat ++ rest)
    by (rewrite <- Hrest; symmetry; apply firstn_skipn).
  assert (Hk' : length (firstn k s) = k) by (rewrite length_firstn; lia).
  destruct pat as [|p pat]; [congruence|]. simpl length in *.
  split; [lia|]. split.
  - rewrite Hs at 1. rewrite nth_error_app2 by lia.
    rewrite Hk', Nat.sub_diag. reflexivity.
  - rewrite Hs at 1. rewrite nth_error_app2 by lia. rewrite Hk'.
    rewrite nth_error_app1 by (simpl; lia). f_equal. lia.
Qed.

End SearchFacts.

(** ** Building the range of a match *)

Section RangeFacts.

(** A position of the concatenated text that holds no white space lies in
    a segment: the separators are spaces. *)
Lemma nonspace_owned (g : nat) (items : list TextPositionMap) :
  segmentsFrom g items ->
  forall p c, nth_error (join [space] (map normalizedText items)) p = Some c ->
    isWhitespace c = false ->
    exists item, In item items /\ owns item (g + p).
Proof.
  induction 1 as [g|g it rest Hs He Hl Hn Hrest IH]; intros p c Hp Hc.
  - destruct p; discriminate.
  - destruct (Nat.lt_ge_cases p (length (normalizedText it))) as [Hlt|Hge].
    + exists it. split; [now left|]. unfold owns. lia.
    + destruct rest as [|it2 rest].
      * simpl in Hp. apply nth_error_None in Hge. congruence.
      * simpl map in Hp. rewrite join_cons2 in Hp.
        rewrite nth_error_app2 in Hp by exact Hge.
        destruct (p - length (normalizedText it)) as [|q] eqn:Eq.
        -- simpl in Hp. injection Hp as <-. discriminate.
        -- simpl in Hp.
           destruct (IH q c Hp Hc) as (item & Hi & Ho).
           exists item. split; [now right|]. unfold owns in *. lia.
Qed.

(** The loop of [denormalizeOffset] stops before the end of the raw text
    whenever the offset is smaller than the number of units the whole text
    counts for. *)
Lemma denormalizeLoop_lt (rest : str) :
  forall prev i normalizedPos originalPos off,
    normalizedPos <= off -> originalPos <= i ->
    off < normalizedPos
          + length (collapseWs
                      (negb ((i =? 0)
                             || negb (match prev with
                                      | Some c => isWhitespace c
                                      | None => false
                                      end))) rest) ->
    denormalizeLoop prev rest i normalizedPos originalPos off < i + length rest.
Proof.
  induction rest as [|ch rest IH]; intros prev i nPos oPos off Hn Ho Hoff.
  - simpl in Hoff. lia.
  - simpl denormalizeLoop.
    destruct (nPos <? off) eqn:Hlt; [|simpl; lia].
    apply Nat.ltb_lt in Hlt.
    simpl length. rewrite <- Nat.add_succ_comm.
    apply IH; [|lia|].
    + destruct (isWhitespace ch); [destruct (_ || _)|]; lia.
    + simpl (S i =? 0). simpl orb. rewrite negb_involutive.
      simpl collapseWs in Hoff.
      destruct (isWhitespace ch); [|simpl in Hoff; lia].
      destruct ((i =? 0) || _); simpl in Hoff; lia.
Qed.

Lemma denormalizeOffset_lt (raw : str) (rel : nat) :
  rel < length (normalizeText raw) -> denormalizeOffset raw rel < length raw.
Proof.
  intros H. pose proof (normalizeText_length raw) as Hlen.
  unfold denormalizeOffset.
  pose proof (denormalizeLoop_lt raw None 0 0 0 rel) as Hloop.
  simpl in Hloop. specialize (Hloop (Nat.le_0_l _) (Nat.le_0_l _)).
  lia.
Qed.

Lemma createRangeSetStart_ok (doc n : Dom.node) (p : path) (o : nat) :
  nodeAt p doc = Some n -> o <= nodeLength n ->
  createRangeSetStart p o doc = Ok (mkRange p o p o) doc.
Proof.
  intros Hn Ho. unfold createRangeSetStart, bind, get. rewrite Hn.
  apply Nat.ltb_ge in Ho. now rewrite Ho.
Qed.

Lemma setEnd_ok (doc n : Dom.node) (r : Range) (p : path) (o : nat) :
  nodeAt p doc = Some n -> o <= nodeLength n ->
  exists r', setEnd r p o doc = Ok r' doc
             /\ endContainer r' = p /\ Dom.endOffset r' = o
             /\ (bpCompare p o (startContainer r) (Dom.startOffset r) <> Lt ->
                 startContainer r' = startContainer r
                 /\ Dom.startOffset r' = Dom.startOffset r).
Proof.
  intros Hn Ho. unfold setEnd, bind, get. rewrite Hn.
  apply Nat.ltb_ge in Ho. rewrite Ho.
  destruct (bpCompare p o (startContainer r) (Dom.startOffset r)) eqn:E;
    eexists; (split; [reflexivity|]); simpl; repeat split; congruence.
Qed.

(** The range [createDOMRange] builds between two owned positions. *)
Lemma createDOMRange_owned (root : Dom.node) (a b : nat) :
  let tm := newTextMatcher root in
  (exists item, In item (textPositionMap tm) /\ owns item a) ->
  (exists item, In item (textPositionMap tm) /\ owns item b) ->
  exists ia ib r,
    In ia (textPositionMap tm) /\ owns ia a
    /\ In ib (textPositionMap tm) /\ owns ib b
    /\ createDOMRange tm a (S b)
       = Some (mkDOMRange r (rangeToString root r)
                 (normalizeText (rangeToString root r)))
    /\ endContainer r = tpath (node ib)
    /\ Dom.endOffset r = offset (locationIn ib b) + 1
    /\ (bpCompare (tpath (node ib)) (offset (locationIn ib b) + 1)
                  (tpath (node ia)) (offset (locationIn ia a)) <> Lt ->
        startContainer r = tpath (node ia)
        /\ Dom.startOffset r = offset (locationIn ia a)).
Proof.
  intros tm (ia & Hia & Hoa) (ib & Hib & Hob).
  pose proof (newTextMatcher_segments root) as Hseg. fold tm in Hseg.
  unfold createDOMRange, findNodeAtPosition.
  destruct (findNodeLoop (textPositionMap tm) 0 a) as [la|] eqn:Ea;
    [|exfalso; exact (findNodeLoop_complete _ _ Hseg a ia Hia Hoa Ea)].
  destruct (findNodeLoop (textPositionMap tm) 0 b) as [lb|] eqn:Eb;
    [|exfalso; exact (findNodeLoop_complete _ _ Hseg b ib Hib Hob Eb)].
  destruct (findNodeLoop_sound _ _ Hseg a la Ea) as (ja & Hja & Hoja & ->).
  destruct (findNodeLoop_sound _ _ Hseg b lb Eb) as (jb & Hjb & Hojb & ->).
  pose proof (textPositionMap_nodeAt root ja Hja) as Na.
  pose proof (textPositionMap_nodeAt root jb Hjb) as Nb.
  destruct (In_nth_error _ _ Hjb) as [k Hk].
  destruct (segmentsFrom_nth _ _ Hseg k jb Hk) as (_ & _ & Hend & Hnorm & _).
  assert (Hrel : b - startOffset jb < length (normalizeText (tdata (node jb))))
    by (rewrite <- Hnorm; unfold owns in Hojb; lia).
  pose proof (denormalizeOffset_lt _ _ Hrel) as Hlt.
  change (rootElement tm) with root.
  assert (Hsa : offset (locationIn ja a) <= nodeLength (Text (tdata (node ja))))
    by apply Nat.le_min_r.
  assert (Hsb : offset (locationIn jb b) + 1
                <= nodeLength (Text (tdata (node jb))))
    by (simpl; lia).
  destruct (setEnd_ok root _
              (mkRange (tpath (node ja)) (offset (locationIn ja a))
                       (tpath (node ja)) (offset (locationIn ja a)))
              _ _ Nb Hsb) as (r & Hr & Hec & Heo & Hstart).
  exists ja, jb, r.
  split; [exact Hja|]. split; [exact Hoja|].
  split; [exact Hjb|]. split; [exact Hojb|].
  split; [|split; [exact Hec|split; [exact Heo|exact Hstart]]].
  unfold bind at 1.
  change (locNode (locationIn ja a)) with (node ja).
  change (locNode (locationIn jb b)) with (node jb).
  rewrite (createRangeSetStart_ok root _ _ _ Na Hsa).
  unfold bind at 1. rewrite Hr. reflexivity.
Qed.

Lemma createDOMRange_defined (root : Dom.node) (a b : nat) :
  let tm := newTextMatcher root in
  (exists item, In item (textPositionMap tm) /\ owns item a) ->
  (exists item, In item (textPositionMap tm) /\ owns item b) ->
  createDOMRange tm a (S b) <> None.
Proof.
  intros tm Ha Hb.
  destruct (createDOMRange_owned root a b Ha Hb) as (ia & ib & r & H).
  destruct H as (_ & _ & _ & _ & E & _). fold tm in E. now rewrite E.
Qed.

End RangeFacts.

(** ** [findTextRanges] *)

Section FindFacts.

Variable root : Dom.node.
Variable targetText : str.

Let tm := newTextMatcher root.
Let normalizedTarget := normalizeText targetText.

Hypothesis target_nonempty : normalizedTarget <> [].

Lemma occurrence_owned (k : nat) :
  occursAt normalizedTarget (fullNormalizedText tm) k = true ->
  (exists item, In item (textPositionMap tm) /\ owns item k)
  /\ (exists item, In item (textPositionMap tm)
                   /\ owns item (k + length normalizedTarget - 1)).
Proof.
  intros Hocc.
  destruct (occursAt_ends _ _ _ Hocc target_nonempty) as (Hlen & Hfirst & Hlast).
  pose proof (newTextMatcher_segments root) as Hseg.
  split.
  - destruct normalizedTarget as [|c r] eqn:E; [congruence|].
    pose proof (trim_head _ _ _ E) as Hc.
    exact (nonspace_owned 0 _ Hseg k c Hfirst Hc).
  - destruct (exists_last target_nonempty) as (r & c & E).
    pose proof (trim_last _ _ _ E) as Hc.
    rewrite E in Hlast at 2 3. rewrite length_app in Hlast. simpl in Hlast.
    rewrite nth_error_app2 in Hlast by lia.
    replace (length r + 1 - 1 - length r) with 0 in Hlast by lia.
    exact (nonspace_owned 0 _ Hseg _ c Hlast Hc).
Qed.

Lemma searchLoop_S (fuel : nat) (m : TextMatcher) (pat : str) (start : nat) :
  searchLoop (S fuel) m pat start
  = match indexOf (fullNormalizedText m) pat start with
    | None => Some []
    | Some matchIndex =>
        match searchLoop fuel m pat (matchIndex + 1) with
        | Some ranges =>
            Some (match createDOMRange m matchIndex (matchIndex + length pat) with
                  | Some r => (matchIndex, r) :: ranges
                  | None => ranges
                  end)
        | None => None
        end
    end.
Proof. reflexivity. Qed.

Lemma searchLoop_spec (fuel : nat) :
  forall searchStart,
    searchStart <= length (fullNormalizedText tm) ->
    length (fullNormalizedText tm) + 2 <= fuel + searchStart ->
    exists l,
      searchLoop fuel tm normalizedTarget searchStart = Some l
      /\ map fst l
         = occurrencesFrom normalizedTarget (fullNormalizedText tm) searchStart
      /\ (forall k r, In (k, r) l ->
            createDOMRange tm k (k + length normalizedTarget) = Some r).
Proof.
  induction fuel as [|fuel IH]; intros searchStart Hs Hfuel; [lia|].
  rewrite searchLoop_S.
  destruct (indexOf (fullNormalizedText tm) normalizedTarget searchStart)
    as [m|] eqn:Eidx.
  - destruct (indexOf_Some _ _ _ _ Hs Eidx) as (Hsm & Hm & Hocc & Hbefore).
    destruct (occursAt_ends _ _ _ Hocc target_nonempty) as (Hlen & _).
    assert (Hpos : 0 < length normalizedTarget)
      by (destruct normalizedTarget; [congruence | simpl; lia]).
    destruct (IH (m + 1)) as (l & El & Hl & Hr); [lia | lia |].
    rewrite El.
    destruct (occurrence_owned m Hocc) as [Ha Hb].
    pose proof (createDOMRange_defined root m _ Ha Hb) as Hdef.
    replace (S (m + length normalizedTarget - 1))
      with (m + length normalizedTarget) in Hdef by lia.
    fold tm in Hdef.
    destruct (createDOMRange tm m (m + length normalizedTarget)) as [r|] eqn:Er;
      [|congruence].
    eexists. split; [reflexivity|]. split.
    + simpl. rewrite Hl. symmetry. now apply occurrencesFrom_step.
    + intros k r' [E|Hin]; [injection E as <- <-; exact Er | now apply Hr].
  - exists []. split; [reflexivity|]. split.
    + simpl. symmetry. apply occurrencesFrom_none.
      now apply (indexOf_None _ _ _ Hs Eidx).
    + intros k r [].
Qed.

End FindFacts.

Lemma seq_sorted (a n : nat) : StronglySorted lt (seq a n).
Proof.
  revert a. induction n as [|n IH]; intros a; simpl; constructor.
  - apply IH.
  - apply Forall_forall. intros x Hx. apply in_seq in Hx. lia.
Qed.

Lemma filter_sorted {A} (R : A -> A -> Prop) (f : A -> bool) (l : list A) :
  StronglySorted R l -> StronglySorted R (filter f l).
Proof.
  induction 1 as [|x l Hl IH Hx]; simpl; [constructor|].
  destruct (f x); [|exact IH].
  constructor; [exact IH|].
  rewrite Forall_forall in *. intros y Hy. apply filter_In in Hy as [Hy _].
  now apply Hx.
Qed.

Lemma findTextMatches_occurrences (root : Dom.node) (targetText : str) :
  normalizeText targetText <> [] ->
  exists matches,
    findTextMatches (newTextMatcher root) targetText = Some matches
    /\ map fst matches
       = occurrences (normalizeText targetText)
           (fullNormalizedText (newTextMatcher root))
    /\ (forall k r, In (k, r) matches ->
          createDOMRange (newTextMatcher root) k
            (k + length (normalizeText targetText)) = Some r).
Proof.
  intros Hne.
  destruct (searchLoop_spec root targetText Hne
              (2 + length (fullNormalizedText (newTextMatcher root))) 0)
    as (l & El & Hl & Hr); [lia | lia |].
  exists l. split; [|split; [exact Hl|exact Hr]].
  unfold findTextMatches.
  destruct (normalizeText targetText); [congruence|]. exact El.
Qed.

(** The fuel of [findTextMatches] never runs out: [findTextRanges] is the
    list the loop builds. *)
Lemma findTextMatches_returns (root : Dom.node) (targetText : str) :
  exists matches,
    findTextMatches (newTextMatcher root) targetText = Some matches
    /\ findTextRanges (newTextMatcher root) targetText = map snd matches.
Proof.
  destruct (list_eq_dec ascii_dec (normalizeText targetText) []) as [E|Hne].
  - exists []. unfold findTextRanges, findTextMatches. now rewrite E.
  - destruct (findTextMatches_occurrences root targetText Hne)
      as (l & Hm & _).
    exists l. split; [exact Hm|]. unfold findTextRanges. now rewrite Hm.
Qed.

(** C8.  For a query whose normalization is not empty, the loop of
    [findTextRanges] ends and reports a range for every index at which the
    normalized query occurs in the concatenated normalized text, each
    index once, overlapping occurrences included, in increasing order of
    the index; the range reported for index [k] is the one
    [createDOMRange] builds for [k, k + length). *)
Theorem findTextRanges_all_occurrences (root : Dom.node) (targetText : str) :
  let tm := newTextMatcher root in
  let normalizedTarget := normalizeText targetText in
  normalizedTarget <> [] ->
  exists matches,
    findTextMatches tm targetText = Some matches
    /\ findTextRanges tm targetText = map snd matches
    /\ map fst matches = occurrences normalizedTarget (fullNormalizedText tm)
    /\ StronglySorted lt (map fst matches)
    /\ (forall k r, In (k, r) matches ->
          createDOMRange tm k (k + length normalizedTarget) = Some r).
Proof.
  cbv zeta. intros Hne.
  destruct (findTextMatches_occurrences root targetText Hne)
    as (l & Hm & Hl & Hr).
  exists l. split; [exact Hm|]. split; [|split; [exact Hl|split; [|exact Hr]]].
  - unfold findTextRanges. now rewrite Hm.
  - rewrite Hl. apply filter_sorted, seq_sorted.
Qed.

Lemma findTextRanges_all_occurrences_witness :
  normalizeText (lit "aa") <> []
  /\ exists matches,
       findTextMatches
         (newTextMatcher (Elem None (lit "body") [] [Text (lit "aaa")]))
         (lit "aa") = Some matches
       /\ findTextRanges
            (newTextMatcher (Elem None (lit "body") [] [Text (lit "aaa")]))
            (lit "aa") = map snd matches
       /\ map fst matches
          = occurrences (normalizeText (lit "aa"))
              (fullNormalizedText
                 (newTextMatcher (Elem None (lit "body") [] [Text (lit "aaa")])))
       /\ StronglySorted lt (map fst matches)
       /\ (forall k r, In (k, r) matches ->
             createDOMRange
               (newTextMatcher (Elem None (lit "body") [] [Text (lit "aaa")]))
               k (k + length (normalizeText (lit "aa"))) = Some r).
Proof.
  split; [discriminate|].
  apply (findTextRanges_all_occurrences
           (Elem None (lit "body") [] [Text (lit "aaa")]) (lit "aa")).
  discriminate.
Defined.

(** Overlapping occurrences are each reported: "aa" occurs in "aaa" at 0
    and at 1. *)
Example overlapping_occurrences :
  option_map (map fst)
    (findTextMatches
       (newTextMatcher (Elem None (lit "body") [] [Text (lit "aaa")]))
       (lit "aa")) = Some [0; 1].
Proof. reflexivity. Qed.

(** C10.  A query whose normalization is empty gets the empty list, and
    the search loop is not entered. *)
Theorem findTextRanges_empty_target (tm : TextMatcher) (targetText : str) :
  normalizeText targetText = [] ->
  findTextMatches tm targetText = Some [] /\ findTextRanges tm targetText = [].
Proof.
  intros H. unfold findTextRanges, findTextMatches. now rewrite H.
Qed.

Lemma findTextRanges_empty_target_witness :
  findTextMatches
    (newTextMatcher (Elem None (lit "body") [] [Text (lit "a b")]))
    (lit "  ") = Some []
  /\ findTextRanges
       (newTextMatcher (Elem None (lit "body") [] [Text (lit "a b")]))
       (lit "  ") = [].
Proof.
  apply findTextRanges_empty_target. reflexivity.
Defined.

(** ** The shape of normalized text *)

Section ShapeFacts.

Lemma singleSpaced_collapse (b : bool) (s : str) :
  singleSpaced b s = true -> collapseWs b s = s.
Proof.
  revert b. induction s as [|c s IH]; intros b; simpl; [reflexivity|].
  destruct (isWhitespace c).
  - intros H. apply andb_prop in H as [H Hs]. apply andb_prop in H as [Hc Hb].
    apply Ascii.eqb_eq in Hc as ->. destruct b; [discriminate|].
    now rewrite (IH true Hs).
  - intros H. now rewrite (IH false H).
Qed.

Lemma collapse_singleSpaced (b : bool) (s : str) :
  singleSpaced b (collapseWs b s) = true.
Proof.
  revert b. induction s as [|c s IH]; intros b; simpl; [reflexivity|].
  destruct (isWhitespace c) eqn:Hc.
  - destruct b; [apply IH|]. simpl. now rewrite IH.
  - simpl. rewrite Hc. apply IH.
Qed.

Lemma singleSpaced_weaken (b : bool) (s : str) :
  singleSpaced b s = true -> singleSpaced false s = true.
Proof.
  destruct s as [|c s]; simpl; [reflexivity|].
  destruct (isWhitespace c); [|trivial].
  intros H. apply andb_prop in H as [H Hs]. apply andb_prop in H as [Hc _].
  now rewrite Hc, Hs.
Qed.

Lemma singleSpaced_suffix (x y : str) (b : bool) :
  singleSpaced b (x ++ y) = true -> singleSpaced false y = true.
Proof.
  revert b. induction x as [|c x IH]; intros b; simpl.
  - apply singleSpaced_weaken.
  - destruct (isWhitespace c).
    + intros H. apply andb_prop in H as [_ H]. exact (IH true H).
    + exact (IH false).
Qed.

Lemma singleSpaced_prefix (x y : str) (b : bool) :
  singleSpaced b (x ++ y) = true -> singleSpaced b x = true.
Proof.
  revert b. induction x as [|c x IH]; intros b; simpl; [reflexivity|].
  destruct (isWhitespace c).
  - intros H. apply andb_prop in H as [H Hs]. rewrite H. exact (IH true Hs).
  - exact (IH false).
Qed.

(** Gluing: after a piece that ends with a visible character. *)
Lemma singleSpaced_app (x : str) (c : ascii) (y : str) (b : bool) :
  isWhitespace c = false ->
  singleSpaced b (x ++ [c]) = true -> singleSpaced false y = true ->
  singleSpaced b ((x ++ [c]) ++ y) = true.
Proof.
  intros Hc. revert b. induction x as [|a x IH]; intros b; simpl.
  - rewrite Hc. trivial.
  - destruct (isWhitespace a).
    + intros H Hy. apply andb_prop in H as [H Hs]. rewrite H.
      exact (IH true Hs Hy).
    + exact (IH false).
Qed.

Lemma trimStart_suffix (s : str) : exists pre, s = pre ++ trimStart s.
Proof.
  induction s as [|c s [pre IH]]; simpl.
  - now exists [].
  - destruct (isWhitespace c).
    + exists (c :: pre). simpl. now f_equal.
    + now exists [].
Qed.

Lemma trimEnd_prefix (s : str) : exists post, s = trimEnd s ++ post.
Proof.
  unfold trimEnd. destruct (trimStart_suffix (rev s)) as [pre H].
  exists (rev pre). apply (f_equal (@rev ascii)) in H.
  now rewrite rev_involutive, rev_app_distr in H.
Qed.

Lemma trim_substring (s : str) : substringOf (trim s) s.
Proof.
  unfold trim. destruct (trimStart_suffix s) as [pre H1].
  destruct (trimEnd_prefix (trimStart s)) as [post H2].
  exists pre, post. now rewrite <- H2.
Qed.

Lemma trim_singleSpaced (s : str) :
  singleSpaced false s = true -> singleSpaced false (trim s) = true.
Proof.
  intros H. destruct (trim_substring s) as (pre & post & E).
  rewrite E in H. apply singleSpaced_suffix in H.
  now apply singleSpaced_prefix in H.
Qed.

Lemma normalizeText_singleSpaced (s : str) :
  singleSpaced false (normalizeText s) = true.
Proof. apply trim_singleSpaced, collapse_singleSpaced. Qed.

(** The concatenated text of the index has that shape too. *)
Lemma segments_singleSpaced (g : nat) (items : list TextPositionMap) :
  segmentsFrom g items ->
  singleSpaced false (join [space] (map normalizedText items)) = true.
Proof.
  induction 1 as [g|g it rest Hs He Hl Hn Hrest IH]; [reflexivity|].
  destruct rest as [|it2 rest].
  - simpl. rewrite Hn. apply normalizeText_singleSpaced.
  - simpl map. rewrite join_cons2.
    assert (Hne : normalizedText it <> [])
      by (intros E; rewrite E in Hl; simpl in Hl; lia).
    destruct (exists_last Hne) as (x & c & Ex).
    assert (Hc : isWhitespace c = false)
      by (rewrite Hn in Ex; exact (trim_last _ _ _ Ex)).
    rewrite Ex. apply singleSpaced_app; [exact Hc| |].
    + rewrite <- Ex, Hn. apply normalizeText_singleSpaced.
    + simpl map in IH.
      destruct (segmentsFrom_nth _ _ Hrest 0 it2 eq_refl)
        as (_ & Hl2 & _ & Hn2 & _).
      assert (Hc2 : exists c2 r2, normalizedText it2 = c2 :: r2
                                  /\ isWhitespace c2 = false).
      { destruct (normalizedText it2) as [|c2 r2] eqn:E2; [simpl in Hl2; lia|].
        exists c2, r2. split; [reflexivity|].
        symmetry in Hn2. exact (trim_head _ _ _ Hn2). }
      destruct Hc2 as (c2 & r2 & E2 & Hc2). rewrite E2 in *.
      change ([space] ++ ?z) with (space :: z).
      change (singleSpaced false (space :: ?z))
        with (singleSpaced true z).
      destruct rest as [|it3 rest].
      * simpl. simpl in IH. rewrite Hc2. simpl in IH. now rewrite Hc2 in IH.
      * simpl map. rewrite join_cons2. simpl map in IH. rewrite join_cons2 in IH.
        simpl. simpl in IH. rewrite Hc2. now rewrite Hc2 in IH.
Qed.

(** A substring of the concatenated text normalizes to its trimmed self,
    which occurs in the text. *)
Lemma substring_normalized_occurs (root : Dom.node) (s : str) :
  let tm := newTextMatcher root in
  substringOf s (fullNormalizedText tm) ->
  exists k, occursAt (normalizeText s) (fullNormalizedText tm) k = true.
Proof.
  intros tm (before & after & E).
  pose proof (segments_singleSpaced 0 _ (newTextMatcher_segments root)) as Hfull.
  change (join [space] (map normalizedText (textPositionMap (newTextMatcher root))))
    with (fullNormalizedText tm) in Hfull.
  rewrite E in Hfull.
  apply singleSpaced_suffix in Hfull. apply singleSpaced_prefix in Hfull.
  unfold normalizeText, replaceWsRuns. rewrite (singleSpaced_collapse _ _ Hfull).
  destruct (trim_substring s) as (pre & post & Es).
  exists (length (before ++ pre)).
  unfold occursAt. rewrite E. rewrite Es at 1 3.
  replace (before ++ (pre ++ trim s ++ post) ++ after)
    with ((before ++ pre) ++ trim s ++ (post ++ after))
    by (now rewrite <- !app_assoc).
  rewrite skipn_app, Nat.sub_diag, skipn_all. simpl app.
  apply andb_true_intro. split.
  - apply Nat.leb_le. rewrite !length_app. lia.
  - clear. induction (trim s) as [|c t IH]; simpl; [reflexivity|].
    now rewrite Ascii.eqb_refl.
Qed.

End ShapeFacts.

(** ** Round trip *)

Lemma createDOMRange_fields (tm : TextMatcher) (a b : nat) (d : DOMRange) :
  createDOMRange tm a b = Some d ->
  originalText d = rangeToString (rootElement tm) (range d)
  /\ rangeNormalizedText d = normalizeText (originalText d).
Proof.
  unfold createDOMRange.
  destruct (findNodeAtPosition tm a) as [la|]; [|discriminate].
  destruct b as [|b]; [discriminate|].
  destruct (findNodeAtPosition tm b) as [lb|]; [|discriminate].
  unfold createRangeSetStart, setEnd, bind, get, ret, throw.
  destruct (nodeAt (tpath (locNode la)) (rootElement tm)); [|discriminate].
  destruct (_ <? _); [discriminate|].
  destruct (nodeAt (tpath (locNode lb)) (rootElement tm)); [|discriminate].
  destruct (_ <? _); [discriminate|].
  destruct (bpCompare _ _ _ _); intros E; injection E as <-; now split.
Qed.

Lemma occursAt_in_occurrences (pat s : str) (k : nat) :
  occursAt pat s k = true -> In k (occurrences pat s).
Proof.
  intros H. unfold occurrences, occurrencesFrom. apply filter_In.
  split; [|exact H]. apply in_seq.
  unfold occursAt in H. apply andb_prop in H as [H _].
  apply Nat.leb_le in H. lia.
Qed.

(** *** Matches inside one already normalized text node *)

Lemma owner_unique (g : nat) (items : list TextPositionMap) :
  segmentsFrom g items ->
  forall a b p, In a items -> In b items -> owns a p -> owns b p -> a = b.
Proof.
  induction 1 as [g|g it rest Hs He Hl Hn Hrest IH]; intros a b p Ha Hb Hoa Hob;
    [contradiction|].
  assert (Hafter : forall x, In x rest -> endOffset it + 1 <= startOffset x).
  { intros x Hx. destruct (In_nth_error _ _ Hx) as [k Hk].
    now destruct (segmentsFrom_nth _ _ Hrest k x Hk). }
  unfold owns in *.
  destruct Ha as [<-|Ha], Hb as [<-|Hb]; [reflexivity| | |now apply (IH a b p)].
  - specialize (Hafter b Hb). lia.
  - specialize (Hafter a Ha). lia.
Qed.

Lemma denormalizeLoop_single (rest : str) :
  forall prev i normalizedPos off,
    singleSpaced (match prev with Some c => isWhitespace c | None => false end)
                 rest = true ->
    normalizedPos <= off ->
    denormalizeLoop prev rest i normalizedPos i off
    = i + Nat.min (off - normalizedPos) (length rest).
Proof.
  induction rest as [|ch rest IH]; intros prev i nPos off Hs Hn.
  - simpl. rewrite Nat.min_0_r. lia.
  - cbn [denormalizeLoop]. destruct (nPos <? off) eqn:Hlt.
    + apply Nat.ltb_lt in Hlt. cbn [singleSpaced] in Hs.
      assert (Hcount :
        (if isWhitespace ch
         then if (i =? 0)
                 || negb (match prev with
                          | Some c => isWhitespace c
                          | None => false
                          end)
              then S nPos else nPos
         else S nPos) = S nPos).
      { destruct (isWhitespace ch); [|reflexivity].
        apply andb_prop in Hs as [Hs _]. apply andb_prop in Hs as [_ Hb].
        apply negb_true_iff in Hb. rewrite Hb. simpl.
        now rewrite orb_true_r. }
      rewrite Hcount. rewrite IH; [|simpl|lia].
      * simpl length.
        replace (off - nPos) with (S (off - S nPos)) by lia. simpl. lia.
      * destruct (isWhitespace ch); [|exact Hs].
        apply andb_prop in Hs as [_ Hs]. exact Hs.
    + apply Nat.ltb_ge in Hlt.
      replace (off - nPos) with 0 by lia. simpl. lia.
Qed.

Lemma denormalizeOffset_normalized (raw : str) (rel : nat) :
  normalizeText raw = raw -> rel <= length raw ->
  denormalizeOffset raw rel = rel.
Proof.
  intros Hraw Hrel. unfold denormalizeOffset.
  rewrite (denormalizeLoop_single raw None 0 0 rel); [|simpl|lia].
  - rewrite Nat.sub_0_r. simpl. lia.
  - rewrite <- Hraw. apply normalizeText_singleSpaced.
Qed.

Lemma bpCompare_same (p : path) (a b : nat) :
  bpCompare p a p b = Nat.compare a b.
Proof.
  induction p as [|i p IH]; simpl; [reflexivity|].
  now rewrite Nat.compare_refl.
Qed.

Lemma rangeToString_one_text (doc : Dom.node) (p : path) (d : str) (a b : nat) :
  nodeAt p doc = Some (Text d) ->
  rangeToString doc (mkRange p a p b) = substring d a b.
Proof.
  intros H. unfold rangeToString. cbn [startContainer endContainer].
  rewrite H. unfold path_eqb.
  destruct (list_eq_dec Nat.eq_dec p p); [reflexivity|congruence].
Qed.

Lemma startsWith_firstn (pat s : str) :
  startsWith pat s = true -> firstn (length pat) s = pat.
Proof.
  intros H. destruct (startsWith_app _ _ H) as [rest ->].
  rewrite firstn_app, Nat.sub_diag, firstn_all. simpl. apply app_nil_r.
Qed.

Lemma trimStart_fixed (s : str) :
  (forall c r, s = c :: r -> isWhitespace c = false) -> trimStart s = s.
Proof.
  destruct s as [|c r]; [reflexivity|]. intros H. simpl.
  now rewrite (H c r eq_refl).
Qed.

Lemma trim_idempotent (s : str) : trim (trim s) = trim s.
Proof.
  unfold trim at 1.
  rewrite trimStart_fixed by (intros c r E; exact (trim_head _ _ _ E)).
  unfold trimEnd. rewrite trimStart_fixed; [apply rev_involutive|].
  intros c r E. apply (trim_last s (rev r) c).
  apply (f_equal (@rev ascii)) in E. rewrite rev_involutive in E.
  now rewrite E.
Qed.

Lemma normalizeText_idempotent (s : str) :
  normalizeText (normalizeText s) = normalizeText s.
Proof.
  unfold normalizeText at 1. unfold replaceWsRuns.
  rewrite (singleSpaced_collapse _ _ (normalizeText_singleSpaced s)).
  unfold normalizeText. apply trim_idempotent.
Qed.

(** A match that lies within one segment whose raw text is already its
    normalized text is materialized as exactly the normalized query. *)
Lemma match_in_normalized_node (root : Dom.node) (target : str) (k : nat)
    (d : DOMRange) (item : TextPositionMap) :
  let tm := newTextMatcher root in
  target <> [] ->
  occursAt target (fullNormalizedText tm) k = true ->
  createDOMRange tm k (k + length target) = Some d ->
  In item (textPositionMap tm) ->
  owns item k -> owns item (k + length target - 1) ->
  tdata (node item) = normalizedText item ->
  range d = mkRange (tpath (node item)) (k - startOffset item)
              (tpath (node item)) (k - startOffset item + length target)
  /\ originalText d = target.
Proof.
  cbv zeta. intros Hne Hocc Hd Hin Hk Hlast Hraw.
  pose proof (newTextMatcher_segments root) as Hseg.
  assert (Hpos : 0 < length target)
    by (destruct target; [congruence|simpl; lia]).
  destruct (createDOMRange_owned root k (k + length target - 1))
    as (ia & ib & r & Hia & Hoa & Hib & Hob & Er & Hec & Heo & Hstart);
    [now exists item | now exists item |].
  replace (S (k + length target - 1)) with (k + length target) in Er by lia.
  rewrite Er in Hd. injection Hd as <-. cbn [range originalText].
  assert (ia = item) by (eapply owner_unique; eassumption). subst ia.
  assert (ib = item) by (eapply owner_unique; eassumption). subst ib.
  destruct (In_nth_error _ _ Hin) as [idx Hidx].
  destruct (segmentsFrom_nth _ _ Hseg idx item Hidx)
    as (_ & _ & Hend & Hnorm & Hsub).
  rewrite Nat.sub_0_r in Hsub.
  assert (Hfix : normalizeText (tdata (node item)) = tdata (node item))
    by congruence.
  unfold owns in Hk, Hlast.
  assert (Hlen : length (tdata (node item)) = length (normalizedText item))
    by now rewrite Hraw.
  assert (Hso : offset (locationIn item k) = k - startOffset item).
  { unfold locationIn. cbn [offset].
    rewrite denormalizeOffset_normalized by (try assumption; lia). lia. }
  assert (Heo' : offset (locationIn item (k + length target - 1)) + 1
                 = k - startOffset item + length target).
  { unfold locationIn. cbn [offset].
    rewrite denormalizeOffset_normalized by (try assumption; lia). lia. }
  rewrite Heo' in Heo, Hstart. rewrite Hso in Hstart.
  destruct Hstart as [Hsc Hso'].
  { rewrite bpCompare_same. intros E. apply Nat.compare_lt_iff in E. lia. }
  assert (Hr : r = mkRange (tpath (node item)) (k - startOffset item)
                 (tpath (node item)) (k - startOffset item + length target))
    by (destruct r; simpl in *; congruence).
  split; [exact Hr|]. rewrite Hr.
  rewrite (rangeToString_one_text root _ _ _ _
             (textPositionMap_nodeAt root item Hin)).
  unfold substring.
  replace (k - startOffset item + length target - (k - startOffset item))
    with (length target) by lia.
  rewrite Hraw, <- Hsub.
  change (join [space] (map normalizedText (textPositionMap (newTextMatcher root))))
    with (fullNormalizedText (newTextMatcher root)).
  rewrite skipn_firstn_comm, skipn_skipn, firstn_firstn.
  replace (k - startOffset item + startOffset item) with k by lia.
  rewrite Nat.min_l by lia.
  unfold occursAt in Hocc. apply andb_prop in Hocc as [_ Hocc].
  now apply startsWith_firstn.
Qed.

(** C1, as the code has it.  A string that is a substring of the
    concatenated normalized text and whose normalization is not empty is
    located: [findTextRanges] returns at least one match, and of every
    match it returns [originalText] is the text of its range and
    [normalizedText] the normalization of that text.  A match that lies
    within one text node whose raw text is already normalized holds
    exactly the normalized query, so its text normalizes to it. *)
Theorem findTextRanges_locates_substring (root : Dom.node) (s : str) :
  let tm := newTextMatcher root in
  substringOf s (fullNormalizedText tm) ->
  normalizeText s <> [] ->
  findTextRanges tm s <> []
  /\ (forall d, In d (findTextRanges tm s) ->
        originalText d = rangeToString root (range d)
        /\ rangeNormalizedText d = normalizeText (originalText d))
  /\ exists matches,
       findTextMatches tm s = Some matches
       /\ findTextRanges tm s = map snd matches
       /\ forall k d item,
            In (k, d) matches ->
            In item (textPositionMap tm) ->
            owns item k -> owns item (k + length (normalizeText s) - 1) ->
            tdata (node item) = normalizedText item ->
            originalText d = normalizeText s
            /\ rangeNormalizedText d = normalizeText s.
Proof.
  cbv zeta. intros Hsub Hne.
  destruct (substring_normalized_occurs root s Hsub) as [k Hk].
  destruct (findTextMatches_occurrences root s Hne) as (matches & Hm & Hocc & Hmk).
  assert (Hr : findTextRanges (newTextMatcher root) s = map snd matches)
    by (unfold findTextRanges; now rewrite Hm).
  apply occursAt_in_occurrences in Hk. rewrite <- Hocc in Hk.
  assert (Hfields : forall d, In d (findTextRanges (newTextMatcher root) s) ->
            originalText d = rangeToString root (range d)
            /\ rangeNormalizedText d = normalizeText (originalText d)).
  { rewrite Hr. intros d Hd. apply in_map_iff in Hd as ([k' d'] & <- & Hin).
    exact (createDOMRange_fields _ _ _ _ (Hmk k' d' Hin)). }
  split; [|split; [exact Hfields|]].
  - rewrite Hr. destruct matches; [contradiction|discriminate].
  - exists matches. split; [exact Hm|]. split; [exact Hr|].
    intros k' d item Hin Hitem Ho1 Ho2 Hraw.
    assert (Hoc : occursAt (normalizeText s)
                    (fullNormalizedText (newTextMatcher root)) k' = true).
    { assert (Hk' : In k' (map fst matches))
        by (apply in_map_iff; now exists (k', d)).
      rewrite Hocc in Hk'. unfold occurrences, occurrencesFrom in Hk'.
      now apply filter_In in Hk'. }
    destruct (match_in_normalized_node root (normalizeText s) k' d item
                Hne Hoc (Hmk k' d Hin) Hitem Ho1 Ho2 Hraw) as [_ Ho].
    split; [exact Ho|].
    destruct (Hfields d) as [_ Hn];
      [rewrite Hr; apply in_map_iff; now exists (k', d)|].
    rewrite Hn, Ho. apply normalizeText_idempotent.
Qed.

Lemma findTextRanges_locates_substring_witness :
  substringOf (lit "b c")
    (fullNormalizedText
       (newTextMatcher (Elem None (lit "body") [] [Text (lit "a b c d")])))
  /\ normalizeText (lit "b c") <> []
  /\ findTextRanges
       (newTextMatcher (Elem None (lit "body") [] [Text (lit "a b c d")]))
       (lit "b c") <> []
  /\ (forall d,
        In d (findTextRanges
                (newTextMatcher (Elem None (lit "body") [] [Text (lit "a b c d")]))
                (lit "b c")) ->
        originalText d
        = rangeToString (Elem None (lit "body") [] [Text (lit "a b c d")])
                        (range d)
        /\ rangeNormalizedText d = normalizeText (originalText d))
  /\ exists matches,
       findTextMatches
         (newTextMatcher (Elem None (lit "body") [] [Text (lit "a b c d")]))
         (lit "b c") = Some matches
       /\ findTextRanges
            (newTextMatcher (Elem None (lit "body") [] [Text (lit "a b c d")]))
            (lit "b c") = map snd matches
       /\ forall k d item,
            In (k, d) matches ->
            In item
               (textPositionMap
                  (newTextMatcher
                     (Elem None (lit "body") [] [Text (lit "a b c d")]))) ->
            owns item k ->
            owns item (k + length (normalizeText (lit "b c")) - 1) ->
            tdata (node item) = normalizedText item ->
            originalText d = normalizeText (lit "b c")
            /\ rangeNormalizedText d = normalizeText (lit "b c").
Proof.
  assert (Hsub : substringOf (lit "b c")
            (fullNormalizedText
               (newTextMatcher (Elem None (lit "body") [] [Text (lit "a b c d")]))))
    by (exists (lit "a "), (lit " d"); reflexivity).
  assert (Hne : normalizeText (lit "b c") <> []) by discriminate.
  split; [exact Hsub|]. split; [exact Hne|].
  exact (findTextRanges_locates_substring
           (Elem None (lit "body") [] [Text (lit "a b c d")]) (lit "b c")
           Hsub Hne).
Defined.

(** The match of "b c" in the text "a b c d" holds "b c". *)
Example round_trip_normalized_node :
  map originalText
    (findTextRanges
       (newTextMatcher (Elem None (lit "body") [] [Text (lit "a b c d")]))
       (lit "b c"))
  = [lit "b c"].
Proof. reflexivity. Qed.

(** C1 as stated fails twice on the document whose only text is "a  b",
    normalized "a b".  The substring " " gets no match; the substring
    "a b" gets one match, whose range holds "a  " and normalizes to "a",
    not to "a b". *)
Lemma findTextRanges_round_trip_fails :
  fullNormalizedText
    (newTextMatcher (Elem None (lit "body") [] [Text (lit "a  b")]))
  = lit "a b"
  /\ includes (lit "a b") (lit " ") = true
  /\ findTextRanges
       (newTextMatcher (Elem None (lit "body") [] [Text (lit "a  b")]))
       (lit " ") = []
  /\ includes (lit "a b") (lit "a b") = true
  /\ map (fun d => (originalText d, rangeNormalizedText d))
       (findTextRanges
          (newTextMatcher (Elem None (lit "body") [] [Text (lit "a  b")]))
          (lit "a b"))
     = [(lit "a  ", lit "a")]
  /\ normalizeText (lit "a b") = lit "a b".
Proof. repeat split. Qed.

(** ** Fuzzy matching *)



(** The query "aaaa bbbb cccc" against a text whose six words hold the
    three query words and one more: similarity 3/4. *)
Example similarity_three_quarters :
  calculateSimilarity (lit "aaaa bbbb cccc")
    (lit "cccc bbbb aaaa dddd aaaa bbbb") = 0.75%float.
Proof. reflexivity. Qed.

(** C7 as stated fails.  With the threshold left out the window of
    similarity 0.75 is not emitted although 0.75 >= 0.7: the declared
    default is 0.8.  And at threshold 0.7 the same window is not emitted
    when it starts a second text node: its start falls on the separator
    and no range is built. *)
Lemma fuzzy_threshold_fails :
  reaches (calculateSimilarity (lit "aaaa bbbb cccc")
             (lit "cccc bbbb aaaa dddd aaaa bbbb")) 0.7%float = true
  /\ findFuzzyTextRanges
       (newTextMatcher
          (Elem None (lit "body") []
             [Text (lit "cccc bbbb aaaa dddd aaaa bbbb")]))
       (lit "aaaa bbbb cccc") None = []
  /\ windowText
       (split space
          (fullNormalizedText
             (newTextMatcher
                (Elem None (lit "body") []
                   [Elem None (lit "p") [] [Text (lit "zz")];
                    Elem None (lit "p") []
                      [Text (lit "cccc bbbb aaaa dddd aaaa bbbb")]]))))
       6 1
     = lit "cccc bbbb aaaa dddd aaaa bbbb"
  /\ findFuzzyTextRanges
       (newTextMatcher
          (Elem None (lit "body") []
             [Elem None (lit "p") [] [Text (lit "zz")];
              Elem None (lit "p") []
                [Text (lit "cccc bbbb aaaa dddd aaaa bbbb")]]))
       (lit "aaaa bbbb cccc") (Some 0.7%float) = [].
Proof. repeat split. Qed.

(** C7, as the code has it.  The declared default of the threshold is 0.8
    and [highlightManipulation] calls with 0.7; the window starting at
    word [i] is emitted exactly when its similarity to the query reaches
    the threshold in force and [createDOMRange] builds its range; 7/10
    reaches 0.7 and 0.69 does not. *)
Theorem fuzzy_threshold (tm : TextMatcher) (text : str) :
  defaultThreshold = 0.8%float
  /\ findFuzzyTextRanges tm text None
     = findFuzzyTextRanges tm text (Some 0.8%float)
  /\ (findTextRanges tm text = [] ->
      locate tm text = findFuzzyTextRanges tm text (Some 0.7%float))
  /\ (forall normalizedTarget threshold fullTextWords windowSize i d,
        In d (fuzzyStep tm normalizedTarget threshold fullTextWords windowSize i)
        <-> reaches (calculateSimilarity normalizedTarget
                       (windowText fullTextWords windowSize i)) threshold = true
            /\ createDOMRange tm
                 (length (join [space] (slice fullTextWords 0 i)))
                 (length (join [space] (slice fullTextWords 0 i))
                  + length (windowText fullTextWords windowSize i))
               = Some d)
  /\ reaches (PrimFloat.div (ofNat 7) (ofNat 10)) 0.7%float = true
  /\ reaches 0.69%float 0.7%float = false.
Proof.
  split; [reflexivity|]. split; [reflexivity|]. split.
  - unfold locate. now intros ->.
  - split; [|split; reflexivity].
    intros normalizedTarget threshold fullTextWords windowSize i d.
    unfold fuzzyStep.
    destruct (reaches _ threshold).
    + destruct (createDOMRange tm _ _) as [r|]; simpl.
      * split; [intros [<-|[]]; now split | intros [_ E]; left; congruence].
      * split; [intros [] | intros [_ E]; discriminate].
    + simpl. split; [intros [] | intros [E _]; discriminate].
Qed.

(** A window of similarity exactly 7/10 is emitted at threshold 0.7: the
    query has the words a..h, the sixteen words of the text are a..g, x
    and y. *)
Example fuzzy_boundary_accepted :
  calculateSimilarity (lit "a b c d e f g h")
    (lit "g f e d c b a x y a b c d e f g")
  = PrimFloat.div (ofNat 7) (ofNat 10)
  /\ findTextRanges
       (newTextMatcher
          (Elem None (lit "body") []
             [Text (lit "g f e d c b a x y a b c d e f g")]))
       (lit "a b c d e f g h") = []
  /\ map originalText
       (locate
          (newTextMatcher
             (Elem None (lit "body") []
                [Text (lit "g f e d c b a x y a b c d e f g")]))
          (lit "a b c d e f g h"))
     = [lit "g f e d c b a x y a b c d e f g"].
Proof. repeat split. Qed.

(** ** Editing the tree keeps its text *)

Section EditFacts.

Lemma nth_error_decompose {A} (l : list A) (i : nat) (x : A) :
  nth_error l i = Some x ->
  exists before after, l = before ++ x :: after /\ length before = i.
Proof.
  revert i. induction l as [|a l IH]; intros [|i] H; simpl in H; try discriminate.
  - injection H as ->. now exists [], l.
  - destruct (IH i H) as (b & c & -> & Hl). exists (a :: b), c. simpl.
    now rewrite Hl.
Qed.

Lemma firstn_length_app {A} (a b : list A) : firstn (length a) (a ++ b) = a.
Proof.
  rewrite firstn_app, Nat.sub_diag, firstn_all. simpl. apply app_nil_r.
Qed.

Lemma skipn_length_app {A} (a b : list A) : skipn (length a) (a ++ b) = b.
Proof.
  rewrite skipn_app, Nat.sub_diag, skipn_all. reflexivity.
Qed.

Lemma skipn_S_length_app {A} (a : list A) (x : A) (b : list A) :
  skipn (length a + 1) (a ++ x :: b) = b.
Proof.
  replace (length a + 1) with (length (a ++ [x]))
    by (rewrite length_app; simpl; lia).
  replace (a ++ x :: b) with ((a ++ [x]) ++ b) by (now rewrite <- app_assoc).
  apply skipn_length_app.
Qed.

Lemma three_parts {A} (l : list A) (a b : nat) :
  a <= b -> l = firstn a l ++ slice l a b ++ skipn b l.
Proof.
  intros H. unfold slice.
  rewrite <- (firstn_skipn a l) at 1. f_equal.
  rewrite <- (firstn_skipn (b - a) (skipn a l)) at 1. f_equal.
  rewrite skipn_skipn. f_equal. lia.
Qed.

Lemma flat_map_three (f : Dom.node -> str) (l : list Dom.node) (a b : nat) :
  a <= b ->
  flat_map f (firstn a l) ++ flat_map f (slice l a b) ++ flat_map f (skipn b l)
  = flat_map f l.
Proof.
  intros H. rewrite <- !flat_map_app. now rewrite <- three_parts.
Qed.

Lemma extractTail_text (p : path) :
  forall n o rest clone, extractTail p n o = Some (rest, clone) ->
    textContent rest ++ textContent clone = textContent n
    /\ isText rest = isText n.
Proof.
  induction p as [|i p IH]; intros [d|r t c kids] o rest clone;
    cbn [extractTail]; try discriminate.
  - destruct (o <=? length d); [|discriminate].
    intros E; injection E as <- <-. simpl. split; [apply firstn_skipn|reflexivity].
  - destruct (o <=? length kids); [|discriminate].
    intros E; injection E as <- <-. simpl.
    rewrite <- flat_map_app, firstn_skipn. now split.
  - destruct (nth_error kids i) as [k|] eqn:Hk; [|discriminate].
    destruct (extractTail p k o) as [[rest' clone']|] eqn:Ek; [|discriminate].
    intros E; injection E as <- <-.
    destruct (IH _ _ _ _ Ek) as [Ht _].
    destruct (nth_error_decompose _ _ _ Hk) as (a & b & -> & <-).
    rewrite firstn_length_app, skipn_S_length_app. simpl.
    rewrite !flat_map_app. simpl. rewrite app_nil_r, <- Ht.
    split; [now rewrite <- !app_assoc | reflexivity].
Qed.

Lemma extractHead_text (p : path) :
  forall n o clone rest, extractHead p n o = Some (clone, rest) ->
    textContent clone ++ textContent rest = textContent n
    /\ isText rest = isText n.
Proof.
  induction p as [|i p IH]; intros [d|r t c kids] o clone rest;
    cbn [extractHead]; try discriminate.
  - destruct (o <=? length d); [|discriminate].
    intros E; injection E as <- <-. simpl. split; [apply firstn_skipn|reflexivity].
  - destruct (o <=? length kids); [|discriminate].
    intros E; injection E as <- <-. simpl.
    rewrite <- flat_map_app, firstn_skipn. now split.
  - destruct (nth_error kids i) as [k|] eqn:Hk; [|discriminate].
    destruct (extractHead p k o) as [[clone' rest']|] eqn:Ek; [|discriminate].
    intros E; injection E as <- <-.
    destruct (IH _ _ _ _ Ek) as [Ht _].
    destruct (nth_error_decompose _ _ _ Hk) as (a & b & -> & <-).
    rewrite firstn_length_app, skipn_S_length_app. simpl.
    rewrite !flat_map_app. simpl. rewrite app_nil_r, <- Ht.
    split; [now rewrite <- !app_assoc | reflexivity].
Qed.

Lemma firstn_at {A} (k : nat) (a b : list A) :
  length a = k -> firstn k (a ++ b) = a.
Proof. intros <-. apply firstn_length_app. Qed.

Lemma skipn_at {A} (k : nat) (a b : list A) :
  length a = k -> skipn k (a ++ b) = b.
Proof. intros <-. apply skipn_length_app. Qed.

Lemma skipn_nth {A} (l : list A) (i : nat) (x : A) :
  nth_error l i = Some x -> skipn i l = x :: skipn (i + 1) l.
Proof.
  intros H. destruct (nth_error_decompose _ _ _ H) as (a & b & -> & <-).
  now rewrite skipn_length_app, skipn_S_length_app.
Qed.

Lemma skipn_slice {A} (l : list A) (a b : nat) :
  a <= b -> skipn a l = slice l a b ++ skipn b l.
Proof.
  intros H. unfold slice.
  rewrite <- (firstn_skipn (b - a) (skipn a l)) at 1. f_equal.
  rewrite skipn_skipn. f_equal. lia.
Qed.

Lemma nth_error_middle {A} (k : nat) (a : list A) (x : A) (b : list A) :
  length a = k -> nth_error (a ++ x :: b) k = Some x.
Proof.
  intros <-. rewrite nth_error_app2 by lia. now rewrite Nat.sub_diag.
Qed.

Lemma text_split_at (kids : list Dom.node) (i : nat) (k : Dom.node) :
  nth_error kids i = Some k ->
  flat_map textContent kids
  = flat_map textContent (firstn i kids) ++ textContent k
    ++ flat_map textContent (skipn (i + 1) kids).
Proof.
  intros H. rewrite <- (firstn_skipn i kids) at 1.
  now rewrite flat_map_app, (skipn_nth _ _ _ H).
Qed.

Lemma text_split_slice (kids : list Dom.node) (a b : nat) :
  a <= b ->
  flat_map textContent (skipn a kids)
  = flat_map textContent (slice kids a b) ++ flat_map textContent (skipn b kids).
Proof.
  intros H. now rewrite (skipn_slice kids a b H), flat_map_app.
Qed.

(** The heart of wrapping: whatever [extractRange] takes out goes back in,
    inside the new node, at the point the range collapsed to. *)
Lemma extract_insert (sp : path) :
  forall so ep eo n n' fragment p o,
    extractRange sp so ep eo n = Some (n', fragment, (p, o)) ->
    forall new, textContent new = flat_map textContent fragment ->
      exists l, insertInto p o new n' = Some l
        /\ flat_map textContent l = textContent n
        /\ (isText n = false -> exists m, l = [m] /\ isText m = false).
Proof.
  induction sp as [|i sp IH]; intros so [|j ep] eo [d|r t c kids] n' fragment p o;
    cbn [extractRange]; try discriminate.
  - (* one text node *)
    destruct ((so <=? eo) && (eo <=? length d)) eqn:Hc; [|discriminate].
    apply andb_prop in Hc as [H1 H2].
    apply Nat.leb_le in H1. apply Nat.leb_le in H2.
    intros E; injection E as <- <- <- <-. intros new Hnew.
    assert (Hl : length (firstn so d) = so) by (rewrite length_firstn; lia).
    cbn [insertInto].
    replace (so <=? _) with true
      by (symmetry; apply Nat.leb_le; rewrite length_app; lia).
    eexists. split; [reflexivity|]. split; [|discriminate].
    rewrite firstn_at, skipn_at by exact Hl.
    simpl. rewrite Hnew. simpl. rewrite !app_nil_r.
    unfold substring. symmetry. apply (three_parts d so eo H1).
  - (* children of one element *)
    destruct ((so <=? eo) && (eo <=? length kids)) eqn:Hc; [|discriminate].
    apply andb_prop in Hc as [H1 H2].
    apply Nat.leb_le in H1. apply Nat.leb_le in H2.
    intros E; injection E as <- <- <- <-. intros new Hnew.
    assert (Hl : length (firstn so kids) = so) by (rewrite length_firstn; lia).
    cbn [insertInto].
    replace (so <=? _) with true
      by (symmetry; apply Nat.leb_le; rewrite length_app; lia).
    eexists. split; [reflexivity|]. split; [|intros _; eexists; now split].
    rewrite firstn_at, skipn_at by exact Hl.
    simpl. rewrite app_nil_r, flat_map_app. simpl. rewrite Hnew.
    apply (flat_map_three textContent kids so eo H1).
  - (* the start is the common ancestor *)
    destruct (nth_error kids j) as [kj|] eqn:Hj; [|discriminate].
    destruct (so <=? j) eqn:H1; [|discriminate]. apply Nat.leb_le in H1.
    destruct (extractHead ep kj eo) as [[clone rest]|] eqn:Eh; [|discriminate].
    intros E; injection E as <- <- <- <-. intros new Hnew.
    destruct (extractHead_text _ _ _ _ _ Eh) as [Ht _].
    assert (Hjl : j < length kids) by (apply nth_error_Some; congruence).
    assert (Hl : length (firstn so kids) = so) by (rewrite length_firstn; lia).
    cbn [insertInto].
    replace (so <=? _) with true
      by (symmetry; apply Nat.leb_le; rewrite length_app; lia).
    eexists. split; [reflexivity|]. split; [|intros _; eexists; now split].
    rewrite firstn_at, skipn_at by exact Hl.
    simpl. rewrite app_nil_r, flat_map_app. simpl. rewrite Hnew.
    rewrite flat_map_app. simpl. rewrite app_nil_r.
    rewrite <- (flat_map_three textContent kids so j H1).
    rewrite (skipn_nth _ _ _ Hj). simpl. rewrite <- Ht.
    now rewrite <- !app_assoc.
  - (* the end is the common ancestor *)
    destruct (nth_error kids i) as [ki|] eqn:Hi; [|discriminate].
    destruct ((i <? eo) && (eo <=? length kids)) eqn:Hc; [|discriminate].
    apply andb_prop in Hc as [H1 H2].
    apply Nat.ltb_lt in H1. apply Nat.leb_le in H2.
    destruct (extractTail sp ki so) as [[rest clone]|] eqn:Et; [|discriminate].
    intros E; injection E as <- <- <- <-. intros new Hnew.
    destruct (extractTail_text _ _ _ _ _ Et) as [Ht _].
    assert (Hl : length (firstn i kids ++ [rest]) = i + 1)
      by (rewrite length_app, length_firstn; simpl; lia).
    cbn [insertInto].
    replace (i + 1 <=? _) with true
      by (symmetry; apply Nat.leb_le; rewrite length_app, length_firstn;
          simpl; lia).
    eexists. split; [reflexivity|]. split; [|intros _; eexists; now split].
    replace (firstn i kids ++ rest :: skipn eo kids)
      with ((firstn i kids ++ [rest]) ++ skipn eo kids)
      by (now rewrite <- app_assoc).
    rewrite firstn_at, skipn_at by exact Hl.
    simpl. rewrite app_nil_r, !flat_map_app. simpl. rewrite Hnew. simpl.
    rewrite app_nil_r.
    rewrite (text_split_at kids i ki Hi), (text_split_slice kids (i + 1) eo)
      by lia.
    rewrite <- Ht. now rewrite <- !app_assoc.
  - (* both boundary points lie below the element *)
    destruct (i =? j) eqn:Hij.
    + apply Nat.eqb_eq in Hij as <-.
      destruct (nth_error kids i) as [k|] eqn:Hi; [|discriminate].
      destruct (extractRange sp so ep eo k) as [[[k' frag] [p' o']]|] eqn:Ek;
        [|discriminate].
      intros E; injection E as <- <- <- <-. intros new Hnew.
      destruct (IH _ _ _ _ _ _ _ _ Ek new Hnew) as (l & Hl & Ht & _).
      assert (Hlen : length (firstn i kids) = i).
      { rewrite length_firstn. apply Nat.min_l.
        apply Nat.lt_le_incl, nth_error_Some. congruence. }
      cbn [insertInto].
      rewrite (nth_error_middle i _ _ _ Hlen), Hl.
      eexists. split; [reflexivity|]. split; [|intros _; eexists; now split].
      rewrite firstn_at by exact Hlen.
      replace (firstn i kids ++ k' :: skipn (i + 1) kids)
        with ((firstn i kids ++ [k']) ++ skipn (i + 1) kids)
        by (now rewrite <- app_assoc).
      rewrite skipn_at by (rewrite length_app; simpl; lia).
      simpl. rewrite app_nil_r, !flat_map_app, Ht.
      now rewrite (text_split_at kids i k Hi).
    + destruct (i <? j) eqn:Hlt; [|discriminate]. apply Nat.ltb_lt in Hlt.
      destruct (nth_error kids i) as [ki|] eqn:Hi; [|discriminate].
      destruct (nth_error kids j) as [kj|] eqn:Hj; [|discriminate].
      destruct (extractTail sp ki so) as [[resti clonei]|] eqn:Et; [|discriminate].
      destruct (extractHead ep kj eo) as [[clonej restj]|] eqn:Eh; [|discriminate].
      intros E; injection E as <- <- <- <-. intros new Hnew.
      destruct (extractTail_text _ _ _ _ _ Et) as [Hti _].
      destruct (extractHead_text _ _ _ _ _ Eh) as [Htj _].
      assert (Hjl : j < length kids) by (apply nth_error_Some; congruence).
      assert (Hl : length (firstn i kids ++ [resti]) = i + 1)
        by (rewrite length_app, length_firstn; simpl; lia).
      cbn [insertInto].
      replace (i + 1 <=? _) with true
        by (symmetry; apply Nat.leb_le; rewrite length_app, length_firstn;
            simpl; lia).
      eexists. split; [reflexivity|]. split; [|intros _; eexists; now split].
      replace (firstn i kids ++ resti :: restj :: skipn (j + 1) kids)
        with ((firstn i kids ++ [resti]) ++ restj :: skipn (j + 1) kids)
        by (now rewrite <- app_assoc).
      rewrite firstn_at, skipn_at by exact Hl.
      simpl. rewrite app_nil_r, !flat_map_app. simpl. rewrite Hnew. simpl.
      rewrite app_nil_r, flat_map_app. simpl. rewrite app_nil_r.
      rewrite (text_split_at kids i ki Hi), (text_split_slice kids (i + 1) j)
        by lia.
      rewrite (skipn_nth _ _ _ Hj). simpl.
      rewrite <- Hti, <- Htj. now rewrite <- !app_assoc.
Qed.

Lemma insertInto_empty (p : path) :
  forall o new n l, insertInto p o new n = Some l -> textContent new = [] ->
    flat_map textContent l = textContent n
    /\ (isText n = false -> exists m, l = [m] /\ isText m = false).
Proof.
  induction p as [|i p IH]; intros o new [d|r t c kids] l;
    cbn [insertInto]; try discriminate.
  - destruct (o <=? length d); [|discriminate].
    intros E; injection E as <-. intros Hnew. split; [|discriminate].
    simpl. rewrite Hnew, app_nil_r. apply firstn_skipn.
  - destruct (o <=? length kids); [|discriminate].
    intros E; injection E as <-. intros Hnew.
    split; [|intros _; eexists; now split].
    simpl. rewrite app_nil_r, flat_map_app. simpl. rewrite Hnew. simpl.
    now rewrite <- flat_map_app, firstn_skipn.
  - destruct (nth_error kids i) as [k|] eqn:Hi; [|discriminate].
    destruct (insertInto p o new k) as [l'|] eqn:El; [|discriminate].
    intros E; injection E as <-. intros Hnew.
    split; [|intros _; eexists; now split].
    destruct (IH _ _ _ _ El Hnew) as [Ht _].
    simpl. rewrite app_nil_r, !flat_map_app, Ht.
    now rewrite (text_split_at kids i k Hi).
Qed.

Lemma mergeTexts_text (l : list Dom.node) :
  flat_map textContent (mergeTexts l) = flat_map textContent l.
Proof.
  induction l as [|n l IH]; [reflexivity|].
  destruct n as [d|r t c kids]; cbn [mergeTexts].
  - destruct d as [|a d]; [exact IH|].
    cbn [flat_map]. rewrite <- IH.
    destruct (mergeTexts l) as [|[d'|r' t' c' kids'] rest]; simpl;
      try reflexivity.
    now rewrite <- app_assoc.
  - simpl. now rewrite IH.
Qed.

Lemma normalize_text (n : Dom.node) : textContent (normalize n) = textContent n.
Proof.
  induction n as [d|r t c kids IH] using node_induction; [reflexivity|].
  cbn [normalize textContent]. rewrite mergeTexts_text.
  induction IH as [|k kids Hk _ IHkids]; simpl; [reflexivity|].
  now rewrite Hk, IHkids.
Qed.

Lemma unwrapAt_text (p : path) :
  forall n n', unwrapAt p n = Some n' ->
    textContent n' = textContent n /\ isText n' = false.
Proof.
  induction p as [|i p IH]; intros n n'; [discriminate|].
  destruct n as [d|r t c kids]; [destruct p; discriminate|].
  destruct p as [|j p].
  - cbn [unwrapAt].
    destruct (nth_error kids i) as [[d|r' t' c' inner]|] eqn:Hi;
      try discriminate.
    intros E; injection E as <-. split; [|reflexivity].
    change (Elem r t c (mergeTexts (map normalize ?l)))
      with (normalize (Elem r t c l)).
    rewrite normalize_text. simpl. rewrite !flat_map_app.
    now rewrite (text_split_at kids i _ Hi).
  - change (unwrapAt (i :: j :: p) (Elem r t c kids))
      with (match nth_error kids i with
            | Some k =>
                match unwrapAt (j :: p) k with
                | Some k' => Some (Elem r t c (firstn i kids ++ k' :: skipn (i + 1) kids))
                | None => None
                end
            | None => None
            end).
    destruct (nth_error kids i) as [k|] eqn:Hi; [|discriminate].
    destruct (unwrapAt (j :: p) k) as [k'|] eqn:Ek; [|discriminate].
    intros E; injection E as <-. split; [|reflexivity].
    destruct (IH _ _ Ek) as [Ht _].
    simpl. rewrite flat_map_app. simpl. rewrite Ht.
    now rewrite (text_split_at kids i k Hi).
Qed.

End EditFacts.

(** ** Reasoning about actions *)

Section ActionFacts.

Lemma neverThrows_ret {St A} (a : A) : neverThrows (St := St) (ret a).
Proof. intros st. now exists a, st. Qed.

Lemma neverThrows_bind {St A B} (m : M St A) (k : A -> M St B) :
  neverThrows m -> (forall a, neverThrows (k a)) -> neverThrows (bind m k).
Proof.
  intros Hm Hk st. unfold bind. destruct (Hm st) as (a & st' & ->).
  apply Hk.
Qed.

Lemma neverThrows_tryCatch {St A} (body : M St A) (handler : DOMException -> M St A) :
  (forall e, neverThrows (handler e)) -> neverThrows (tryCatch body handler).
Proof.
  intros Hh st. unfold tryCatch. destruct (body st) as [a s|e s].
  - now exists a, s.
  - apply Hh.
Qed.

Lemma neverThrows_get {St} : neverThrows (St := St) get.
Proof. intros st. now exists st, st. Qed.

Lemma sameText_refl (st : State) : bodyIsElement st -> sameText st st.
Proof. intros H. now split. Qed.

Lemma sameText_trans (a b c : State) :
  sameText a b -> sameText b c -> sameText a c.
Proof. intros [H1 _] [H2 H3]. split; [congruence|exact H3]. Qed.

Lemma keepsText_ret {A} (a : A) : keepsText (ret a).
Proof. intros st H. now apply sameText_refl. Qed.

Lemma keepsText_get : keepsText get.
Proof. intros st H. now apply sameText_refl. Qed.

(** [Q] is what is known of the value [m] returns. *)
Lemma keepsText_bind_post {A B} (Q : A -> Prop) (m : M State A)
    (k : A -> M State B) :
  keepsText m ->
  (forall st a st', m st = Ok a st' -> Q a) ->
  (forall a, Q a -> keepsText (k a)) ->
  keepsText (bind m k).
Proof.
  intros Hm HQ Hk st Hst. unfold bind.
  specialize (Hm st Hst). specialize (HQ st).
  destruct (m st) as [a s|e s]; simpl in Hm; [|exact Hm].
  eapply sameText_trans; [exact Hm|].
  apply (Hk a (HQ a s eq_refl)). apply Hm.
Qed.

Lemma keepsText_bind {A B} (m : M State A) (k : A -> M State B) :
  keepsText m -> (forall a, keepsText (k a)) -> keepsText (bind m k).
Proof.
  intros Hm Hk. apply (keepsText_bind_post (fun _ => True)); auto.
Qed.

Lemma keepsText_tryCatch {A} (body : M State A)
    (handler : DOMException -> M State A) :
  keepsText body -> (forall e, keepsText (handler e)) ->
  keepsText (tryCatch body handler).
Proof.
  intros Hb Hh st Hst. unfold tryCatch. specialize (Hb st Hst).
  destruct (body st) as [a s|e s]; simpl in Hb; [exact Hb|].
  eapply sameText_trans; [exact Hb|]. apply Hh, Hb.
Qed.

(** A DOM call that keeps the text of the document it runs on. *)
Lemma keepsText_onDocument {A} (m : M Dom.node A) :
  (forall doc, isText doc = false ->
     textContent (finalState (m doc)) = textContent doc
     /\ isText (finalState (m doc)) = false) ->
  keepsText (onDocument m).
Proof.
  intros Hm st Hst. unfold onDocument. specialize (Hm (body st) Hst).
  destruct (m (body st)) as [a d|e d]; exact Hm.
Qed.

End ActionFacts.

(** ** Wrapping one range *)

Section WrapFacts.

(** Extraction followed by the insertion of an element that holds the
    fragment gives back a document with the same text; a failed extraction
    leaves the document alone. *)
Lemma wrap_steps (doc : Dom.node) (r : Range) :
  isText doc = false ->
  match extractContents r doc with
  | Ok (fragment, r') doc1 =>
      forall ref t c,
        textContent (finalState (insertNode r' (Elem ref t c fragment) doc1))
        = textContent doc
        /\ isText (finalState (insertNode r' (Elem ref t c fragment) doc1)) = false
  | Throw _ doc1 => doc1 = doc
  end.
Proof.
  intros Hdoc. unfold extractContents, bind, get.
  destruct (collapsed r).
  - unfold ret. intros ref t c. unfold insertNode, bind, get.
    destruct (insertInto _ _ _ doc) as [l|] eqn:El;
      [|unfold throw; simpl; now split].
    destruct (insertInto_empty _ _ _ _ _ El eq_refl) as [Ht Hone].
    destruct (Hone Hdoc) as (m & -> & Hm).
    unfold put. simpl. simpl in Ht. rewrite app_nil_r in Ht. now split.
  - destruct (extractRange _ _ _ _ doc) as [[[doc' fragment] [p o]]|] eqn:E;
      [|reflexivity].
    unfold put, ret. intros ref t c. unfold insertNode, bind, get.
    cbn [startContainer Dom.startOffset].
    destruct (extract_insert _ _ _ _ _ _ _ _ _ E (Elem ref t c fragment) eq_refl)
      as (l & -> & Ht & Hone).
    destruct (Hone Hdoc) as (m & -> & Hm).
    unfold put. simpl. simpl in Ht. rewrite app_nil_r in Ht. now split.
Qed.

Lemma surroundContents_keeps (doc : Dom.node) (r : Range) ref t c :
  isText doc = false ->
  textContent (finalState (surroundContents r (Elem ref t c []) doc))
  = textContent doc
  /\ isText (finalState (surroundContents r (Elem ref t c []) doc)) = false.
Proof.
  intros Hdoc.
  remember (surroundContents r (Elem ref t c []) doc) as o eqn:Eo.
  unfold surroundContents in Eo. unfold bind at 1 in Eo. unfold get in Eo.
  destruct (partiallyContainsNonText doc r); [subst o; now split|].
  unfold bind in Eo. pose proof (wrap_steps doc r Hdoc) as H.
  destruct (extractContents r doc) as [[fragment r'] doc1|e doc1]; subst o.
  - apply H.
  - subst doc1. now split.
Qed.

Lemma createSpan_run (manipulation : ManipulationBlock) (st : State) :
  createSpan manipulation st
  = Ok (nextRef st,
        Elem (Some (nextRef st)) (lit "span")
          (getHighlightClass (currentMode st) (manipulation_type manipulation)) [])
       (mkState (body st) (S (nextRef st)) (highlightedElements st)
                (currentMode st)).
Proof. reflexivity. Qed.

Lemma keepsText_createSpan (manipulation : ManipulationBlock) :
  keepsText (createSpan manipulation).
Proof. intros st H. rewrite createSpan_run. now split. Qed.

Lemma createSpan_post (manipulation : ManipulationBlock) st a st' :
  createSpan manipulation st = Ok a st' ->
  exists c, snd a = Elem (Some (fst a)) (lit "span") c [].
Proof.
  rewrite createSpan_run. intros E; injection E as <- _. now eexists.
Qed.

Lemma keepsText_alternative (range : Range) (manipulation : ManipulationBlock)
    (highlightId : HighlightId) :
  keepsText (createHighlightElementAlternative range manipulation highlightId).
Proof.
  unfold createHighlightElementAlternative.
  apply keepsText_tryCatch; [|intros e; apply keepsText_ret].
  intros st Hst. unfold sameText, bodyIsElement.
  match goal with |- context [finalState ?x] => remember x as o eqn:Eo end.
  unfold bind at 1 in Eo. unfold onDocument at 1 in Eo.
  pose proof (wrap_steps (body st) range Hst) as H.
  destruct (extractContents range (body st)) as [[contents r'] doc1|e doc1].
  - unfold bind at 1 in Eo. rewrite createSpan_run in Eo.
    unfold bind, onDocument, ret in Eo.
    cbn [body setBody withChildren nextRef currentMode highlightedElements] in Eo.
    specialize (H (Some (nextRef st)) (lit "span")
                  (getHighlightClass (currentMode st)
                     (manipulation_type manipulation))).
    destruct (insertNode r' _ doc1) as [[] d|e d]; subst o; exact H.
  - subst doc1 o. simpl. now split.
Qed.

Lemma keepsText_createHighlightElement (range : Range)
    (manipulation : ManipulationBlock) (highlightId : HighlightId) :
  keepsText (createHighlightElement range manipulation highlightId).
Proof.
  unfold createHighlightElement.
  apply keepsText_tryCatch; [|intros e; apply keepsText_alternative].
  apply keepsText_bind; [apply keepsText_get|]. intros st0.
  destruct (_ || _); [apply keepsText_ret|].
  apply (keepsText_bind_post
           (fun a => exists c, snd a = Elem (Some (fst a)) (lit "span") c []));
    [apply keepsText_createSpan | apply createSpan_post |].
  intros [r span] [c Hspan]. simpl in Hspan. subst span.
  apply keepsText_bind; [|intros; apply keepsText_ret].
  apply keepsText_onDocument. intros doc Hdoc.
  now apply surroundContents_keeps.
Qed.

Lemma neverThrows_alternative (range : Range) (manipulation : ManipulationBlock)
    (highlightId : HighlightId) :
  neverThrows (createHighlightElementAlternative range manipulation highlightId).
Proof.
  apply neverThrows_tryCatch. intros e. apply neverThrows_ret.
Qed.

Lemma neverThrows_createHighlightElement (range : Range)
    (manipulation : ManipulationBlock) (highlightId : HighlightId) :
  neverThrows (createHighlightElement range manipulation highlightId).
Proof.
  apply neverThrows_tryCatch. intros e. apply neverThrows_alternative.
Qed.

End WrapFacts.

(** ** Where a created highlight is *)

Section CreatedFacts.

Lemma insertInto_places (new : Dom.node) (p : path) :
  forall o n l,
    insertInto p o new n = Some l ->
    exists k x q, nth_error l k = Some x /\ nodeAt q x = Some new.
Proof.
  induction p as [|i p IH]; intros o n l.
  - destruct n as [d|r t c kids]; simpl.
    + destruct (o <=? length d); [|discriminate].
      intros E. injection E as <-. now exists 1, new, [].
    + destruct (o <=? length kids) eqn:Ho; [|discriminate].
      apply Nat.leb_le in Ho.
      intros E. injection E as <-. eexists 0, _, [o].
      split; [reflexivity|]. simpl.
      rewrite nth_error_app2 by (rewrite length_firstn; lia).
      rewrite length_firstn, Nat.min_l by exact Ho.
      now rewrite Nat.sub_diag.
  - destruct n as [d|r t c kids]; simpl; [discriminate|].
    destruct (nth_error kids i) as [k0|] eqn:Ek; [|discriminate].
    destruct (insertInto p o new k0) as [l'|] eqn:El; [|discriminate].
    intros E. injection E as <-.
    destruct (IH _ _ _ El) as (k & x & q & Hk & Hq).
    assert (Hi : i < length kids)
      by (apply nth_error_Some; congruence).
    eexists 0, _, ((i + k) :: q). split; [reflexivity|]. simpl.
    rewrite nth_error_app2 by (rewrite length_firstn; lia).
    rewrite length_firstn, Nat.min_l by lia.
    replace (i + k - i) with k by lia.
    rewrite nth_error_app1 by (apply nth_error_Some; congruence).
    now rewrite Hk.
Qed.

Lemma insertNode_places (r : Range) (new doc doc' : Dom.node) :
  insertNode r new doc = Ok tt doc' ->
  exists q, nodeAt q doc' = Some new.
Proof.
  unfold insertNode, bind, get, put, throw.
  destruct (insertInto (startContainer r) (Dom.startOffset r) new doc)
    as [[|x [|y l]]|] eqn:E; try discriminate.
  intros H. injection H as <-.
  destruct (insertInto_places _ _ _ _ _ E) as (k & x' & q & Hk & Hq).
  destruct k as [|k]; [|destruct k; discriminate].
  injection Hk as <-. now exists q.
Qed.

Lemma surroundContents_places (r : Range) (new doc doc' : Dom.node) :
  surroundContents r new doc = Ok tt doc' ->
  exists q fragment, nodeAt q doc' = Some (withChildren new fragment).
Proof.
  unfold surroundContents. unfold bind at 1. unfold get at 1.
  destruct (partiallyContainsNonText doc r); [discriminate|].
  unfold bind at 1.
  destruct (extractContents r doc) as [[fragment r'] d|e d]; [|discriminate].
  intros H. destruct (insertNode_places _ _ _ _ H) as [q Hq].
  now exists q, fragment.
Qed.

Lemma highlight_class_matches (mode : HighlightMode) (type : ManipulationType)
    (ref : option nat) (tag : str) (kids : list Dom.node) :
  matchesHighlightSelector (Elem ref tag (getHighlightClass mode type) kids)
  = true.
Proof. destruct mode, type; reflexivity. Qed.

(** An element that [createHighlightElement] returns is in the document:
    a [span] with the class of the manipulation type in the current mode,
    made for a range that is not collapsed and not taken for
    highlighted. *)
Lemma createHighlightElement_places (range : Range)
    (manipulation : ManipulationBlock) (highlightId : HighlightId)
    (st : State) (el : nat) (st' : State) :
  createHighlightElement range manipulation highlightId st = Ok (Some el) st' ->
  collapsed range = false
  /\ isRangeHighlighted (body st) range = false
  /\ exists q kids,
       nodeAt q (body st')
       = Some (Elem (Some el) (lit "span")
                 (getHighlightClass (currentMode st)
                    (manipulation_type manipulation)) kids).
Proof.
  unfold createHighlightElement, tryCatch.
  unfold bind at 1. unfold get at 1.
  destruct (collapsed range || isRangeHighlighted (body st) range) eqn:Hc;
    [discriminate|].
  apply orb_false_iff in Hc as [Hc1 Hc2].
  intros E. split; [exact Hc1|]. split; [exact Hc2|].
  revert E. unfold bind at 1. rewrite createSpan_run.
  unfold bind at 1. unfold onDocument at 1.
  cbn [body setBody nextRef highlightedElements currentMode].
  destruct (surroundContents range _ (body st)) as [[] d|e d] eqn:Es.
  + unfold ret. intros E. injection E as <- <-.
    destruct (surroundContents_places _ _ _ _ Es) as (q & fragment & Hq).
    now exists q, fragment.
  + unfold createHighlightElementAlternative, tryCatch.
    unfold bind at 1. unfold onDocument at 1.
    cbn [body setBody nextRef highlightedElements currentMode].
    destruct (extractContents range d) as [[contents r'] d1|e1 d1];
      [|discriminate].
    unfold bind at 1. rewrite createSpan_run.
    unfold bind at 1. unfold onDocument at 1.
    cbn [body setBody nextRef highlightedElements currentMode].
    destruct (insertNode r' _ d1) as [[] d2|e2 d2] eqn:Ei; [|discriminate].
    unfold ret. intros E. injection E as <- <-.
    destruct (insertNode_places _ _ _ _ Ei) as [q Hq].
    now exists q, contents.
Qed.

End CreatedFacts.

(** ** Invariants of the registry *)

Section RegistryFacts.

Lemma preserves_ret {A} (I : State -> Prop) (a : A) : preserves I (ret a).
Proof. intros st H. exact H. Qed.

Lemma preserves_get (I : State -> Prop) : preserves I get.
Proof. intros st H. exact H. Qed.

Lemma preserves_bind {A B} (I : State -> Prop) (m : M State A)
    (k : A -> M State B) :
  preserves I m -> (forall a, preserves I (k a)) -> preserves I (bind m k).
Proof.
  intros Hm Hk st Hst. unfold bind. specialize (Hm st Hst).
  destruct (m st) as [a s|e s]; simpl in Hm; [|exact Hm].
  now apply Hk.
Qed.

Lemma preserves_tryCatch {A} (I : State -> Prop) (body : M State A)
    (handler : DOMException -> M State A) :
  preserves I body -> (forall e, preserves I (handler e)) ->
  preserves I (tryCatch body handler).
Proof.
  intros Hb Hh st Hst. unfold tryCatch. specialize (Hb st Hst).
  destruct (body st) as [a s|e s]; simpl in Hb; [exact Hb|].
  now apply Hh.
Qed.

Lemma preserves_onDocument {A} (I : State -> Prop) (m : M Dom.node A) :
  bodyBlind I -> preserves I (onDocument m).
Proof.
  intros HI st Hst. unfold onDocument.
  destruct (m (body st)) as [a d|e d]; apply (HI st d (nextRef st) Hst).
Qed.






Lemma keepsText_register (k : HighlightId) (v : HighlightInfo) :
  keepsText (register k v).
Proof. intros st H. now split. Qed.

Lemma neverThrows_register (k : HighlightId) (v : HighlightInfo) :
  neverThrows (register k v).
Proof. intros st. now eexists _, _. Qed.

Section Loops.

Variable relocate : Dom.node -> Range -> Dom.node -> Range -> Range.

Lemma neverThrows_forEachRange (manipulation : ManipulationBlock) (index : nat)
    (ranges : list DOMRange) :
  forall rangeIndex live,
    neverThrows (forEachRange relocate manipulation index ranges rangeIndex live).
Proof.
  induction ranges as [|domRange rest IH]; intros rangeIndex live;
    cbn [forEachRange]; [apply neverThrows_ret|].
  apply neverThrows_bind; [apply neverThrows_get|]. intros before.
  apply neverThrows_bind; [apply neverThrows_createHighlightElement|].
  intros [el|]; (apply neverThrows_bind;
    [first [apply neverThrows_register | apply neverThrows_ret]|]);
    intros _; (apply neverThrows_bind; [apply neverThrows_get|]);
    intros after; apply IH.
Qed.

Lemma keepsText_forEachRange (manipulation : ManipulationBlock) (index : nat)
    (ranges : list DOMRange) :
  forall rangeIndex live,
    keepsText (forEachRange relocate manipulation index ranges rangeIndex live).
Proof.
  induction ranges as [|domRange rest IH]; intros rangeIndex live;
    cbn [forEachRange]; [apply keepsText_ret|].
  apply keepsText_bind; [apply keepsText_get|]. intros before.
  apply keepsText_bind; [apply keepsText_createHighlightElement|].
  intros [el|]; (apply keepsText_bind;
    [first [apply keepsText_register | apply keepsText_ret]|]);
    intros _; (apply keepsText_bind; [apply keepsText_get|]);
    intros after; apply IH.
Qed.


Lemma neverThrows_highlightManipulation (manipulation : ManipulationBlock)
    (index : nat) :
  neverThrows (highlightManipulation relocate manipulation index).
Proof.
  apply neverThrows_bind; [apply neverThrows_get|]. intros st.
  apply neverThrows_forEachRange.
Qed.

Lemma keepsText_highlightManipulation (manipulation : ManipulationBlock)
    (index : nat) :
  keepsText (highlightManipulation relocate manipulation index).
Proof.
  apply keepsText_bind; [apply keepsText_get|]. intros st.
  apply keepsText_forEachRange.
Qed.

Lemma neverThrows_forEachManipulation (manipulations : list ManipulationBlock) :
  forall index, neverThrows (forEachManipulation relocate manipulations index).
Proof.
  induction manipulations as [|m rest IH]; intros index;
    cbn [forEachManipulation]; [apply neverThrows_ret|].
  apply neverThrows_bind; [apply neverThrows_highlightManipulation|].
  intros _. apply IH.
Qed.

Lemma keepsText_forEachManipulation (manipulations : list ManipulationBlock) :
  forall index, keepsText (forEachManipulation relocate manipulations index).
Proof.
  induction manipulations as [|m rest IH]; intros index;
    cbn [forEachManipulation]; [apply keepsText_ret|].
  apply keepsText_bind; [apply keepsText_highlightManipulation|].
  intros _. apply IH.
Qed.


End Loops.

End RegistryFacts.

(** ** Clearing *)

Section ClearFacts.

Lemma removeHighlight_keeps (highlight : HighlightInfo) (doc : Dom.node) :
  isText doc = false ->
  textContent (finalState (removeHighlight highlight doc)) = textContent doc
  /\ isText (finalState (removeHighlight highlight doc)) = false.
Proof.
  intros Hdoc. unfold removeHighlight, bind, get.
  destruct (findRef (element highlight) doc) as [p|]; [|now split].
  destruct (unwrapAt p doc) as [doc'|] eqn:E; [|now split].
  exact (unwrapAt_text _ _ _ E).
Qed.

Lemma neverThrows_forEachHighlight (l : list (HighlightId * HighlightInfo)) :
  neverThrows (forEachHighlight l).
Proof.
  induction l as [|[k highlight] l IH]; cbn [forEachHighlight];
    [apply neverThrows_ret|].
  apply neverThrows_bind; [|intros _; exact IH].
  apply neverThrows_tryCatch. intros e. apply neverThrows_ret.
Qed.

Lemma keepsText_forEachHighlight (l : list (HighlightId * HighlightInfo)) :
  keepsText (forEachHighlight l).
Proof.
  induction l as [|[k highlight] l IH]; cbn [forEachHighlight];
    [apply keepsText_ret|].
  apply keepsText_bind; [|intros _; exact IH].
  apply keepsText_tryCatch; [|intros e; apply keepsText_ret].
  apply keepsText_onDocument. intros doc. apply removeHighlight_keeps.
Qed.

(** [clearHighlights] returns, with the registry empty and the text of the
    document as it was. *)
Lemma clearHighlights_spec (st : State) :
  exists st', clearHighlights st = Ok tt st'
    /\ highlightedElements st' = []
    /\ currentMode st' = currentMode (finalState (forEachHighlight (highlightedElements st) st))
    /\ (bodyIsElement st -> sameText st st').
Proof.
  unfold clearHighlights. unfold bind at 1. unfold get at 1.
  pose proof (keepsText_forEachHighlight (highlightedElements st) st) as Hk.
  destruct (neverThrows_forEachHighlight (highlightedElements st) st)
    as ([] & st1 & E).
  unfold bind at 1. rewrite E in *. unfold bind, get, put.
  eexists. split; [reflexivity|]. simpl. repeat split; try reflexivity.
  - apply Hk, H.
  - apply Hk, H.
Qed.

(** With nothing registered [clearHighlights] changes nothing. *)
Lemma clearHighlights_nothing (st : State) :
  highlightedElements st = [] -> clearHighlights st = Ok tt st.
Proof.
  intros H. unfold clearHighlights, bind, get, put. rewrite H. simpl.
  destruct st as [b n h m]. simpl in H. now subst h.
Qed.

End ClearFacts.

(** ** [highlightManipulations] *)

Section ApplyFacts.

Variable relocate : Dom.node -> Range -> Dom.node -> Range -> Range.

Lemma highlightManipulations_run (manipulations : list ManipulationBlock)
    (mode : HighlightMode) (st : State) :
  exists cleared st',
    clearHighlights (mkState (body st) (nextRef st) (highlightedElements st) mode)
    = Ok tt cleared
    /\ highlightedElements cleared = []
    /\ (bodyIsElement st -> sameText st cleared)
    /\ forEachManipulation relocate manipulations 0 cleared = Ok tt st'
    /\ highlightManipulations relocate manipulations mode st = Ok tt st'.
Proof.
  destruct (clearHighlights_spec
              (mkState (body st) (nextRef st) (highlightedElements st) mode))
    as (cleared & Ec & Hreg & _ & Htext).
  destruct (neverThrows_forEachManipulation relocate manipulations 0 cleared)
    as ([] & st' & Ef).
  exists cleared, st'. repeat split; try assumption.
  - now apply Htext.
  - now apply Htext.
  - unfold highlightManipulations, bind, get, put. now rewrite Ec, Ef.
Qed.

End ApplyFacts.

(** ** The occurrences that are tried and what is registered for them *)

Section AttemptFacts.






Variable relocate : Dom.node -> Range -> Dom.node -> Range -> Range.


Section OneManipulation.

Variable manipulation : ManipulationBlock.
Variable index : nat.





End OneManipulation.




End AttemptFacts.


(** The two occurrences of the overlapping spans: both are located and
    tried, the second in the document the first has left, and both are
    registered. *)
Example urgent_attempts :
  attempted noRelocation [wholeSentence; innerWords] full_color urgentState
    0 wholeSentence (0, mkRange [0; 0] 0 [0; 2] 7, urgentState)
  /\ attempted noRelocation [wholeSentence; innerWords] full_color urgentState
       1 innerWords
       (0, mkRange [0; 1; 1; 0] 0 [0; 1; 2] 3,
        finalState (highlightManipulations noRelocation [wholeSentence]
                      full_color urgentState))
  /\ map (fun k =>
            option_map element
              (registryGet k
                 (finalState
                    (highlightManipulations noRelocation
                       [wholeSentence; innerWords] full_color urgentState))))
       [(0, 0); (0, 1); (1, 0)]
     = [Some 0; None; Some 2].
Proof.
  split; [|split].
  - exists [], [innerWords]. split; [reflexivity|]. split; [reflexivity|].
    vm_compute. apply Attempt_first.
  - exists [wholeSentence], []. split; [reflexivity|]. split; [reflexivity|].
    vm_compute. apply Attempt_first.
  - reflexivity.
Qed.

(** C3.  From any state whose document is an element: applying highlights
    and then clearing them leaves the text of the document as it was
    before, and clearing once more changes neither the document nor the
    state of the highlighter. *)
Theorem clearHighlights_restores_text
    (relocate : Dom.node -> Range -> Dom.node -> Range -> Range)
    (manipulations : list ManipulationBlock) (mode : HighlightMode) (st : State) :
  bodyIsElement st ->
  exists applied cleared,
    highlightManipulations relocate manipulations mode st = Ok tt applied
    /\ clearHighlights applied = Ok tt cleared
    /\ textContent (body applied) = textContent (body st)
    /\ textContent (body cleared) = textContent (body st)
    /\ highlightedElements cleared = []
    /\ clearHighlights cleared = Ok tt cleared.
Proof.
  intros Hst.
  destruct (highlightManipulations_run relocate manipulations mode st)
    as (c0 & applied & _ & _ & Hc0 & Ef & Eh).
  specialize (Hc0 Hst).
  pose proof (keepsText_forEachManipulation relocate manipulations 0 c0
                (proj2 Hc0)) as Happ.
  rewrite Ef in Happ. simpl in Happ.
  pose proof (sameText_trans _ _ _ Hc0 Happ) as Hsa.
  destruct (clearHighlights_spec applied) as (cleared & Ec & Hreg & _ & Htext).
  specialize (Htext (proj2 Hsa)).
  pose proof (sameText_trans _ _ _ Hsa Htext) as Hsc.
  exists applied, cleared. repeat split; try assumption.
  - apply Hsa.
  - apply Hsc.
  - now apply clearHighlights_nothing.
Qed.

Lemma clearHighlights_restores_text_witness :
  bodyIsElement urgentState
  /\ exists applied cleared,
       highlightManipulations noRelocation [wholeSentence; innerWords]
         full_color urgentState = Ok tt applied
       /\ clearHighlights applied = Ok tt cleared
       /\ textContent (body applied) = textContent (body urgentState)
       /\ textContent (body cleared) = textContent (body urgentState)
       /\ highlightedElements cleared = []
       /\ clearHighlights cleared = Ok tt cleared.
Proof.
  split; [reflexivity|].
  apply (clearHighlights_restores_text noRelocation
           [wholeSentence; innerWords] full_color urgentState).
  reflexivity.
Defined.

(** The scenario of the specification: one highlight wraps the quotation. *)
Example sky_scenario :
  body (finalState (highlightManipulations noRelocation [skySpan] full_color
                      (mkState skyBody 0 [] full_color)))
  = Elem None (lit "body") []
      [Text (lit "The sky is falling and ");
       Elem (Some 0) (lit "span") (getHighlightClass full_color fear_mongering)
         [Text (lit "you should be very afraid")];
       Text (lit " of what comes next.")].
Proof. reflexivity. Qed.

(** ** Overlapping spans *)

(** C2 on the code.  For two spans of which the second lies inside the
    first, both are materialized and registered, and the highlight of the
    second sits inside the highlight of the first: the range of the second
    has the first highlight itself as common ancestor, where
    [isRangeHighlighted] looks at descendants only. *)
Lemma nested_highlights_after_apply :
  body (finalState (highlightManipulations noRelocation
                      [wholeSentence; innerWords] full_color urgentState))
  = urgentBodyHighlighted
  /\ map (fun e => (fst e, element (snd e)))
       (highlightedElements
          (finalState (highlightManipulations noRelocation
                         [wholeSentence; innerWords] full_color urgentState)))
     = [((0, 0), 0); ((1, 0), 2)]
  /\ nestedHighlight [0; 2] urgentBodyHighlighted = true
  /\ isRangeHighlighted
       (body (finalState (highlightManipulations noRelocation
                            [wholeSentence] full_color urgentState)))
       (mkRange [0; 1; 1; 0] 0 [0; 1; 2] 3)
     = false.
Proof. repeat split. Qed.

(* ================================================================== *)
(** * More of the code

    The rest of [TextMatcher] and [TextHighlighter], the helpers of
    [utils.ts] and the tables of [constants.ts]. *)

(** ** [getContextAroundPosition] *)

Lemma substring_substringOf (s : str) (a b : nat) : substringOf (substring s a b) s.
Proof.
  unfold substringOf, substring.
  exists (firstn a s), (skipn (b - a) (skipn a s)).
  now rewrite firstn_skipn, firstn_skipn.
Qed.

(** X1.  The context of a position is a substring of the concatenated
    normalized text of at most [2 * contextLength] code units (100 on each
    side by default); for a position inside the text it is what lies
    between [position - contextLength] and [position + contextLength], cut
    at the ends of the text; for a position [contextLength] or more beyond
    the end it is empty. *)
Theorem getContextAroundPosition_window (tm : TextMatcher) (position : nat)
    (contextLength : option nat) :
  let c := match contextLength with Some c => c | None => 100 end in
  let context := getContextAroundPosition tm position contextLength in
  substringOf context (fullNormalizedText tm)
  /\ length context <= 2 * c
  /\ (position <= length (fullNormalizedText tm) ->
      context
      = skipn (position - c) (firstn (position + c) (fullNormalizedText tm))
      /\ length context
         = Nat.min position c
           + Nat.min (length (fullNormalizedText tm) - position) c)
  /\ (length (fullNormalizedText tm) + c <= position -> context = []).
Proof.
  cbv zeta. unfold getContextAroundPosition.
  set (c := match contextLength with Some c => c | None => 100 end).
  set (full := fullNormalizedText tm).
  rewrite Nat.max_0_l.
  split; [apply substring_substringOf|].
  unfold substring.
  split; [rewrite length_firstn, length_skipn; lia|].
  split.
  - intros Hp. split.
    + rewrite skipn_firstn_comm.
      destruct (Nat.le_ge_cases (position + c) (length full)) as [H|H].
      * now rewrite Nat.min_r by exact H.
      * rewrite Nat.min_l by exact H.
        rewrite !firstn_all2; try reflexivity; rewrite length_skipn; lia.
    + rewrite length_firstn, length_skipn. lia.
  - intros Hp. rewrite skipn_all2 by lia. now rewrite firstn_nil.
Qed.


(** ** [denormalizeOffset] *)

Lemma denormalizeLoop_ge (rest : str) :
  forall prev i normalizedPos off,
    i <= denormalizeLoop prev rest i normalizedPos i off.
Proof.
  induction rest as [|ch rest IH]; intros prev i nPos off; simpl; [lia|].
  destruct (nPos <? off); [|lia].
  etransitivity; [|apply IH]. lia.
Qed.

Lemma denormalizeLoop_le (rest : str) :
  forall prev i normalizedPos off,
    denormalizeLoop prev rest i normalizedPos i off <= i + length rest.
Proof.
  induction rest as [|ch rest IH]; intros prev i nPos off; simpl; [lia|].
  destruct (nPos <? off); [|lia].
  etransitivity; [apply IH|]. lia.
Qed.

(** What the loop has counted when it stops: the units of the collapsed
    prefix it has walked.  [inRun] is the loop's test on the previous code
    unit. *)
Lemma denormalizeLoop_counts (rest : str) :
  forall prev i normalizedPos off,
    normalizedPos <= off ->
    let inRun := negb ((i =? 0)
                       || negb (match prev with
                                | Some c => isWhitespace c
                                | None => false
                                end)) in
    let stop := denormalizeLoop prev rest i normalizedPos i off in
    normalizedPos + length (collapseWs inRun (firstn (stop - i) rest))
    = Nat.min off (normalizedPos + length (collapseWs inRun rest))
    /\ forall j, i + j < stop ->
         normalizedPos + length (collapseWs inRun (firstn j rest)) < off.
Proof.
  induction rest as [|ch rest IH]; intros prev i nPos off Hn; cbv zeta.
  - simpl. rewrite Nat.sub_diag. simpl. split; [lia|]. intros j Hj. lia.
  - cbn [denormalizeLoop].
    destruct (nPos <? off) eqn:Hlt.
    + apply Nat.ltb_lt in Hlt.
      set (nPos' := if isWhitespace ch
                    then if (i =? 0) || negb match prev with
                                             | Some c => isWhitespace c
                                             | None => false
                                             end
                         then S nPos else nPos
                    else S nPos).
      assert (Hn' : nPos' <= off)
        by (unfold nPos'; destruct (isWhitespace ch); [destruct (_ || _)|]; lia).
      specialize (IH (Some ch) (S i) nPos' off Hn'). cbv zeta in IH.
      simpl (S i =? 0) in IH. simpl orb in IH. rewrite negb_involutive in IH.
      destruct IH as [IH1 IH2].
      pose proof (denormalizeLoop_ge rest (Some ch) (S i) nPos' off) as Hge.
      set (stop := denormalizeLoop (Some ch) rest (S i) nPos' (S i) off) in *.
      replace (stop - i) with (S (stop - S i)) by lia.
      split.
      * cbn [firstn collapseWs]. unfold nPos' in IH1.
        destruct (isWhitespace ch); [destruct ((i =? 0) || _)|];
          cbn [negb length]; lia.
      * intros [|j] Hj; [simpl; lia|].
        specialize (IH2 j ltac:(lia)).
        cbn [firstn collapseWs]. unfold nPos' in IH2.
        destruct (isWhitespace ch); [destruct ((i =? 0) || _)|];
          cbn [negb length]; lia.
    + apply Nat.ltb_ge in Hlt. rewrite Nat.sub_diag. simpl firstn.
      split; [simpl; lia|]. intros j Hj. lia.
Qed.

Lemma denormalizeLoop_monotone (rest : str) :
  forall prev i normalizedPos a b, a <= b ->
    denormalizeLoop prev rest i normalizedPos i a
    <= denormalizeLoop prev rest i normalizedPos i b.
Proof.
  induction rest as [|ch rest IH]; intros prev i nPos a b Hab; simpl; [lia|].
  destruct (nPos <? a) eqn:Ha.
  - apply Nat.ltb_lt in Ha.
    assert (Hb : (nPos <? b) = true) by (apply Nat.ltb_lt; lia).
    rewrite Hb. now apply IH.
  - destruct (nPos <? b); [|lia].
    etransitivity; [|apply denormalizeLoop_ge]. lia.
Qed.

Lemma denormalizeOffset_le (raw : str) (a b : nat) :
  a <= b -> denormalizeOffset raw a <= denormalizeOffset raw b.
Proof.
  intros Hab. unfold denormalizeOffset.
  apply Nat.min_le_compat_r. now apply denormalizeLoop_monotone.
Qed.

(** A text that makes fewer units than asked for is walked to its
    end. *)
Lemma denormalizeLoop_exhausted (rest : str) :
  forall prev i normalizedPos off,
    let inRun := negb ((i =? 0)
                       || negb (match prev with
                                | Some c => isWhitespace c
                                | None => false
                                end)) in
    normalizedPos + length (collapseWs inRun rest) < off ->
    denormalizeLoop prev rest i normalizedPos i off = i + length rest.
Proof.
  induction rest as [|ch rest IH]; intros prev i nPos off; cbv zeta;
    [simpl; lia|].
  intros Hfew. cbn [denormalizeLoop].
  assert (Hlt : (nPos <? off) = true).
  { apply Nat.ltb_lt. cbn [collapseWs] in Hfew.
    destruct (isWhitespace ch); [destruct (negb _)|]; cbn [length] in Hfew; lia. }
  rewrite Hlt. cbn [length]. rewrite <- Nat.add_succ_comm.
  apply IH. cbv zeta. simpl (S i =? 0). simpl orb. rewrite negb_involutive.
  cbn [collapseWs] in Hfew.
  destruct (isWhitespace ch); [destruct ((i =? 0) || _)|];
    cbn [negb length] in Hfew; lia.
Qed.

(** A longer prefix makes no fewer units. *)
Lemma collapseWs_firstn_mono (inRun : bool) (s : str) (j k : nat) :
  j <= k ->
  length (collapseWs inRun (firstn j s)) <= length (collapseWs inRun (firstn k s)).
Proof.
  revert inRun j k.
  induction s as [|c s IH]; intros inRun j k Hjk;
    [now rewrite !firstn_nil|].
  destruct j as [|j]; [simpl; lia|].
  destruct k as [|k]; [lia|].
  cbn [firstn collapseWs].
  destruct (isWhitespace c); [destruct inRun|]; cbn [length];
    try apply le_n_S; apply IH; lia.
Qed.

(** X2.  [denormalizeOffset(originalText, normalizedOffset)] is the length
    of the shortest prefix of the raw text that [replace(/\s+/g, ' ')]
    turns into [normalizedOffset] code units, and the whole length when
    the raw text has fewer: it never exceeds the length of the text, the
    prefix it names yields [normalizedOffset] units or is the whole text,
    a shorter prefix yields fewer than [normalizedOffset] units, and a
    smaller offset never maps to a later raw position. *)
Theorem denormalizeOffset_shortest_prefix (originalText : str)
    (normalizedOffset : nat) :
  let stop := denormalizeOffset originalText normalizedOffset in
  stop <= length originalText
  /\ length (replaceWsRuns (firstn stop originalText))
     = Nat.min normalizedOffset (length (replaceWsRuns originalText))
  /\ (forall j, j < stop ->
        length (replaceWsRuns (firstn j originalText)) < normalizedOffset)
  /\ (length (replaceWsRuns originalText) < normalizedOffset ->
        stop = length originalText)
  /\ (normalizedOffset <= length (replaceWsRuns originalText) ->
        length (replaceWsRuns (firstn stop originalText)) = normalizedOffset
        /\ forall j, j <= length originalText ->
             (j < stop
              <-> length (replaceWsRuns (firstn j originalText))
                  < normalizedOffset))
  /\ (forall smaller, smaller <= normalizedOffset ->
        denormalizeOffset originalText smaller <= stop).
Proof.
  cbv zeta. unfold denormalizeOffset, replaceWsRuns.
  pose proof (denormalizeLoop_le originalText None 0 0 normalizedOffset) as Hle.
  pose proof (denormalizeLoop_counts originalText None 0 0 normalizedOffset
                (Nat.le_0_l _)) as [H1 H2].
  cbv zeta in H1, H2. simpl in H1, H2. simpl in Hle.
  rewrite Nat.min_l by exact Hle. rewrite Nat.sub_0_r in H1.
  split; [exact Hle|]. split; [exact H1|]. split; [exact H2|].
  split; [|split].
  - intros Hfew.
    exact (denormalizeLoop_exhausted originalText None 0 0 normalizedOffset Hfew).
  - intros Henough. split; [rewrite H1; lia|].
    intros j Hj. split; [apply H2|].
    intros Hshort.
    destruct (Nat.lt_ge_cases j
                (denormalizeLoop None originalText 0 0 0 normalizedOffset))
      as [Hlt|Hge]; [exact Hlt|exfalso].
    pose proof (collapseWs_firstn_mono false originalText _ _ Hge) as Hmono.
    rewrite H1 in Hmono. lia.
  - intros smaller Hs.
    pose proof (denormalizeLoop_le originalText None 0 0 smaller) as Hle'.
    simpl in Hle'. rewrite Nat.min_l by exact Hle'.
    now apply denormalizeLoop_monotone.
Qed.


(** ** The two ends of a located range *)

Section OrderFacts.

Lemma sorted_app {A} (R : A -> A -> Prop) (a b : list A) :
  StronglySorted R a -> StronglySorted R b ->
  (forall x y, In x a -> In y b -> R x y) ->
  StronglySorted R (a ++ b).
Proof.
  intros Ha Hb Hab. induction Ha as [|x a Ha IH Hx]; simpl; [exact Hb|].
  constructor.
  - apply IH. intros u v Hu Hv. apply Hab; [now right|exact Hv].
  - rewrite Forall_app. split; [exact Hx|].
    rewrite Forall_forall. intros y Hy. apply Hab; [now left|exact Hy].
Qed.

Lemma sorted_map {A B} (R : B -> B -> Prop) (f : A -> B) (l : list A) :
  StronglySorted (fun x y => R (f x) (f y)) l <-> StronglySorted R (map f l).
Proof.
  induction l as [|x l IH]; simpl.
  - split; constructor.
  - split; intros H; inversion H as [|? ? Hs Hx]; subst; constructor;
      try (now apply IH).
    + rewrite Forall_map. exact Hx.
    + rewrite Forall_map in Hx. exact Hx.
Qed.

Lemma sorted_conj {A} (R S : A -> A -> Prop) (l : list A) :
  StronglySorted R l -> StronglySorted S l ->
  StronglySorted (fun x y => R x y /\ S x y) l.
Proof.
  induction 1 as [|x l Hl IH Hx]; intros HS; [constructor|].
  inversion HS as [|? ? Hs' Hx']; subst. constructor; [now apply IH|].
  rewrite Forall_forall in *. intros y Hy. split; auto.
Qed.

Lemma sorted_cases {A} (R : A -> A -> Prop) (l : list A) :
  StronglySorted R l ->
  forall x y, In x l -> In y l -> x = y \/ R x y \/ R y x.
Proof.
  induction 1 as [|z l Hl IH Hz]; intros x y Hx Hy; [contradiction|].
  rewrite Forall_forall in Hz.
  destruct Hx as [->|Hx], Hy as [->|Hy]; auto.
Qed.

Lemma precedes_under (i : nat) (p q : path) :
  precedes p q -> precedes (i :: p) (i :: q).
Proof.
  intros H x y. simpl. rewrite Nat.compare_refl. apply H.
Qed.

Lemma precedes_children (i j : nat) (p q : path) :
  i < j -> precedes (i :: p) (j :: q).
Proof.
  intros H x y. simpl. apply Nat.compare_gt_iff in H. now rewrite H.
Qed.

Lemma precedes_neq (p q : path) : precedes p q -> p <> q.
Proof.
  intros H ->. specialize (H 0 0). rewrite bpCompare_same in H. discriminate.
Qed.

(** The tree walk hands out the text nodes in tree order. *)
Lemma walkText_sorted (n : Dom.node) :
  forall parent,
    StronglySorted (fun a b => precedes (tpath a) (tpath b))
                   (walkText parent n).
Proof.
  induction n as [d|r t c kids IH] using node_induction; intros parent.
  - simpl. repeat constructor.
  - rewrite walkText_Elem. generalize 0 as i.
    induction kids as [|k kids IHkids]; intros i; simpl; [constructor|].
    inversion IH as [|? ? Hk Hkids]; subst.
    apply sorted_app.
    + apply (sorted_map (fun a b => precedes (tpath a) (tpath b)) (under i)).
      specialize (Hk t).
      induction Hk as [|x l Hl IHl Hx]; constructor; [exact IHl|].
      rewrite Forall_forall in *. intros y Hy. simpl.
      apply precedes_under. now apply Hx.
    + apply IHkids. exact Hkids.
    + intros x y Hx Hy. apply in_map_iff in Hx as (x' & <- & _).
      destruct (walkChildren_In _ _ _ _ Hy) as (j & k' & y' & _ & _ & ->).
      simpl. apply precedes_children. lia.
Qed.

Lemma segments_sorted (g : nat) (items : list TextPositionMap) :
  segmentsFrom g items ->
  StronglySorted (fun a b => endOffset a < startOffset b) items.
Proof.
  induction 1 as [g|g it rest Hs He Hl Hn Hrest IH]; constructor; [exact IH|].
  rewrite Forall_forall. intros y Hy.
  destruct (In_nth_error _ _ Hy) as [k Hk].
  pose proof (segmentsFrom_nth _ _ Hrest k y Hk) as (H & _). lia.
Qed.

Lemma textPositionMap_nodes (root : Dom.node) :
  map node (textPositionMap (newTextMatcher root))
  = filter acceptNode (walkText [] root).
Proof.
  unfold newTextMatcher. simpl textPositionMap.
  rewrite buildLoop_nodes. apply filter_filter_implied.
  apply acceptNode_normalized.
Qed.

Lemma textPositionMap_sorted (root : Dom.node) :
  StronglySorted segmentBefore (textPositionMap (newTextMatcher root)).
Proof.
  apply sorted_conj.
  - exact (segments_sorted _ _ (newTextMatcher_segments root)).
  - apply (sorted_map (fun a b => precedes (tpath a) (tpath b)) node).
    rewrite textPositionMap_nodes. apply filter_sorted, walkText_sorted.
Qed.

(** The end that [createDOMRange] sets is after the start it has set:
    [setEnd] never moves the start. *)
Lemma locations_ordered (root : Dom.node) (ia ib : TextPositionMap) (a b : nat) :
  In ia (textPositionMap (newTextMatcher root)) ->
  In ib (textPositionMap (newTextMatcher root)) ->
  owns ia a -> owns ib b -> a <= b ->
  bpCompare (tpath (node ib)) (offset (locationIn ib b) + 1)
            (tpath (node ia)) (offset (locationIn ia a)) = Gt.
Proof.
  intros Hia Hib Hoa Hob Hab.
  destruct (sorted_cases _ _ (textPositionMap_sorted root) ia ib Hia Hib)
    as [->|[[_ H]|[H _]]].
  - rewrite bpCompare_same. apply Nat.compare_gt_iff.
    unfold locationIn. cbn [offset].
    pose proof (denormalizeOffset_le (tdata (node ib))
                  (a - startOffset ib) (b - startOffset ib)) as Hm.
    unfold owns in *. lia.
  - apply H.
  - unfold owns in *. lia.
Qed.

End OrderFacts.


Lemma bpCompare_antisym (p : path) :
  forall q x y, bpCompare p x q y = CompOpp (bpCompare q y p x).
Proof.
  induction p as [|i p IH]; intros [|j q] x y; simpl.
  - apply Nat.compare_antisym.
  - now destruct (j <? x).
  - now destruct (i <? y).
  - rewrite (Nat.compare_antisym j i).
    destruct (j ?= i); simpl; [apply IH|reflexivity|reflexivity].
Qed.

Lemma findNodeAtPosition_owner (root : Dom.node) (item : TextPositionMap)
    (position : nat) :
  In item (textPositionMap (newTextMatcher root)) -> owns item position ->
  findNodeAtPosition (newTextMatcher root) position
  = Some (locationIn item position).
Proof.
  intros Hin Ho. pose proof (newTextMatcher_segments root) as Hseg.
  unfold findNodeAtPosition.
  destruct (findNodeLoop (textPositionMap (newTextMatcher root)) 0 position)
    as [loc|] eqn:E.
  - destruct (findNodeLoop_sound _ _ Hseg position loc E) as (it & Hi & Hoi & ->).
    now rewrite (owner_unique _ _ Hseg it item position Hi Hin Hoi Ho).
  - exfalso. exact (findNodeLoop_complete _ _ Hseg position item Hin Ho E).
Qed.

(** X3.  Every range [findTextRanges] returns belongs to an occurrence of
    the normalized query at some index [k]: it starts at the location
    [findNodeAtPosition] gives for [k] and ends one code unit after the
    location of the last position [k + length - 1]; [setEnd] never moves
    its start, so the start is before the end and the range is not
    collapsed. *)
Theorem findTextRanges_range_ends (root : Dom.node) (targetText : str)
    (d : DOMRange) :
  let tm := newTextMatcher root in
  let normalizedTarget := normalizeText targetText in
  In d (findTextRanges tm targetText) ->
  exists k first last,
    occursAt normalizedTarget (fullNormalizedText tm) k = true
    /\ findNodeAtPosition tm k = Some first
    /\ findNodeAtPosition tm (k + length normalizedTarget - 1) = Some last
    /\ startContainer (range d) = tpath (locNode first)
    /\ Dom.startOffset (range d) = offset first
    /\ endContainer (range d) = tpath (locNode last)
    /\ Dom.endOffset (range d) = offset last + 1
    /\ bpCompare (startContainer (range d)) (Dom.startOffset (range d))
                 (endContainer (range d)) (Dom.endOffset (range d)) = Lt
    /\ collapsed (range d) = false.
Proof.
  cbv zeta. intros Hin.
  destruct (list_eq_dec ascii_dec (normalizeText targetText) []) as [E|Hne].
  - exfalso. unfold findTextRanges, findTextMatches in Hin.
    now rewrite E in Hin.
  - destruct (findTextMatches_occurrences root targetText Hne)
      as (l & Hm & Hl & Hr).
    unfold findTextRanges in Hin. rewrite Hm in Hin.
    apply in_map_iff in Hin as ([k d'] & <- & Hkd). cbn [snd].
    assert (Hk : In k (map fst l)) by (apply in_map_iff; now exists (k, d')).
    rewrite Hl in Hk. apply filter_In in Hk as [_ Hocc].
    destruct (occurrence_owned root targetText Hne k Hocc) as [Ha Hb].
    assert (Hlen : 0 < length (normalizeText targetText))
      by (destruct (normalizeText targetText); [congruence|simpl; lia]).
    destruct (createDOMRange_owned root k
                (k + length (normalizeText targetText) - 1) Ha Hb)
      as (ia & ib & r & Hia & Hoa & Hib & Hob & Hc & Hec & Heo & Hs).
    replace (S (k + length (normalizeText targetText) - 1))
      with (k + length (normalizeText targetText)) in Hc by lia.
    rewrite (Hr k d' Hkd) in Hc. injection Hc as ->. cbn [range].
    pose proof (locations_ordered root ia ib k _ Hia Hib Hoa Hob
                  ltac:(lia)) as Hord.
    destruct Hs as [Hsc Hso]; [congruence|].
    exists k, (locationIn ia k), (locationIn ib (k + length (normalizeText targetText) - 1)).
    split; [exact Hocc|].
    split; [now apply findNodeAtPosition_owner|].
    split; [now apply findNodeAtPosition_owner|].
    split; [exact Hsc|]. split; [exact Hso|].
    split; [exact Hec|]. split; [exact Heo|].
    assert (Hlt : bpCompare (startContainer r) (Dom.startOffset r)
                    (endContainer r) (Dom.endOffset r) = Lt).
    { rewrite Hsc, Hso, Hec, Heo, bpCompare_antisym.
      cbn [locNode locationIn] in Hord |- *. now rewrite Hord. }
    split; [exact Hlt|].
    unfold collapsed. destruct (path_eqb _ _) eqn:Ep; [|reflexivity].
    unfold path_eqb in Ep.
    destruct (list_eq_dec Nat.eq_dec (startContainer r) (endContainer r))
      as [Epath|]; [|discriminate].
    rewrite Epath, bpCompare_same in Hlt.
    apply Nat.compare_lt_iff in Hlt. simpl.
    apply Nat.eqb_neq. lia.
Qed.

Lemma findTextRanges_range_ends_witness :
  In (mkDOMRange (mkRange [0; 0] 1 [1; 0] 1) (lit "bc") (lit "bc"))
     (findTextRanges
        (newTextMatcher
           (Elem None (lit "body") []
              [Elem None (lit "p") [] [Text (lit "ab")];
               Elem None (lit "p") [] [Text (lit "cd")]]))
        (lit "b c"))
  /\ exists k first last,
       occursAt (normalizeText (lit "b c"))
         (fullNormalizedText
            (newTextMatcher
               (Elem None (lit "body") []
                  [Elem None (lit "p") [] [Text (lit "ab")];
                   Elem None (lit "p") [] [Text (lit "cd")]]))) k = true
       /\ findNodeAtPosition
            (newTextMatcher
               (Elem None (lit "body") []
                  [Elem None (lit "p") [] [Text (lit "ab")];
                   Elem None (lit "p") [] [Text (lit "cd")]])) k = Some first
       /\ findNodeAtPosition
            (newTextMatcher
               (Elem None (lit "body") []
                  [Elem None (lit "p") [] [Text (lit "ab")];
                   Elem None (lit "p") [] [Text (lit "cd")]]))
            (k + length (normalizeText (lit "b c")) - 1) = Some last
       /\ [0; 0] = tpath (locNode first)
       /\ 1 = offset first
       /\ [1; 0] = tpath (locNode last)
       /\ 1 = offset last + 1
       /\ bpCompare [0; 0] 1 [1; 0] 1 = Lt
       /\ collapsed (mkRange [0; 0] 1 [1; 0] 1) = false.
Proof.
  split.
  - now left.
  - apply (findTextRanges_range_ends
             (Elem None (lit "body") []
                [Elem None (lit "p") [] [Text (lit "ab")];
                 Elem None (lit "p") [] [Text (lit "cd")]])
             (lit "b c")
             (mkDOMRange (mkRange [0; 0] 1 [1; 0] 1) (lit "bc") (lit "bc"))).
    now left.
Defined.

(** ** White space: [normalizeText], [countWords] and the text of the index *)

Section BlankFacts.

Lemma blank_rev (s : str) : blank (rev s) = blank s.
Proof.
  unfold blank. destruct (forallb isWhitespace s) eqn:E.
  - rewrite forallb_forall in *. intros x Hx. apply E. now apply in_rev.
  - destruct (forallb isWhitespace (rev s)) eqn:E'; [|reflexivity].
    rewrite <- E. symmetry. rewrite forallb_forall in *.
    intros x Hx. apply E'. now apply -> in_rev.
Qed.

Lemma blank_app (a b : str) : blank (a ++ b) = blank a && blank b.
Proof. apply forallb_app. Qed.

Lemma trimStart_blank (s : str) : blank s = true -> trimStart s = [].
Proof.
  intros H. apply trimStart_all_ws. apply Forall_forall.
  unfold blank in H. rewrite forallb_forall in H. exact H.
Qed.

Lemma trimStart_nonblank (s : str) : blank s = false -> blank (trimStart s) = false.
Proof.
  induction s as [|c s IH]; simpl; [discriminate|].
  destruct (isWhitespace c) eqn:Hc; simpl; [exact IH|].
  now rewrite Hc.
Qed.

Lemma trimStart_app (x z : str) :
  blank x = false -> trimStart (x ++ z) = trimStart x ++ z.
Proof.
  induction x as [|c x IH]; simpl; [discriminate|].
  destruct (isWhitespace c); simpl; [exact IH|reflexivity].
Qed.

Lemma trimStart_snoc_ws (s : str) (c : ascii) :
  isWhitespace c = true ->
  trimStart (s ++ [c]) = if blank s then [] else trimStart s ++ [c].
Proof.
  intros Hc. induction s as [|a s IH]; simpl.
  - now rewrite Hc.
  - destruct (isWhitespace a); simpl; [exact IH|reflexivity].
Qed.

(** [trimEnd], read from the front. *)
Lemma trimEnd_cons (c : ascii) (r : str) :
  trimEnd (c :: r) = if blank (c :: r) then [] else c :: trimEnd r.
Proof.
  unfold trimEnd. simpl rev. simpl blank.
  destruct (isWhitespace c) eqn:Hc; simpl andb.
  - rewrite trimStart_snoc_ws by exact Hc. rewrite blank_rev.
    destruct (blank r); [reflexivity|].
    now rewrite rev_app_distr.
  - rewrite trimStart_snoc by exact Hc. now rewrite rev_app_distr.
Qed.

Lemma trimEnd_blank (s : str) : blank s = true -> trimEnd s = [].
Proof.
  intros H. unfold trimEnd. rewrite trimStart_blank; [reflexivity|].
  now rewrite blank_rev.
Qed.

Lemma trimEnd_app (z y : str) :
  blank y = false -> trimEnd (z ++ y) = z ++ trimEnd y.
Proof.
  intros Hy. induction z as [|c z IH]; [reflexivity|].
  simpl app. rewrite trimEnd_cons. simpl blank. rewrite blank_app, Hy.
  rewrite andb_false_r, andb_false_r. now rewrite IH.
Qed.

Lemma trim_comm (s : str) : trimStart (trimEnd s) = trimEnd (trimStart s).
Proof.
  induction s as [|c r IH]; [reflexivity|].
  rewrite trimEnd_cons. destruct (blank (c :: r)) eqn:Hb.
  - rewrite (trimStart_blank _ Hb). reflexivity.
  - simpl. destruct (isWhitespace c) eqn:Hc; [exact IH|].
    rewrite trimEnd_cons, Hb. reflexivity.
Qed.

Lemma collapseWs_blank (b : bool) (s : str) :
  blank s = true -> blank (collapseWs b s) = true.
Proof.
  revert b. induction s as [|c s IH]; intros b; simpl; [reflexivity|].
  destruct (isWhitespace c); simpl; [|discriminate].
  intros H. destruct b; simpl; now apply IH.
Qed.

Lemma collapseWs_nonblank (b : bool) (s : str) :
  blank s = false -> blank (collapseWs b s) = false.
Proof.
  revert b. induction s as [|c s IH]; intros b; simpl; [discriminate|].
  destruct (isWhitespace c) eqn:Hc; simpl.
  - intros H. destruct b; simpl; now apply IH.
  - intros _. now rewrite Hc.
Qed.

(** Leading white space is dropped by [trimStart] before or after the runs
    are replaced. *)
Lemma collapseWs_trimStart (b : bool) (s : str) :
  trimStart (collapseWs b s) = collapseWs false (trimStart s).
Proof.
  revert b. induction s as [|c s IH]; intros b; simpl; [reflexivity|].
  destruct (isWhitespace c) eqn:Hc.
  - destruct b; simpl; apply IH.
  - simpl. now rewrite Hc.
Qed.

Lemma collapseWs_trimEnd (b : bool) (s : str) :
  trimEnd (collapseWs b s) = collapseWs b (trimEnd s).
Proof.
  revert b. induction s as [|c r IH]; intros b; [reflexivity|].
  rewrite (trimEnd_cons c r). destruct (blank (c :: r)) eqn:Hb.
  - apply trimEnd_blank. now apply collapseWs_blank.
  - simpl collapseWs. simpl in Hb.
    destruct (isWhitespace c) eqn:Hc; simpl in Hb.
    + destruct b.
      * apply IH.
      * rewrite trimEnd_cons. simpl blank.
        rewrite (collapseWs_nonblank true r Hb), ?andb_false_r.
        cbv iota. now rewrite IH.
    + rewrite trimEnd_cons. simpl blank. rewrite Hc. simpl.
      now rewrite IH.
Qed.

(** Trimming first and replacing the runs afterwards gives the same. *)
Lemma normalizeText_trim_first (s : str) :
  normalizeText s = replaceWsRuns (trim s).
Proof.
  unfold normalizeText, replaceWsRuns, trim.
  now rewrite collapseWs_trimStart, collapseWs_trimEnd.
Qed.

Lemma normalizeText_blank (s : str) :
  normalizeText s = [] <-> blank s = true.
Proof.
  split.
  - intros H. destruct (blank s) eqn:Hb; [reflexivity|]. exfalso.
    assert (Hex : exists c, In c s /\ isWhitespace c = false).
    { clear H. induction s as [|c s IH]; [discriminate|].
      simpl in Hb. destruct (isWhitespace c) eqn:Hc.
      - destruct (IH Hb) as (x & Hx & Hw). exists x. split; [now right|exact Hw].
      - exists c. split; [now left|exact Hc]. }
    destruct Hex as (c & Hin & Hc).
    pose proof (normalizeText_keeps s c Hin Hc) as Hk. now rewrite H in Hk.
  - intros H. rewrite normalizeText_trim_first. unfold trim.
    now rewrite (trimStart_blank _ H).
Qed.

Lemma collapseWs_after_run (y : str) :
  collapseWs true y = collapseWs false (trimStart y).
Proof.
  induction y as [|c y IH]; simpl; [reflexivity|].
  destruct (isWhitespace c) eqn:Hc; [exact IH|].
  simpl. now rewrite Hc.
Qed.

Lemma collapseWs_blank_app (r z : str) :
  blank r = true -> collapseWs true (r ++ z) = collapseWs true z.
Proof.
  induction r as [|c r IH]; simpl; [reflexivity|].
  destruct (isWhitespace c); simpl; [exact IH|discriminate].
Qed.

(** A space between two pieces that are not blank stays one space between
    their normalizations. *)
Lemma collapseWs_glue (y : str) (x : str) :
  forall b, blank x = false ->
    collapseWs b (x ++ space :: y)
    = collapseWs b (trimEnd x) ++ space :: collapseWs false (trimStart y).
Proof.
  induction x as [|c r IH]; intros b Hx; [discriminate|].
  rewrite trimEnd_cons, Hx. simpl app.
  destruct (blank r) eqn:Hr.
  - simpl in Hx. rewrite Hr, andb_true_r in Hx.
    rewrite (trimEnd_blank _ Hr). simpl. rewrite Hx. simpl.
    f_equal. destruct r as [|w r].
    + simpl. now rewrite collapseWs_after_run.
    + simpl in Hr. destruct (isWhitespace w) eqn:Hw; [|discriminate].
      simpl in Hr. simpl. rewrite Hw. f_equal.
      rewrite (collapseWs_blank_app r _ Hr). simpl.
      apply collapseWs_after_run.
  - simpl. destruct (isWhitespace c); [destruct b|]; simpl;
      now rewrite IH.
Qed.

Lemma normalizeText_glue (x y : str) :
  blank x = false -> blank y = false ->
  normalizeText (x ++ space :: y)
  = normalizeText x ++ space :: normalizeText y.
Proof.
  intros Hx Hy. rewrite !normalizeText_trim_first. unfold replaceWsRuns, trim.
  rewrite (trimStart_app x _ Hx).
  assert (Hy' : blank (space :: y) = false) by (simpl; exact Hy).
  rewrite (trimEnd_app (trimStart x) (space :: y) Hy').
  rewrite trimEnd_cons, Hy'.
  rewrite (collapseWs_glue _ _ false (trimStart_nonblank _ Hx)).
  now rewrite trim_comm.
Qed.

Lemma normalizeText_join (l : list str) :
  Forall (fun x => blank x = false) l ->
  normalizeText (join [space] l) = join [space] (map normalizeText l)
  /\ (l <> [] -> blank (join [space] l) = false).
Proof.
  induction 1 as [|x l Hx Hl IH]; [split; [reflexivity|congruence]|].
  destruct l as [|y l].
  - simpl. split; [reflexivity|]. intros _. exact Hx.
  - destruct IH as [IH1 IH2]. specialize (IH2 ltac:(discriminate)).
    simpl map. rewrite !join_cons2. split.
    + change (x ++ [space] ++ join [space] (y :: l))
        with (x ++ space :: join [space] (y :: l)).
      rewrite (normalizeText_glue _ _ Hx IH2).
      simpl map in IH1. now rewrite IH1.
    + intros _. rewrite blank_app, Hx. reflexivity.
Qed.

End BlankFacts.

Lemma collapseWs_length (b : bool) (s : str) :
  length (collapseWs b s) <= length s.
Proof.
  revert b. induction s as [|c s IH]; intros b; simpl; [lia|].
  pose proof (IH true). pose proof (IH false).
  destruct (isWhitespace c); [destruct b|]; simpl; lia.
Qed.

Lemma buildLoop_texts (nodes : list TextRef) (g : nat) :
  map normalizedText (buildLoop nodes g)
  = map (fun item => normalizeText (tdata (node item))) (buildLoop nodes g).
Proof.
  revert g. induction nodes as [|nd rest IH]; intros g; simpl; [reflexivity|].
  destruct (0 <? length (normalizeText (tdata nd))); [|apply IH].
  simpl. now rewrite IH.
Qed.

(** The text of the index, from the raw texts. *)
Lemma fullNormalizedText_join (root : Dom.node) :
  fullNormalizedText (newTextMatcher root)
  = normalizeText
      (join [space] (map tdata (filter acceptNode (walkText [] root)))).
Proof.
  assert (Hraw : Forall (fun x => blank x = false)
                   (map tdata (filter acceptNode (walkText [] root)))).
  { rewrite Forall_map, Forall_forall.
    intros nd Hnd. apply filter_In in Hnd as [_ Hacc].
    apply acceptNode_normalized in Hacc. apply Nat.ltb_lt in Hacc.
    destruct (blank (tdata nd)) eqn:Hb; [|reflexivity].
    apply normalizeText_blank in Hb. rewrite Hb in Hacc. simpl in Hacc. lia. }
  rewrite (proj1 (normalizeText_join _ Hraw)).
  rewrite <- textPositionMap_nodes.
  unfold newTextMatcher. cbn [fullNormalizedText textPositionMap].
  rewrite buildLoop_texts. now rewrite !map_map.
Qed.

(** X4.  The concatenated normalized text of the index is [normalizeText]
    of the raw texts of the accepted text nodes joined by single spaces,
    in the order of the tree walk: normalizing node by node and joining
    gives what normalizing the joined raw text gives.  It is a fixed point
    of [normalizeText] and never longer than the joined raw text. *)
Theorem fullNormalizedText_of_raw (root : Dom.node) :
  let tm := newTextMatcher root in
  let raw := map tdata (filter acceptNode (walkText [] root)) in
  fullNormalizedText tm = normalizeText (join [space] raw)
  /\ normalizeText (fullNormalizedText tm) = fullNormalizedText tm
  /\ length (fullNormalizedText tm) <= length (join [space] raw).
Proof.
  cbv zeta. pose proof (fullNormalizedText_join root) as E.
  split; [exact E|]. split.
  - rewrite E. apply normalizeText_idempotent.
  - rewrite E. etransitivity; [apply normalizeText_length|].
    apply collapseWs_length.
Qed.

(** X5.  [normalizeText] yields a normal form: applying it again changes
    nothing; trimming before replacing the runs of white space gives the
    same string as replacing and then trimming; the only white space of
    the result is single spaces, none at its start or end; the result is
    not longer than the input, and it is empty exactly for an input that
    holds nothing but white space. *)
Theorem normalizeText_normal_form (text : str) :
  normalizeText (normalizeText text) = normalizeText text
  /\ normalizeText text = replaceWsRuns (trim text)
  /\ singleSpaced false (normalizeText text) = true
  /\ (forall c r, normalizeText text = c :: r -> isWhitespace c = false)
  /\ (forall r c, normalizeText text = r ++ [c] -> isWhitespace c = false)
  /\ length (normalizeText text) <= length text
  /\ (normalizeText text = [] <-> blank text = true).
Proof.
  split; [apply normalizeText_idempotent|].
  split; [apply normalizeText_trim_first|].
  split; [apply normalizeText_singleSpaced|].
  split; [intros c r E; exact (trim_head _ _ _ E)|].
  split; [intros r c E; exact (trim_last _ _ _ E)|].
  split; [|apply normalizeText_blank].
  etransitivity; [apply normalizeText_length|]. apply collapseWs_length.
Qed.

Section WordFacts.

Lemma nonspace (c : ascii) : isWhitespace c = false -> Ascii.eqb c space = false.
Proof.
  intros H. destruct (Ascii.eqb c space) eqn:E; [|reflexivity].
  apply Ascii.eqb_eq in E. subst. discriminate.
Qed.

(** Splitting at the runs of white space is splitting at the spaces that
    replace them. *)
Lemma splitWs_collapseWs (s : str) :
  forall b, Utils.splitWs b s = split space (collapseWs b s).
Proof.
  induction s as [|c s IH]; intros b; simpl; [reflexivity|].
  destruct (isWhitespace c) eqn:Hc.
  - destruct b; simpl; now rewrite IH.
  - simpl. rewrite (nonspace c Hc). now rewrite IH.
Qed.

Lemma split_length (sep : ascii) (s : str) : 1 <= length (split sep s).
Proof.
  induction s as [|c s IH]; simpl; [lia|].
  destruct (Ascii.eqb c sep); simpl; [lia|].
  destruct (split sep s); simpl in *; lia.
Qed.

End WordFacts.

(** X6.  [countWords(text)] is the number of pieces [split(' ')] cuts
    [normalizeText(text)] into, the word count [findFuzzyTextRanges] works
    with; normalizing the text first does not change it.  It is never 0:
    an empty text, or one of white space only, counts one word. *)
Theorem countWords_words (text : str) :
  Utils.countWords text = length (split space (normalizeText text))
  /\ Utils.countWords (normalizeText text) = Utils.countWords text
  /\ 1 <= Utils.countWords text
  /\ (blank text = true -> Utils.countWords text = 1).
Proof.
  assert (E : forall t, Utils.countWords t = length (split space (normalizeText t))).
  { intros t. unfold Utils.countWords.
    now rewrite splitWs_collapseWs, normalizeText_trim_first. }
  split; [apply E|]. split; [|split].
  - now rewrite !E, normalizeText_idempotent.
  - rewrite E. apply split_length.
  - intros Hb. rewrite E. apply normalizeText_blank in Hb. now rewrite Hb.
Qed.

(** ** Truncating a text *)

(** X7.  [truncateText] of [utils.ts] returns a text of at most [maxLength]
    code units unchanged; a longer one is cut to its first [maxLength - 3]
    code units followed by three dots, which makes [maxLength] code units
    when [maxLength] is 3 or more and the three dots alone, more than
    [maxLength], when it is less. *)
Theorem utils_truncateText_length (text : str) (maxLength : nat) :
  (length text <= maxLength -> Utils.truncateText text maxLength = text)
  /\ (maxLength < length text ->
      Utils.truncateText text maxLength
      = firstn (maxLength - 3) text ++ lit "..."
      /\ length (Utils.truncateText text maxLength) = Nat.max maxLength 3)
  /\ (3 <= maxLength -> length (Utils.truncateText text maxLength) <= maxLength)
  /\ length (Utils.truncateText text maxLength) <= Nat.max maxLength 3.
Proof.
  unfold Utils.truncateText, substring. rewrite skipn_O, Nat.sub_0_r.
  destruct (length text <=? maxLength) eqn:E.
  - apply Nat.leb_le in E. repeat split; intros; first [reflexivity | lia].
  - apply Nat.leb_gt in E.
    assert (Hl : length (firstn (maxLength - 3) text ++ lit "...")
                 = Nat.max maxLength 3).
    { rewrite length_app, length_firstn. simpl length. lia. }
    repeat split; intros; first [reflexivity | lia].
Qed.

(** X8.  [truncateText] of the tooltip returns a text of at most
    [maxLength] code units unchanged; a longer one is cut to its first
    [maxLength] code units followed by three dots: what it shows of a
    truncated text is [maxLength + 3] code units, which is more than the
    text itself had when that was [maxLength + 1] or [maxLength + 2]. *)
Theorem tooltip_truncateText_length (text : str) (maxLength : nat) :
  (length text <= maxLength -> Tooltip.truncateText text maxLength = text)
  /\ (maxLength < length text ->
      Tooltip.truncateText text maxLength = firstn maxLength text ++ lit "..."
      /\ length (Tooltip.truncateText text maxLength) = maxLength + 3)
  /\ length (Tooltip.truncateText text maxLength) <= maxLength + 3
  /\ (length text < length (Tooltip.truncateText text maxLength)
      <-> maxLength < length text < maxLength + 3).
Proof.
  unfold Tooltip.truncateText, substring. rewrite skipn_O, Nat.sub_0_r.
  destruct (length text <=? maxLength) eqn:E.
  - apply Nat.leb_le in E. repeat split; intros; first [reflexivity | lia].
  - apply Nat.leb_gt in E.
    assert (Hl : length (firstn maxLength text ++ lit "...") = maxLength + 3).
    { rewrite length_app, length_firstn. simpl length. lia. }
    repeat split; intros; first [reflexivity | lia].
Qed.

(** ** Categories and colours *)

Section CategoryFacts.
Import Constants.

Lemma type_eqb_eq (a b : ManipulationType) : type_eqb a b = true <-> a = b.
Proof.
  split; [|intros ->; unfold type_eqb, str_eqb;
            now destruct (list_eq_dec ascii_dec (typeName b) (typeName b))].
  destruct a, b; intros H; try reflexivity; vm_compute in H; discriminate.
Qed.

Lemma str_eqb_eq (a b : str) : str_eqb a b = true <-> a = b.
Proof.
  unfold str_eqb. destruct (list_eq_dec ascii_dec a b); split; congruence.
Qed.

Lemma includesType_In (types : list ManipulationType) (type : ManipulationType) :
  includesType types type = true <-> In type types.
Proof.
  unfold includesType. rewrite existsb_exists. split.
  - intros (x & Hx & E). apply type_eqb_eq in E. now subst.
  - intros H. exists type. split; [exact H|]. now apply type_eqb_eq.
Qed.

End CategoryFacts.

(** X9.  Every manipulation type is listed by exactly one category of
    [MANIPULATION_CATEGORIES], and [getManipulationCategory] returns that
    category, never ['Unknown']; two types have the same category exactly
    when [MANIPULATION_COLORS] gives them the same colour. *)
Theorem getManipulationCategory_total (type : ManipulationType) :
  (exists types,
     In (Tooltip.getManipulationCategory type, types)
        Constants.MANIPULATION_CATEGORIES
     /\ In type types)
  /\ Tooltip.getManipulationCategory type <> lit "Unknown"
  /\ (forall category types,
        In (category, types) Constants.MANIPULATION_CATEGORIES ->
        In type types -> category = Tooltip.getManipulationCategory type)
  /\ (forall other,
        Tooltip.getManipulationCategory type
        = Tooltip.getManipulationCategory other
        <-> Constants.MANIPULATION_COLORS type
            = Constants.MANIPULATION_COLORS other).
Proof.
  split; [|split; [|split]].
  - destruct type; eexists;
      (split; [unfold Constants.MANIPULATION_CATEGORIES;
               cbn [In]; repeat (first [left; reflexivity | right])
              | simpl; tauto]).
  - destruct type; discriminate.
  - intros category types Hin Ht.
    simpl in Hin.
    destruct Hin as [E|[E|[E|[E|[E|[]]]]]]; injection E as <- <-;
      simpl in Ht; destruct type; try reflexivity;
      exfalso; intuition discriminate.
  - intros other. destruct type, other; split; intros H;
      try reflexivity; vm_compute in H; discriminate.
Qed.

(** ** Counting by category and by type *)

Section CountFacts.
Import Constants.

Lemma valueOf_increment (category key : str) (byCategory : list (str * nat)) :
  valueOf str_eqb key (Utils.increment category byCategory)
  = if str_eqb category key
    then option_map (fun n => n + 1) (valueOf str_eqb key byCategory)
    else valueOf str_eqb key byCategory.
Proof.
  induction byCategory as [|[k n] rest IH]; simpl.
  - now destruct (str_eqb category key).
  - destruct (str_eqb category k) eqn:Ek; simpl.
    + apply str_eqb_eq in Ek. subst k.
      destruct (str_eqb key category) eqn:E1.
      * apply str_eqb_eq in E1. subst key.
        now rewrite (proj2 (str_eqb_eq category category) eq_refl).
      * destruct (str_eqb category key) eqn:E2; [|reflexivity].
        apply str_eqb_eq in E2. subst key.
        now rewrite (proj2 (str_eqb_eq category category) eq_refl) in E1.
    + destruct (str_eqb key k) eqn:E1.
      * apply str_eqb_eq in E1. subst key. now rewrite Ek.
      * exact IH.
Qed.

Lemma keys_increment (category : str) (byCategory : list (str * nat)) :
  map fst (Utils.increment category byCategory) = map fst byCategory.
Proof.
  induction byCategory as [|[k n] rest IH]; simpl; [reflexivity|].
  destruct (str_eqb category k); simpl; [reflexivity|now rewrite IH].
Qed.

Lemma total_increment (category : str) (byCategory : list (str * nat)) :
  In category (map fst byCategory) ->
  total (Utils.increment category byCategory) = total byCategory + 1.
Proof.
  unfold total. induction byCategory as [|[k n] rest IH]; simpl; [contradiction|].
  intros Hin. destruct (str_eqb category k) eqn:Ek; simpl; [lia|].
  destruct Hin as [E|Hin]; [|rewrite (IH Hin); lia].
  subst k. now rewrite (proj2 (str_eqb_eq category category) eq_refl) in Ek.
Qed.

(** One manipulation is counted in the category that lists its type. *)
Lemma countIn_category (manipulation : ManipulationBlock)
    (byCategory : list (str * nat)) :
  Utils.countIn MANIPULATION_CATEGORIES manipulation byCategory
  = Utils.increment
      (Tooltip.getManipulationCategory (manipulation_type manipulation))
      byCategory.
Proof.
  destruct manipulation as [text type description confidence].
  now destruct type.
Qed.

Lemma category_of_entry (category : str) (types : list ManipulationType)
    (type : ManipulationType) :
  In (category, types) MANIPULATION_CATEGORIES ->
  str_eqb (Tooltip.getManipulationCategory type) category
  = includesType types type.
Proof.
  intros Hin. simpl in Hin.
  destruct Hin as [E|[E|[E|[E|[E|[]]]]]]; injection E as <- <-;
    now destruct type.
Qed.

Lemma category_is_key (type : ManipulationType) :
  In (Tooltip.getManipulationCategory type) (map fst MANIPULATION_CATEGORIES).
Proof. destruct type; simpl; tauto. Qed.

Lemma formatAnalysisResult_fold (manipulations : list ManipulationBlock) :
  forall byCategory,
    map fst byCategory = map fst MANIPULATION_CATEGORIES ->
    let result :=
      fold_left
        (fun byCategory manipulation =>
           Utils.countIn MANIPULATION_CATEGORIES manipulation byCategory)
        manipulations byCategory in
    map fst result = map fst MANIPULATION_CATEGORIES
    /\ total result = total byCategory + length manipulations
    /\ forall category types,
         In (category, types) MANIPULATION_CATEGORIES ->
         valueOf str_eqb category result
         = option_map
             (fun n =>
                n + length (filter
                              (fun m => includesType types (manipulation_type m))
                              manipulations))
             (valueOf str_eqb category byCategory).
Proof.
  induction manipulations as [|m ms IH]; intros byCategory Hkeys; cbv zeta.
  - simpl. split; [exact Hkeys|]. split; [lia|].
    intros category types _.
    destruct (valueOf str_eqb category byCategory); simpl; [|reflexivity].
    now rewrite Nat.add_0_r.
  - cbn [fold_left]. rewrite countIn_category.
    specialize (IH (Utils.increment
                      (Tooltip.getManipulationCategory (manipulation_type m))
                      byCategory)).
    rewrite keys_increment in IH. specialize (IH Hkeys). cbv zeta in IH.
    destruct IH as (IH1 & IH2 & IH3).
    split; [exact IH1|]. split.
    + rewrite IH2, total_increment; [simpl; lia|].
      rewrite Hkeys. apply category_is_key.
    + intros category types Hin. rewrite (IH3 category types Hin).
      rewrite valueOf_increment, (category_of_entry _ _ _ Hin).
      cbn [filter].
      destruct (includesType types (manipulation_type m));
        destruct (valueOf str_eqb category byCategory); simpl;
        try reflexivity.
      f_equal. lia.
Qed.

End CountFacts.

(** X10.  [formatAnalysisResult] counts every manipulation once:
    [totalCount] is the length of the list, [byCategory] has the five
    categories of [MANIPULATION_CATEGORIES] as its keys, in that order,
    the count of a category is the number of manipulations whose type the
    category lists, and the counts add up to [totalCount]. *)
Theorem formatAnalysisResult_counts (manipulations : list ManipulationBlock)
    (now : str) :
  let result := Utils.formatAnalysisResult manipulations now in
  Utils.manipulations result = manipulations
  /\ Utils.totalCount result = length manipulations
  /\ map fst (Utils.byCategory result)
     = map fst Constants.MANIPULATION_CATEGORIES
  /\ (forall category types,
        In (category, types) Constants.MANIPULATION_CATEGORIES ->
        valueOf str_eqb category (Utils.byCategory result)
        = Some (length (filter
                          (fun m =>
                             Constants.includesType types (manipulation_type m))
                          manipulations)))
  /\ total (Utils.byCategory result) = Utils.totalCount result.
Proof.
  cbv zeta. unfold Utils.formatAnalysisResult.
  cbn [Utils.manipulations Utils.totalCount Utils.byCategory].
  destruct (formatAnalysisResult_fold manipulations
              (map (fun entry => (fst entry, 0)) Constants.MANIPULATION_CATEGORIES))
    as (H1 & H2 & H3); [reflexivity|].
  split; [reflexivity|]. split; [reflexivity|]. split; [exact H1|].
  split; [|exact H2].
  intros category types Hin. rewrite (H3 category types Hin).
  simpl in Hin.
  destruct Hin as [E|[E|[E|[E|[E|[]]]]]]; injection E as <- <-; reflexivity.
Qed.

Section TypeCountFacts.

Lemma valueOf_bump (type key : ManipulationType)
    (counts : list (ManipulationType * nat)) :
  valueOf type_eqb key (bump type counts)
  = if type_eqb type key
    then Some (match valueOf type_eqb key counts with
               | Some n => n + 1
               | None => 0 + 1
               end)
    else valueOf type_eqb key counts.
Proof.
  assert (Hrefl : forall t, type_eqb t t = true)
    by (intros t; now apply type_eqb_eq).
  induction counts as [|[t n] rest IH]; simpl.
  - destruct (type_eqb type key) eqn:E.
    + apply type_eqb_eq in E. subst key. now rewrite Hrefl.
    + destruct (type_eqb key type) eqn:E'; [|reflexivity].
      apply type_eqb_eq in E'. subst key. now rewrite Hrefl in E.
  - destruct (type_eqb type t) eqn:Et; simpl.
    + apply type_eqb_eq in Et. subst t.
      destruct (type_eqb key type) eqn:E1.
      * apply type_eqb_eq in E1. subst key. now rewrite Hrefl.
      * destruct (type_eqb type key) eqn:E2; [|reflexivity].
        apply type_eqb_eq in E2. subst key. now rewrite Hrefl in E1.
    + destruct (type_eqb key t) eqn:E1.
      * apply type_eqb_eq in E1. subst key. now rewrite Et.
      * exact IH.
Qed.

Lemma total_bump (type : ManipulationType) (counts : list (ManipulationType * nat)) :
  total (bump type counts) = total counts + 1.
Proof.
  unfold total. induction counts as [|[t n] rest IH]; simpl; [reflexivity|].
  destruct (type_eqb type t); simpl; lia.
Qed.

Lemma keys_bump (type : ManipulationType) (counts : list (ManipulationType * nat)) :
  NoDup (map fst counts) -> NoDup (map fst (bump type counts))
  /\ forall k, In k (map fst (bump type counts))
               <-> k = type \/ In k (map fst counts).
Proof.
  induction counts as [|[t n] rest IH]; simpl; intros Hnd.
  - split; [repeat constructor; simpl; tauto|]. intros k. intuition.
  - pose proof Hnd as Hnd0. apply NoDup_cons_iff in Hnd0 as [Hnot Hrest].
    destruct (type_eqb type t) eqn:Et; simpl.
    + apply type_eqb_eq in Et. subst t. split; [exact Hnd|].
      intros k. intuition.
    + destruct (IH Hrest) as [IH1 IH2]. split.
      * constructor; [|exact IH1]. rewrite IH2. intros [->|H]; [|contradiction].
        now rewrite (proj2 (type_eqb_eq type type) eq_refl) in Et.
      * intros k. rewrite IH2. intuition.
Qed.

Lemma getHighlightsByType_fold (l : list (HighlightId * HighlightInfo)) :
  forall counts,
    NoDup (map fst counts) ->
    let result :=
      fold_left
        (fun counts highlight =>
           bump (manipulation_type (manipulation (snd highlight))) counts)
        l counts in
    NoDup (map fst result)
    /\ total result = total counts + length l
    /\ forall type,
         valueOf type_eqb type result
         = match length (filter
                           (fun h => type_eqb
                                       (manipulation_type (manipulation (snd h)))
                                       type) l),
                 valueOf type_eqb type counts with
           | 0, v => v
           | S n, Some m => Some (m + S n)
           | S n, None => Some (S n)
           end.
Proof.
  induction l as [|h l IH]; intros counts Hnd; cbv zeta.
  - simpl. split; [exact Hnd|]. split; [lia|]. reflexivity.
  - cbn [fold_left].
    destruct (keys_bump (manipulation_type (manipulation (snd h))) counts Hnd)
      as [Hnd' _].
    destruct (IH _ Hnd') as (IH1 & IH2 & IH3).
    split; [exact IH1|]. split; [rewrite IH2, total_bump; simpl; lia|].
    intros type. rewrite IH3, valueOf_bump. cbn [filter].
    destruct (type_eqb (manipulation_type (manipulation (snd h))) type);
      cbn [length];
      destruct (length (filter _ l)); destruct (valueOf type_eqb type counts);
      try reflexivity; f_equal; lia.
Qed.

End TypeCountFacts.

(** X11.  [getHighlightsByType] has one key for each manipulation type
    that some registered highlight has, and none for the others; the count
    under a type is the number of registered highlights of that type, and
    the counts add up to [getHighlightCount]. *)
Theorem getHighlightsByType_counts (st : State) :
  let counts := getHighlightsByType st in
  NoDup (map fst counts)
  /\ (forall type,
        valueOf type_eqb type counts
        = match length (filter
                          (fun h => type_eqb
                                      (manipulation_type (manipulation (snd h)))
                                      type)
                          (highlightedElements st)) with
          | 0 => None
          | n => Some n
          end)
  /\ total counts = getHighlightCount st.
Proof.
  cbv zeta. unfold getHighlightsByType, getHighlightCount.
  destruct (getHighlightsByType_fold (highlightedElements st) [])
    as (H1 & H2 & H3); [constructor|].
  split; [exact H1|]. split; [|exact H2].
  intros type. rewrite H3. simpl.
  now destruct (length (filter _ (highlightedElements st))).
Qed.

(** ** [calculateSimilarity] *)

Section SimilarityFacts.

Lemma existsb_str_In (w : str) (l : list str) :
  existsb (str_eqb w) l = true <-> In w l.
Proof.
  rewrite existsb_exists. split.
  - intros (x & Hx & E). apply str_eqb_eq in E. now subst.
  - intros H. exists w. split; [exact H|]. now apply str_eqb_eq.
Qed.

(** [new Set(l)] holds the elements of [l], each once. *)
Lemma distinct_spec (l : list str) :
  forall seen,
    NoDup (distinct seen l)
    /\ forall w, In w (distinct seen l) <-> In w l /\ ~ In w seen.
Proof.
  induction l as [|x l IH]; intros seen; simpl.
  - split; [constructor|]. intros w. tauto.
  - destruct (existsb (str_eqb x) seen) eqn:E.
    + apply existsb_str_In in E.
      destruct (IH seen) as [IH1 IH2]. split; [exact IH1|].
      intros w. rewrite IH2. split; [tauto|].
      intros [[->|H] Hn]; [contradiction|tauto].
    + assert (Hx : ~ In x seen)
        by (intros H; apply existsb_str_In in H; congruence).
      destruct (IH (x :: seen)) as [IH1 IH2]. split.
      * constructor; [|exact IH1]. rewrite IH2. simpl. tauto.
      * intros w. simpl. rewrite IH2. simpl. split.
        -- intros [->|[H Hn]]; [tauto|]. split; [now right|tauto].
        -- intros [[->|H] Hn]; [now left|].
           destruct (list_eq_dec ascii_dec x w) as [->|Hne]; [now left|].
           right. split; [exact H|]. intros [E'|E']; [congruence|contradiction].
Qed.

(** Two duplicate-free lists with the same elements have the same
    length. *)
Lemma NoDup_same_length (a b : list str) :
  NoDup a -> NoDup b -> (forall w, In w a <-> In w b) -> length a = length b.
Proof.
  intros Ha Hb Hab. apply Nat.le_antisymm; apply NoDup_incl_length;
    try assumption; intros w Hw; now apply Hab.
Qed.

Lemma distinct_length (a b : list str) :
  (forall w, In w a <-> In w b) ->
  length (distinct [] a) = length (distinct [] b).
Proof.
  intros Hab.
  destruct (distinct_spec a []) as [Ha1 Ha2].
  destruct (distinct_spec b []) as [Hb1 Hb2].
  apply NoDup_same_length; try assumption.
  intros w. rewrite Ha2, Hb2, Hab. tauto.
Qed.

Lemma distinct_In (l : list str) (w : str) : In w (distinct [] l) <-> In w l.
Proof.
  destruct (distinct_spec l []) as [_ H]. rewrite H. simpl. tauto.
Qed.

(** The two counts of [calculateSimilarity] depend on the sets of words
    only. *)
Lemma similarity_counts (a a' b b' : list str) :
  (forall w, In w a <-> In w a') -> (forall w, In w b <-> In w b') ->
  length (distinct []
            (filter (fun word => existsb (str_eqb word) (distinct [] b))
                    (distinct [] a)))
  = length (distinct []
              (filter (fun word => existsb (str_eqb word) (distinct [] b'))
                      (distinct [] a')))
  /\ length (distinct [] (distinct [] a ++ distinct [] b))
     = length (distinct [] (distinct [] a' ++ distinct [] b')).
Proof.
  intros Ha Hb. split; apply distinct_length; intros w.
  - rewrite !filter_In, !existsb_str_In, !distinct_In, Ha, Hb. tauto.
  - rewrite !in_app_iff, !distinct_In, Ha, Hb. tauto.
Qed.

Lemma similarity_counts_sym (a b : list str) :
  length (distinct []
            (filter (fun word => existsb (str_eqb word) (distinct [] b))
                    (distinct [] a)))
  = length (distinct []
              (filter (fun word => existsb (str_eqb word) (distinct [] a))
                      (distinct [] b)))
  /\ length (distinct [] (distinct [] a ++ distinct [] b))
     = length (distinct [] (distinct [] b ++ distinct [] a)).
Proof.
  split; apply distinct_length; intros w.
  - rewrite !filter_In, !existsb_str_In, !distinct_In. tauto.
  - rewrite !in_app_iff, !distinct_In. tauto.
Qed.

Lemma lowerChar_idempotent (c : ascii) : lowerChar (lowerChar c) = lowerChar c.
Proof. destruct c as [[] [] [] [] [] [] [] []]; reflexivity. Qed.

Lemma toLowerCase_idempotent (s : str) :
  toLowerCase (toLowerCase s) = toLowerCase s.
Proof.
  unfold toLowerCase. rewrite map_map. apply map_ext.
  intros c. apply lowerChar_idempotent.
Qed.

End SimilarityFacts.

(** X12.  [calculateSimilarity] looks at the sets of lower-cased words
    only: two texts with the same words, whatever their order and however
    often they are repeated, get the same similarity to any other
    text. *)
Theorem calculateSimilarity_same_words (text1 text1' text2 text2' : str) :
  sameWords text1 text1' -> sameWords text2 text2' ->
  calculateSimilarity text1 text2 = calculateSimilarity text1' text2'.
Proof.
  intros H1 H2. unfold calculateSimilarity.
  destruct (similarity_counts _ _ _ _ H1 H2) as [Hi Hu].
  unfold wordsOf in Hi, Hu. now rewrite Hi, Hu.
Qed.

Lemma calculateSimilarity_same_words_witness :
  sameWords (lit "Act NOW now") (lit "now act")
  /\ sameWords (lit "act later") (lit "later act act")
  /\ calculateSimilarity (lit "Act NOW now") (lit "act later")
     = calculateSimilarity (lit "now act") (lit "later act act").
Proof.
  assert (H1 : sameWords (lit "Act NOW now") (lit "now act"))
    by (intros w; vm_compute; tauto).
  assert (H2 : sameWords (lit "act later") (lit "later act act"))
    by (intros w; vm_compute; tauto).
  split; [exact H1|]. split; [exact H2|].
  exact (calculateSimilarity_same_words _ _ _ _ H1 H2).
Defined.

(** X13.  [calculateSimilarity] is symmetric and ignores case, and it
    never divides by zero: it is the quotient of two counts, the number
    of words the texts share by the number of words either has.  The
    counts are those of the two sets: [common] holds each lower-cased
    word that both texts have once, [all] each word that one of them has
    once.  The second count is at least 1 (an empty text has the empty
    word), not less than the first, and at most the two numbers of words
    together. *)
Theorem calculateSimilarity_symmetric (text1 text2 : str) :
  calculateSimilarity text1 text2 = calculateSimilarity text2 text1
  /\ calculateSimilarity (toLowerCase text1) text2
     = calculateSimilarity text1 text2
  /\ (exists common all,
        NoDup common /\ NoDup all
        /\ (forall w, In w common
                      <-> In w (wordsOf text1) /\ In w (wordsOf text2))
        /\ (forall w, In w all
                      <-> In w (wordsOf text1) \/ In w (wordsOf text2))
        /\ calculateSimilarity text1 text2
           = PrimFloat.div (ofNat (length common)) (ofNat (length all))
        /\ length common <= length all /\ 1 <= length all
        /\ length all <= length (wordsOf text1) + length (wordsOf text2))
  /\ (forall common all,
        NoDup common -> NoDup all ->
        (forall w, In w common
                   <-> In w (wordsOf text1) /\ In w (wordsOf text2)) ->
        (forall w, In w all
                   <-> In w (wordsOf text1) \/ In w (wordsOf text2)) ->
        calculateSimilarity text1 text2
        = PrimFloat.div (ofNat (length common)) (ofNat (length all))).
Proof.
  split; [|split; [|split]].
  - unfold calculateSimilarity.
    destruct (similarity_counts_sym (split space (toLowerCase text1))
                (split space (toLowerCase text2))) as [Hi Hu].
    now rewrite Hi, Hu.
  - unfold calculateSimilarity. now rewrite toLowerCase_idempotent.
  - unfold calculateSimilarity, wordsOf.
    set (w1 := split space (toLowerCase text1)).
    set (w2 := split space (toLowerCase text2)).
    destruct (distinct_spec
                (filter (fun word => existsb (str_eqb word) (distinct [] w2))
                        (distinct [] w1)) []) as [Hn1 He1].
    destruct (distinct_spec (distinct [] w1 ++ distinct [] w2) [])
      as [Hn2 He2].
    destruct (distinct_spec w1 []) as [Hn3 He3].
    destruct (distinct_spec w2 []) as [Hn4 He4].
    eexists _, _. split; [exact Hn1|]. split; [exact Hn2|].
    split; [|split; [|split; [reflexivity|]]].
    + intros w.
      rewrite distinct_In, filter_In, existsb_str_In, !distinct_In. tauto.
    + intros w. rewrite distinct_In, in_app_iff, !distinct_In. tauto.
    + split; [|split].
      * apply NoDup_incl_length; [exact Hn1|].
        intros w Hw. apply He1 in Hw as [Hw _].
        apply filter_In in Hw as [Hw _].
        apply He2. split; [|simpl; tauto]. apply in_app_iff. now left.
      * assert (Hin : In (hd [] w1)
                        (distinct [] (distinct [] w1 ++ distinct [] w2))).
        { apply He2. split; [|simpl; tauto]. apply in_app_iff. left.
          apply He3. split; [|simpl; tauto].
          pose proof (split_length space (toLowerCase text1)) as Hl.
          fold w1 in Hl. destruct w1; [simpl in Hl; lia|now left]. }
        destruct (distinct [] (distinct [] w1 ++ distinct [] w2));
          [contradiction|simpl; lia].
      * etransitivity.
        -- apply NoDup_incl_length; [exact Hn2|].
           intros w Hw. apply He2 in Hw as [Hw _]. exact Hw.
        -- rewrite length_app.
           apply Nat.add_le_mono; apply NoDup_incl_length; try assumption;
             intros w Hw; [apply He3 in Hw|apply He4 in Hw]; tauto.
  - intros common all Hc Ha Hcommon Hall.
    unfold calculateSimilarity, wordsOf in *.
    set (w1 := split space (toLowerCase text1)) in *.
    set (w2 := split space (toLowerCase text2)) in *.
    destruct (distinct_spec
                (filter (fun word => existsb (str_eqb word) (distinct [] w2))
                        (distinct [] w1)) []) as [Hn1 _].
    destruct (distinct_spec (distinct [] w1 ++ distinct [] w2) [])
      as [Hn2 _].
    f_equal; f_equal; apply NoDup_same_length; try assumption; intros w.
    + rewrite Hcommon, distinct_In, filter_In, existsb_str_In, !distinct_In.
      tauto.
    + rewrite Hall, distinct_In, in_app_iff, !distinct_In. tauto.
Qed.

(** ** [updateHighlightMode] *)

Section ModeFacts.

Lemma walkText_setClassName (r : nat) (c : str) (n : Dom.node) :
  forall parent, walkText parent (setClassName r c n) = walkText parent n.
Proof.
  induction n as [d|r' t c' kids IH] using node_induction; intros parent;
    [reflexivity|].
  cbn [setClassName]. rewrite !walkText_Elem. generalize 0 as i.
  induction IH as [|k kids Hk _ IHkids]; intros i; simpl; [reflexivity|].
  now rewrite Hk, IHkids.
Qed.

Lemma textContent_setClassName (r : nat) (c : str) (n : Dom.node) :
  textContent (setClassName r c n) = textContent n.
Proof.
  induction n as [d|r' t c' kids IH] using node_induction; [reflexivity|].
  cbn [setClassName textContent].
  induction IH as [|k kids Hk _ IHkids]; simpl; [reflexivity|].
  now rewrite Hk, IHkids.
Qed.

Lemma nodeAt_setClassName (r : nat) (c : str) (p : path) :
  forall n, nodeAt p (setClassName r c n)
            = option_map (setClassName r c) (nodeAt p n).
Proof.
  induction p as [|i p IH]; intros n; [reflexivity|].
  destruct n as [d|r' t c' kids]; [reflexivity|].
  cbn [setClassName nodeAt]. rewrite nth_error_map.
  destruct (nth_error kids i) as [k|]; [apply IH|reflexivity].
Qed.

Lemma sameShape_refl (doc : Dom.node) : sameShape doc doc.
Proof. split; [reflexivity|]. intros p. now split. Qed.

Lemma sameShape_trans (a b c : Dom.node) :
  sameShape a b -> sameShape b c -> sameShape a c.
Proof.
  intros [H1 H2] [H3 H4]. split.
  - intros parent. now rewrite H3, H1.
  - intros p. destruct (H2 p) as [E1 E2], (H4 p) as [E3 E4].
    split; congruence.
Qed.

Lemma sameShape_setClassName (r : nat) (c : str) (doc : Dom.node) :
  sameShape doc (setClassName r c doc).
Proof.
  split; [intros parent; apply walkText_setClassName|].
  intros p. rewrite nodeAt_setClassName.
  destruct (nodeAt p doc) as [[d|r' t c' kids]|]; simpl; try now split.
  now rewrite length_map.
Qed.

(** What the loop of [updateHighlightMode] does to the document. *)
Lemma forEachClass_run (mode : HighlightMode)
    (l : list (HighlightId * HighlightInfo)) :
  forall doc, exists doc',
    forEachClass mode l doc = Ok tt doc'
    /\ sameShape doc doc'
    /\ textContent doc' = textContent doc
    /\ isText doc' = isText doc
    /\ forall p ref t c kids,
         nodeAt p doc = Some (Elem ref t c kids) ->
         exists kids',
           nodeAt p doc' = Some (Elem ref t (classAfter mode l ref c) kids').
Proof.
  induction l as [|[k h] l IH]; intros doc.
  - exists doc. split; [reflexivity|]. split; [apply sameShape_refl|].
    split; [reflexivity|]. split; [reflexivity|].
    intros p ref t c kids H. now exists kids.
  - cbn [forEachClass]. unfold bind at 1. unfold get at 1.
    unfold bind at 1. unfold put at 1.
    set (doc1 := setClassName (element h)
                   (getHighlightClass mode (manipulation_type (manipulation h)))
                   doc).
    destruct (IH doc1) as (doc' & E & Hs & Ht & Hi & Hc).
    exists doc'. split; [exact E|].
    split; [exact (sameShape_trans _ _ _ (sameShape_setClassName _ _ doc) Hs)|].
    split; [rewrite Ht; apply textContent_setClassName|].
    split; [rewrite Hi; now destruct doc|].
    intros p ref t c kids H.
    assert (H1 : nodeAt p doc1
                 = Some (Elem ref t
                           (if match ref with
                               | Some x => x =? element h
                               | None => false
                               end
                            then getHighlightClass mode
                                   (manipulation_type (manipulation h))
                            else c)
                           (map (setClassName (element h)
                                   (getHighlightClass mode
                                      (manipulation_type (manipulation h))))
                                kids)))
      by (unfold doc1; now rewrite nodeAt_setClassName, H).
    destruct (Hc _ _ _ _ _ H1) as [kids' Hk]. now exists kids'.
Qed.

Lemma classAfter_other (mode : HighlightMode)
    (l : list (HighlightId * HighlightInfo)) (ref : option nat) (c : str) :
  (forall e, In e l -> ref <> Some (element (snd e))) ->
  classAfter mode l ref c = c.
Proof.
  unfold classAfter. revert c. induction l as [|e l IH]; intros c H;
    [reflexivity|].
  cbn [fold_left].
  assert (E : match ref with
              | Some x => x =? element (snd e)
              | None => false
              end = false).
  { destruct ref as [x|]; [|reflexivity]. apply Nat.eqb_neq.
    intros ->. now apply (H e (or_introl eq_refl)). }
  rewrite E. apply IH. intros e' He'. apply H. now right.
Qed.

Lemma classAfter_registered (mode : HighlightMode)
    (l : list (HighlightId * HighlightInfo)) (e : HighlightId * HighlightInfo)
    (c : str) :
  NoDup (map (fun e => element (snd e)) l) -> In e l ->
  classAfter mode l (Some (element (snd e))) c
  = getHighlightClass mode (manipulation_type (manipulation (snd e))).
Proof.
  unfold classAfter. revert c. induction l as [|x l IH]; intros c Hnd Hin;
    [contradiction|].
  cbn [fold_left]. cbn [map] in Hnd. apply NoDup_cons_iff in Hnd as [Hx Hnd].
  destruct Hin as [->|Hin].
  - rewrite Nat.eqb_refl.
    apply (classAfter_other mode l (Some (element (snd e)))).
    intros e' He' E. injection E as E. apply Hx. rewrite E.
    apply in_map_iff. now exists e'.
  - destruct (element (snd e) =? element (snd x)) eqn:E; [|now apply IH].
    exfalso. apply Nat.eqb_eq in E. apply Hx. rewrite <- E.
    apply in_map_iff. now exists e.
Qed.

End ModeFacts.

Section ShapeInvariance.

Variables doc doc' : Dom.node.
Hypothesis shape : sameShape doc doc'.

Lemma sameShape_text (p : path) (d : str) :
  nodeAt p doc' = Some (Text d) <-> nodeAt p doc = Some (Text d).
Proof.
  destruct shape as [_ H]. destruct (H p) as [_ E].
  destruct (nodeAt p doc') as [[d1|? ? ? ?]|], (nodeAt p doc) as [[d2|? ? ? ?]|];
    simpl in E; split; intros X; try discriminate; congruence.
Qed.

Lemma rangeToString_sameShape (r : Range) :
  rangeToString doc' r = rangeToString doc r.
Proof.
  unfold rangeToString. destruct shape as [Hw _]. rewrite Hw.
  pose proof (sameShape_text (startContainer r)) as Hs.
  pose proof (sameShape_text (endContainer r)) as He.
  assert (E1 : forall A (f : str -> A) (g : A) p,
             (forall d, nodeAt p doc' = Some (Text d)
                        <-> nodeAt p doc = Some (Text d)) ->
             match nodeAt p doc' with Some (Text d) => f d | _ => g end
             = match nodeAt p doc with Some (Text d) => f d | _ => g end).
  { intros A f g p H.
    destruct (nodeAt p doc') as [[d1|? ? ? ?]|],
             (nodeAt p doc) as [[d2|? ? ? ?]|]; try reflexivity;
      try (pose proof (proj2 (H _) eq_refl) as X; discriminate X);
      pose proof (proj1 (H _) eq_refl) as X;
      first [discriminate X | injection X as ->; reflexivity]. }
  rewrite (E1 _ _ _ _ He).
  destruct (path_eqb (startContainer r) (endContainer r));
    destruct (nodeAt (startContainer r) doc') as [[d1|? ? ? ?]|],
             (nodeAt (startContainer r) doc) as [[d2|? ? ? ?]|];
    try reflexivity;
    try (pose proof (proj2 (Hs _) eq_refl) as X; discriminate X);
    pose proof (proj1 (Hs _) eq_refl) as X;
    first [discriminate X | injection X as ->; reflexivity].
Qed.

Lemma createRangeSetStart_sameShape (p : path) (o : nat) :
  match createRangeSetStart p o doc', createRangeSetStart p o doc with
  | Ok r1 d1, Ok r2 d2 => r1 = r2 /\ d1 = doc' /\ d2 = doc
  | Throw _ _, Throw _ _ => True
  | _, _ => False
  end.
Proof.
  unfold createRangeSetStart, bind, get, ret, throw.
  destruct shape as [_ H]. destruct (H p) as [E _].
  destruct (nodeAt p doc') as [n1|], (nodeAt p doc) as [n2|]; simpl in E;
    try discriminate; [|exact I].
  injection E as E. rewrite E. now destruct (nodeLength n2 <? o).
Qed.

Lemma setEnd_sameShape (r : Range) (p : path) (o : nat) :
  match setEnd r p o doc', setEnd r p o doc with
  | Ok r1 d1, Ok r2 d2 => r1 = r2 /\ d1 = doc' /\ d2 = doc
  | Throw _ _, Throw _ _ => True
  | _, _ => False
  end.
Proof.
  unfold setEnd, bind, get, ret, throw.
  destruct shape as [_ H]. destruct (H p) as [E _].
  destruct (nodeAt p doc') as [n1|], (nodeAt p doc) as [n2|]; simpl in E;
    try discriminate; [|exact I].
  injection E as E. rewrite E. destruct (nodeLength n2 <? o); [exact I|].
  now destruct (bpCompare p o (startContainer r) (Dom.startOffset r)).
Qed.

Lemma newTextMatcher_sameShape :
  newTextMatcher doc'
  = mkTextMatcher doc' (textNodes (newTextMatcher doc))
      (textPositionMap (newTextMatcher doc))
      (fullNormalizedText (newTextMatcher doc)).
Proof.
  unfold newTextMatcher. destruct shape as [Hw _]. now rewrite Hw.
Qed.

Lemma createDOMRange_sameShape (a b : nat) :
  createDOMRange (newTextMatcher doc') a b
  = createDOMRange (newTextMatcher doc) a b.
Proof.
  rewrite newTextMatcher_sameShape.
  unfold createDOMRange, findNodeAtPosition.
  cbn [textPositionMap rootElement].
  change (rootElement (newTextMatcher doc)) with doc.
  destruct (findNodeLoop (textPositionMap (newTextMatcher doc)) 0 a)
    as [la|]; [|reflexivity].
  destruct (match b with
            | 0 => None
            | S e => findNodeLoop (textPositionMap (newTextMatcher doc)) 0 e
            end) as [lb|]; [|reflexivity].
  unfold bind.
  pose proof (createRangeSetStart_sameShape (tpath (locNode la)) (offset la))
    as H1.
  destruct (createRangeSetStart (tpath (locNode la)) (offset la) doc')
    as [r1 d1|? ?],
    (createRangeSetStart (tpath (locNode la)) (offset la) doc)
    as [r2 d2|? ?]; try contradiction; [|reflexivity].
  destruct H1 as (-> & -> & ->).
  pose proof (setEnd_sameShape r2 (tpath (locNode lb)) (offset lb + 1)) as H2.
  destruct (setEnd r2 (tpath (locNode lb)) (offset lb + 1) doc')
    as [r3 d3|? ?],
    (setEnd r2 (tpath (locNode lb)) (offset lb + 1) doc)
    as [r4 d4|? ?]; try contradiction; [|reflexivity].
  destruct H2 as (-> & -> & ->).
  unfold get, ret. now rewrite rangeToString_sameShape.
Qed.

Lemma searchLoop_sameShape (target : str) (fuel : nat) :
  forall start,
    searchLoop fuel (newTextMatcher doc') target start
    = searchLoop fuel (newTextMatcher doc) target start.
Proof.
  induction fuel as [|fuel IH]; intros start; [reflexivity|].
  rewrite !searchLoop_S.
  assert (E : fullNormalizedText (newTextMatcher doc')
              = fullNormalizedText (newTextMatcher doc))
    by now rewrite newTextMatcher_sameShape.
  rewrite E.
  destruct (indexOf (fullNormalizedText (newTextMatcher doc)) target start)
    as [matchIndex|]; [|reflexivity].
  now rewrite IH, createDOMRange_sameShape.
Qed.

(** The matcher finds the same ranges in both documents. *)
Lemma locate_sameShape (text : str) :
  locate (newTextMatcher doc') text = locate (newTextMatcher doc) text.
Proof.
  assert (E : fullNormalizedText (newTextMatcher doc')
              = fullNormalizedText (newTextMatcher doc))
    by now rewrite newTextMatcher_sameShape.
  assert (Hexact : findTextRanges (newTextMatcher doc') text
                   = findTextRanges (newTextMatcher doc) text).
  { unfold findTextRanges, findTextMatches. rewrite E.
    destruct (length (normalizeText text) =? 0); [reflexivity|].
    now rewrite searchLoop_sameShape. }
  unfold locate. rewrite Hexact.
  destruct (length (findTextRanges (newTextMatcher doc) text) =? 0);
    [|reflexivity].
  unfold findFuzzyTextRanges. rewrite E.
  destruct (length (normalizeText text) <? 10); [reflexivity|].
  destruct (length (split space (normalizeText text)) <? 3); [reflexivity|].
  apply flat_map_ext. intros i. unfold fuzzyStep.
  now rewrite createDOMRange_sameShape.
Qed.

End ShapeInvariance.

(** X14.  [updateHighlightMode] returns, with the mode set, and touches
    nothing but the classes of elements: the registry and the text of the
    document are as before, every text node is where it was, and the
    matcher finds the same ranges for every quotation as before the call.
    Called with the mode the highlighter is already in, it leaves the state
    as it is. *)
Theorem updateHighlightMode_keeps_text (mode : HighlightMode) (st : State) :
  exists st',
    updateHighlightMode mode st = Ok tt st'
    /\ currentMode st' = mode
    /\ highlightedElements st' = highlightedElements st
    /\ nextRef st' = nextRef st
    /\ textContent (body st') = textContent (body st)
    /\ walkText [] (body st') = walkText [] (body st)
    /\ (forall text,
          locate (newTextMatcher (body st')) text
          = locate (newTextMatcher (body st)) text)
    /\ (mode = currentMode st -> st' = st).
Proof.
  unfold updateHighlightMode. unfold bind at 1. unfold get at 1.
  destruct (mode_eqb mode (currentMode st)) eqn:Em.
  - exists st. split; [reflexivity|].
    split; [now destruct mode, (currentMode st)|].
    repeat split; reflexivity.
  - unfold bind at 1. unfold put at 1. unfold bind at 1. unfold get at 1.
    unfold onDocument. cbn [body highlightedElements currentMode].
    destruct (forEachClass_run mode (highlightedElements st) (body st))
      as (doc' & E & Hs & Ht & _ & _).
    rewrite E. eexists. split; [reflexivity|].
    unfold setBody. cbn [body highlightedElements currentMode nextRef].
    split; [reflexivity|]. split; [reflexivity|]. split; [reflexivity|].
    split; [exact Ht|]. split; [apply Hs|].
    split; [intros text; exact (locate_sameShape _ _ Hs text)|].
    intros ->. now destruct (currentMode st).
Qed.

(** X15.  When the mode changes and every registered highlight has an
    element of its own, [updateHighlightMode] gives every registered
    element of the document the class of its manipulation type in the new
    mode, and leaves the class of every other element as it was; tags and
    identities stay. *)
Theorem updateHighlightMode_sets_classes (mode : HighlightMode) (st : State) :
  mode <> currentMode st ->
  NoDup (map (fun e => element (snd e)) (highlightedElements st)) ->
  exists st',
    updateHighlightMode mode st = Ok tt st'
    /\ (forall p e t c kids,
          In e (highlightedElements st) ->
          nodeAt p (body st) = Some (Elem (Some (element (snd e))) t c kids) ->
          exists kids',
            nodeAt p (body st')
            = Some (Elem (Some (element (snd e))) t
                      (getHighlightClass mode
                         (manipulation_type (manipulation (snd e))))
                      kids'))
    /\ (forall p ref t c kids,
          (forall e, In e (highlightedElements st) ->
                     ref <> Some (element (snd e))) ->
          nodeAt p (body st) = Some (Elem ref t c kids) ->
          exists kids', nodeAt p (body st') = Some (Elem ref t c kids')).
Proof.
  intros Hmode Hnd.
  unfold updateHighlightMode. unfold bind at 1. unfold get at 1.
  destruct (mode_eqb mode (currentMode st)) eqn:Em;
    [exfalso; apply Hmode; now destruct mode, (currentMode st)|].
  unfold bind at 1. unfold put at 1. unfold bind at 1. unfold get at 1.
  unfold onDocument. cbn [body highlightedElements currentMode].
  destruct (forEachClass_run mode (highlightedElements st) (body st))
    as (doc' & E & _ & _ & _ & Hc).
  rewrite E. eexists. split; [reflexivity|].
  unfold setBody. cbn [body]. split.
  - intros p e t c kids He Hn.
    destruct (Hc _ _ _ _ _ Hn) as [kids' Hk]. exists kids'.
    now rewrite (classAfter_registered mode _ e c Hnd He) in Hk.
  - intros p ref t c kids Hother Hn.
    destruct (Hc _ _ _ _ _ Hn) as [kids' Hk]. exists kids'.
    now rewrite (classAfter_other mode _ ref c Hother) in Hk.
Qed.

Lemma updateHighlightMode_sets_classes_witness :
  low_contrast <> full_color
  /\ NoDup (map (fun e => element (snd e))
              [((0, 0), mkHighlightInfo 0 wholeSentence (0, 0));
               ((1, 0), mkHighlightInfo 2 innerWords (1, 0))])
  /\ exists st',
       updateHighlightMode low_contrast
         (mkState urgentBodyHighlighted 3
            [((0, 0), mkHighlightInfo 0 wholeSentence (0, 0));
             ((1, 0), mkHighlightInfo 2 innerWords (1, 0))]
            full_color) = Ok tt st'
       /\ (forall p e t c kids,
             In e [((0, 0), mkHighlightInfo 0 wholeSentence (0, 0));
                   ((1, 0), mkHighlightInfo 2 innerWords (1, 0))] ->
             nodeAt p urgentBodyHighlighted
             = Some (Elem (Some (element (snd e))) t c kids) ->
             exists kids',
               nodeAt p (body st')
               = Some (Elem (Some (element (snd e))) t
                         (getHighlightClass low_contrast
                            (manipulation_type (manipulation (snd e))))
                         kids'))
       /\ (forall p ref t c kids,
             (forall e,
                In e [((0, 0), mkHighlightInfo 0 wholeSentence (0, 0));
                      ((1, 0), mkHighlightInfo 2 innerWords (1, 0))] ->
                ref <> Some (element (snd e))) ->
             nodeAt p urgentBodyHighlighted = Some (Elem ref t c kids) ->
             exists kids', nodeAt p (body st') = Some (Elem ref t c kids')).
Proof.
  assert (Hmode : low_contrast <> full_color) by discriminate.
  assert (Hnd : NoDup (map (fun e => element (snd e))
                         [((0, 0), mkHighlightInfo 0 wholeSentence (0, 0));
                          ((1, 0), mkHighlightInfo 2 innerWords (1, 0))])).
  { simpl. constructor; [simpl; intros [H|[]]; discriminate|].
    constructor; [simpl; tauto|constructor]. }
  split; [exact Hmode|]. split; [exact Hnd|].
  exact (updateHighlightMode_sets_classes low_contrast
           (mkState urgentBodyHighlighted 3
              [((0, 0), mkHighlightInfo 0 wholeSentence (0, 0));
               ((1, 0), mkHighlightInfo 2 innerWords (1, 0))]
              full_color) Hmode Hnd).
Defined.

(** ** The registry after [highlightManipulations] *)

Section DistinctFacts.

(** What [createHighlightElement] does to the highlighter: the element it
    returns is a new object. *)
Lemma createHighlightElement_fresh (range : Range)
    (manipulation : ManipulationBlock) (highlightId : HighlightId) (st : State) :
  exists o st',
    createHighlightElement range manipulation highlightId st = Ok o st'
    /\ highlightedElements st' = highlightedElements st
    /\ currentMode st' = currentMode st
    /\ nextRef st <= nextRef st'
    /\ forall r, o = Some r -> nextRef st <= r < nextRef st'.
Proof.
  assert (Hdone : forall (o : option nat) (n : nat),
            (forall r, o = Some r -> nextRef st <= r < n) ->
            nextRef st <= n ->
            forall d, exists o' st',
              Ok o (mkState d n (highlightedElements st) (currentMode st))
              = Ok o' st'
              /\ highlightedElements st' = highlightedElements st
              /\ currentMode st' = currentMode st
              /\ nextRef st <= nextRef st'
              /\ forall r, o' = Some r -> nextRef st <= r < nextRef st').
  { intros o n Ho Hn d. eexists _, _. split; [reflexivity|].
    simpl. split; [reflexivity|]. split; [reflexivity|].
    split; [exact Hn|exact Ho]. }
  unfold createHighlightElement, tryCatch. unfold bind at 1. unfold get at 1.
  destruct (collapsed range || isRangeHighlighted (body st) range).
  - exists None, st. unfold ret. split; [reflexivity|].
    split; [reflexivity|]. split; [reflexivity|]. split; [lia|discriminate].
  - unfold bind at 1. rewrite createSpan_run.
    unfold bind at 1. unfold onDocument at 1.
    cbn [body setBody nextRef highlightedElements currentMode].
    destruct (surroundContents range _ (body st)) as [[] d|e d].
    + unfold ret, setBody. simpl. apply Hdone; [|lia].
      intros r E. injection E as <-. lia.
    + unfold createHighlightElementAlternative, tryCatch.
      unfold bind at 1. unfold onDocument at 1.
      cbn [body setBody nextRef highlightedElements currentMode].
      destruct (extractContents range d) as [[contents r'] d1|e1 d1].
      * unfold bind at 1. rewrite createSpan_run.
        unfold bind at 1. unfold onDocument at 1.
        cbn [body setBody nextRef highlightedElements currentMode].
        destruct (insertNode r' _ d1) as [[] d2|e2 d2]; unfold ret, setBody;
          simpl.
        -- apply Hdone; [|lia]. intros r E. injection E as <-. lia.
        -- apply Hdone; [discriminate|lia].
      * unfold ret, setBody. simpl. apply Hdone; [discriminate|lia].
Qed.

Lemma id_eqb_eq (k k' : HighlightId) :
  (fst k =? fst k') && (snd k =? snd k') = true <-> k = k'.
Proof.
  destruct k as [a b], k' as [a' b']. simpl.
  rewrite andb_true_iff, !Nat.eqb_eq. split; [intros [-> ->]|intros E];
    [reflexivity|now injection E].
Qed.

Lemma mapSet_In (k : HighlightId) (v : HighlightInfo)
    (m : list (HighlightId * HighlightInfo)) (e : HighlightId * HighlightInfo) :
  In e (mapSet k v m) -> e = (k, v) \/ In e m.
Proof.
  induction m as [|[k' v'] m IH]; simpl.
  - intros [<-|[]]. now left.
  - destruct ((fst k =? fst k') && (snd k =? snd k')); simpl.
    + intros [<-|H]; auto.
    + intros [<-|H]; auto. destruct (IH H); auto.
Qed.

Lemma mapSet_keys (k : HighlightId) (v : HighlightInfo)
    (m : list (HighlightId * HighlightInfo)) :
  NoDup (map fst m) -> NoDup (map fst (mapSet k v m)).
Proof.
  induction m as [|[k' v'] m IH]; simpl; intros Hnd.
  - repeat constructor. simpl. tauto.
  - apply NoDup_cons_iff in Hnd as [Hk Hnd].
    destruct ((fst k =? fst k') && (snd k =? snd k')) eqn:E; simpl.
    + apply id_eqb_eq in E. subst k'. now constructor.
    + constructor; [|now apply IH].
      intros Hin. apply in_map_iff in Hin as (e & Ee & He).
      apply mapSet_In in He as [->|He].
      * simpl in Ee. subst k'.
        now rewrite (proj2 (id_eqb_eq k k) eq_refl) in E.
      * apply Hk. apply in_map_iff. now exists e.
Qed.

Lemma mapSet_elements (k : HighlightId) (v : HighlightInfo)
    (m : list (HighlightId * HighlightInfo)) :
  NoDup (map (fun e => element (snd e)) m) ->
  ~ In (element v) (map (fun e => element (snd e)) m) ->
  NoDup (map (fun e => element (snd e)) (mapSet k v m)).
Proof.
  induction m as [|[k' v'] m IH]; simpl; intros Hnd Hv.
  - repeat constructor. simpl. tauto.
  - apply NoDup_cons_iff in Hnd as [Hk Hnd].
    destruct ((fst k =? fst k') && (snd k =? snd k')); simpl.
    + constructor; [tauto|exact Hnd].
    + constructor; [|apply IH; tauto].
      intros Hin. apply in_map_iff in Hin as (e & Ee & He).
      apply mapSet_In in He as [->|He].
      * simpl in Ee. apply Hv. now left.
      * apply Hk. apply in_map_iff. now exists e.
Qed.

Lemma preserves_step {A B} (I : State -> Prop) (m : M State A)
    (k : A -> M State B) :
  (forall st, I st ->
     match m st with
     | Ok a s => I (finalState (k a s))
     | Throw _ s => I s
     end) ->
  preserves I (bind m k).
Proof.
  intros H st Hst. specialize (H st Hst). unfold bind.
  now destruct (m st).
Qed.

Variable relocate : Dom.node -> Range -> Dom.node -> Range -> Range.
Variable mode : HighlightMode.

Let kept (st : State) : Prop := registryDistinct st /\ currentMode st = mode.

Lemma kept_forEachRange (manipulation : ManipulationBlock) (index : nat)
    (ranges : list DOMRange) :
  forall rangeIndex live,
    preserves kept
      (forEachRange relocate manipulation index ranges rangeIndex live).
Proof.
  induction ranges as [|domRange rest IH]; intros rangeIndex live;
    cbn [forEachRange]; [apply preserves_ret|].
  apply preserves_bind; [apply preserves_get|]. intros before.
  apply preserves_step. intros st [(Hk & He & Hf) Hm].
  destruct (createHighlightElement_fresh (live (range domRange)) manipulation
              (index, rangeIndex) st) as (o & st1 & E & Hreg & Hmode & Hn & Hr).
  rewrite E.
  assert (Hrest : forall a : unit,
            preserves kept
              (after <- get ;;
               forEachRange relocate manipulation index rest (S rangeIndex)
                 (fun x => relocate (body before) (live (range domRange))
                             (body after) (live x)))%monad)
    by (intros a; apply preserves_bind; [apply preserves_get|];
        intros after; apply IH).
  assert (Hst1 : kept st1).
  { split; [|congruence]. unfold registryDistinct. rewrite Hreg.
    split; [exact Hk|]. split; [exact He|].
    rewrite Forall_forall in *. intros e Hin. specialize (Hf e Hin). lia. }
  destruct o as [el|].
  - unfold bind at 1. unfold register at 1. apply (Hrest tt).
    destruct (Hr el eq_refl) as [Hlo Hhi].
    split; [|exact (proj2 Hst1)]. unfold registryDistinct.
    cbn [highlightedElements nextRef]. rewrite Hreg.
    split; [now apply mapSet_keys|]. split.
    + apply mapSet_elements; [exact He|]. cbn [element].
      intros Hin. apply in_map_iff in Hin as (e & Ee & Hin).
      rewrite Forall_forall in Hf. specialize (Hf e Hin). lia.
    + rewrite Forall_forall in *. intros e Hin.
      apply mapSet_In in Hin as [->|Hin]; [simpl; lia|].
      specialize (Hf e Hin). lia.
  - unfold bind at 1. unfold ret at 1. apply (Hrest tt). exact Hst1.
Qed.

Lemma kept_forEachManipulation (manipulations : list ManipulationBlock) :
  forall index,
    preserves kept (forEachManipulation relocate manipulations index).
Proof.
  induction manipulations as [|m rest IH]; intros index;
    cbn [forEachManipulation]; [apply preserves_ret|].
  apply preserves_bind; [|intros _; apply IH].
  apply preserves_bind; [apply preserves_get|]. intros st.
  apply kept_forEachRange.
Qed.

Lemma mode_forEachHighlight (l : list (HighlightId * HighlightInfo)) :
  preserves (fun s => currentMode s = mode) (forEachHighlight l).
Proof.
  induction l as [|[k highlight] l IH]; cbn [forEachHighlight];
    [apply preserves_ret|].
  apply preserves_bind; [|intros _; exact IH].
  apply preserves_tryCatch; [|intros e; apply preserves_ret].
  apply preserves_onDocument. intros st doc next H. exact H.
Qed.

Lemma kept_highlightManipulations (manipulations : list ManipulationBlock)
    (st : State) :
  exists st',
    highlightManipulations relocate manipulations mode st = Ok tt st'
    /\ kept st'.
Proof.
  destruct (highlightManipulations_run relocate manipulations mode st)
    as (cleared & st' & Ec & Hreg & _ & Ef & Eh).
  exists st'. split; [exact Eh|].
  pose proof (kept_forEachManipulation manipulations 0 cleared) as Hp.
  rewrite Ef in Hp. apply Hp.
  split.
  - unfold registryDistinct. rewrite Hreg. repeat constructor.
  - destruct (clearHighlights_spec
                (mkState (body st) (nextRef st) (highlightedElements st) mode))
      as (cleared' & Ec' & _ & Hmode & _).
    rewrite Ec in Ec'. injection Ec' as <-. rewrite Hmode.
    apply (mode_forEachHighlight (highlightedElements st)). reflexivity.
Qed.

End DistinctFacts.

(** X16.  Whatever the state before, after [highlightManipulations] the
    highlighter is in the mode it was given, no id is registered twice, no
    element is registered under two ids, and every registered element is
    an object created by the highlighter. *)
Theorem highlightManipulations_registry_distinct
    (relocate : Dom.node -> Range -> Dom.node -> Range -> Range)
    (manipulations : list ManipulationBlock) (mode : HighlightMode) (st : State) :
  exists st',
    highlightManipulations relocate manipulations mode st = Ok tt st'
    /\ currentMode st' = mode
    /\ NoDup (map fst (highlightedElements st'))
    /\ NoDup (map (fun e => element (snd e)) (highlightedElements st'))
    /\ (forall e, In e (highlightedElements st') ->
          element (snd e) < nextRef st').
Proof.
  destruct (kept_highlightManipulations relocate mode manipulations st)
    as (st' & E & (Hk & He & Hf) & Hm).
  exists st'. split; [exact E|]. split; [exact Hm|].
  split; [exact Hk|]. split; [exact He|]. now apply Forall_forall.
Qed.

(** ** The positions of a fuzzy window *)

Section WindowFacts.

Lemma join_split (s : str) : join [space] (split space s) = s.
Proof.
  induction s as [|c r IH]; [reflexivity|]. simpl split.
  pose proof (split_length space r) as Hl.
  destruct (split space r) as [|w ws] eqn:E; [simpl in Hl; lia|].
  destruct (Ascii.eqb c space) eqn:Ec.
  - apply Ascii.eqb_eq in Ec. subst c. rewrite join_cons2, IH. reflexivity.
  - destruct ws as [|w' ws].
    + simpl in *. now rewrite IH.
    + rewrite join_cons2 in *. simpl. now rewrite <- IH.
Qed.

Lemma join_app (sep : str) (a b : list str) :
  a <> [] -> b <> [] ->
  join sep (a ++ b) = join sep a ++ sep ++ join sep b.
Proof.
  intros Ha Hb. induction a as [|x a IH]; [congruence|].
  destruct a as [|y a].
  - simpl app. destruct b as [|z b]; [congruence|]. now rewrite join_cons2.
  - change ((x :: y :: a) ++ b) with (x :: y :: (a ++ b)).
    rewrite !join_cons2. change (y :: a ++ b) with ((y :: a) ++ b).
    rewrite IH by discriminate. now rewrite <- !app_assoc.
Qed.

(** The text is what precedes the window, a space, the window, and what
    follows it. *)
Lemma window_position (words : list str) (windowSize i : nat) :
  0 < i -> 0 < windowSize -> i + windowSize <= length words ->
  exists tail,
    join [space] words
    = join [space] (slice words 0 i) ++ space
      :: windowText words windowSize i ++ tail.
Proof.
  intros Hi Hw Hlen. unfold windowText, slice.
  rewrite skipn_O, Nat.sub_0_r.
  replace (i + windowSize - i) with windowSize by lia.
  assert (E0 : join [space] words
               = join [space] (firstn i words ++ skipn i words))
    by now rewrite firstn_skipn.
  rewrite E0. clear E0.
  assert (Ha : firstn i words <> []).
  { intros E. apply (f_equal (@length str)) in E.
    rewrite length_firstn in E. simpl in E. lia. }
  assert (Hb : skipn i words <> []).
  { intros E. apply (f_equal (@length str)) in E.
    rewrite length_skipn in E. simpl in E. lia. }
  rewrite (join_app _ _ _ Ha Hb).
  assert (E1 : join [space] (skipn i words)
               = join [space] (firstn windowSize (skipn i words)
                               ++ skipn windowSize (skipn i words)))
    by now rewrite firstn_skipn.
  rewrite E1. clear E1.
  assert (Hc : firstn windowSize (skipn i words) <> []).
  { intros E. apply (f_equal (@length str)) in E.
    rewrite length_firstn, length_skipn in E. simpl in E. lia. }
  destruct (skipn windowSize (skipn i words)) as [|z rest] eqn:Er.
  - exists []. now rewrite !app_nil_r.
  - exists ([space] ++ join [space] (z :: rest)).
    rewrite (join_app _ _ _ Hc) by discriminate. reflexivity.
Qed.

Lemma firstn_removelast {A} (w tail : list A) :
  forall c, firstn (length w) (c :: w ++ tail) = removelast (c :: w).
Proof.
  induction w as [|x w IH]; intros c; [reflexivity|].
  simpl length. rewrite <- app_comm_cons, firstn_cons, IH. reflexivity.
Qed.

End WindowFacts.

(** X17.  The range [findFuzzyTextRanges] asks for a window is the one
    [createDOMRange] builds from [windowStart], the length of the words
    before the window joined by spaces, to [windowStart] plus the length
    of the window.  For the first window that is where the window lies in
    the concatenated text; for every later one [windowStart] is the
    position of the space before the window, so that the range asked for
    begins and ends one code unit before the window does. *)
Theorem fuzzy_window_positions (tm : TextMatcher) (normalizedTarget : str)
    (threshold : float) (windowSize i : nat) :
  let full := fullNormalizedText tm in
  let fullTextWords := split space full in
  let window := windowText fullTextWords windowSize i in
  let windowStart := length (join [space] (slice fullTextWords 0 i)) in
  0 < windowSize -> i + windowSize <= length fullTextWords ->
  (forall d,
     In d (fuzzyStep tm normalizedTarget threshold fullTextWords windowSize i) ->
     createDOMRange tm windowStart (windowStart + length window) = Some d)
  /\ (i = 0 ->
      windowStart = 0 /\ substring full 0 (length window) = window)
  /\ (0 < i ->
      nth_error full windowStart = Some space
      /\ substring full (windowStart + 1) (windowStart + 1 + length window)
         = window
      /\ substring full windowStart (windowStart + length window)
         = removelast (space :: window)).
Proof.
  cbv zeta. intros Hw Hlen. split; [|split].
  - intros d. unfold fuzzyStep.
    destruct (reaches _ _); [|contradiction].
    destruct (createDOMRange tm _ _) as [r|]; [|contradiction].
    intros [<-|[]]. reflexivity.
  - intros ->. split; [reflexivity|].
    unfold windowText, slice, substring.
    rewrite !skipn_O, Nat.sub_0_r, Nat.add_0_l, Nat.sub_0_r.
    set (words := split space (fullNormalizedText tm)) in *.
    assert (E0 : fullNormalizedText tm
                 = join [space] (firstn windowSize words
                                 ++ skipn windowSize words))
      by (rewrite firstn_skipn; symmetry; apply join_split).
    rewrite E0. clear E0.
    assert (Ha : firstn windowSize words <> []).
    { intros E. apply (f_equal (@length str)) in E.
      rewrite length_firstn in E. simpl in E. lia. }
    destruct (skipn windowSize words) as [|z rest].
    + rewrite app_nil_r. apply firstn_all.
    + rewrite (join_app _ _ _ Ha) by discriminate.
      now rewrite firstn_app, Nat.sub_diag, firstn_all, firstn_O, app_nil_r.
  - intros Hi.
    destruct (window_position (split space (fullNormalizedText tm))
                windowSize i Hi Hw Hlen) as [tail E].
    rewrite join_split in E.
    set (before := join [space]
                     (slice (split space (fullNormalizedText tm)) 0 i)) in *.
    set (window := windowText (split space (fullNormalizedText tm))
                     windowSize i) in *.
    rewrite E. unfold substring. split; [|split].
    + rewrite nth_error_app2 by lia. now rewrite Nat.sub_diag.
    + replace (length before + 1) with (length (before ++ [space]))
        by (rewrite length_app; simpl; lia).
      replace (before ++ space :: window ++ tail)
        with ((before ++ [space]) ++ window ++ tail)
        by (now rewrite <- app_assoc).
      rewrite skipn_length_app.
      replace (length (before ++ [space]) + length window
               - length (before ++ [space])) with (length window) by lia.
      apply firstn_length_app.
    + rewrite skipn_length_app.
      replace (length before + length window - length before)
        with (length window) by lia.
      apply firstn_removelast.
Qed.

Lemma fuzzy_window_positions_witness :
  0 < 2
  /\ 1 + 2 <= length (split space (fullNormalizedText (newTextMatcher fourWords)))
  /\ (forall d,
        In d (fuzzyStep (newTextMatcher fourWords) (lit "bb cc") 0.7%float
                (split space (fullNormalizedText (newTextMatcher fourWords)))
                2 1) ->
        createDOMRange (newTextMatcher fourWords)
          (length (join [space]
                     (slice (split space
                               (fullNormalizedText (newTextMatcher fourWords)))
                            0 1)))
          (length (join [space]
                     (slice (split space
                               (fullNormalizedText (newTextMatcher fourWords)))
                            0 1))
           + length (windowText
                       (split space
                          (fullNormalizedText (newTextMatcher fourWords)))
                       2 1))
        = Some d)
  /\ (1 = 0 ->
      length (join [space]
                (slice (split space
                          (fullNormalizedText (newTextMatcher fourWords)))
                       0 1)) = 0
      /\ substring (fullNormalizedText (newTextMatcher fourWords)) 0
           (length (windowText
                      (split space
                         (fullNormalizedText (newTextMatcher fourWords)))
                      2 1))
         = windowText
             (split space (fullNormalizedText (newTextMatcher fourWords))) 2 1)
  /\ (0 < 1 ->
      nth_error (fullNormalizedText (newTextMatcher fourWords))
        (length (join [space]
                   (slice (split space
                             (fullNormalizedText (newTextMatcher fourWords)))
                          0 1)))
      = Some space
      /\ substring (fullNormalizedText (newTextMatcher fourWords))
           (length (join [space]
                      (slice (split space
                                (fullNormalizedText (newTextMatcher fourWords)))
                             0 1)) + 1)
           (length (join [space]
                      (slice (split space
                                (fullNormalizedText (newTextMatcher fourWords)))
                             0 1)) + 1
            + length (windowText
                        (split space
                           (fullNormalizedText (newTextMatcher fourWords)))
                        2 1))
         = windowText
             (split space (fullNormalizedText (newTextMatcher fourWords))) 2 1
      /\ substring (fullNormalizedText (newTextMatcher fourWords))
           (length (join [space]
                      (slice (split space
                                (fullNormalizedText (newTextMatcher fourWords)))
                             0 1)))
           (length (join [space]
                      (slice (split space
                                (fullNormalizedText (newTextMatcher fourWords)))
                             0 1))
            + length (windowText
                        (split space
                           (fullNormalizedText (newTextMatcher fourWords)))
                        2 1))
         = removelast
             (space
              :: windowText
                   (split space (fullNormalizedText (newTextMatcher fourWords)))
                   2 1)).
Proof.
  split; [lia|]. split; [vm_compute; lia|].
  apply (fuzzy_window_positions (newTextMatcher fourWords) (lit "bb cc")
           0.7%float 2 1); [lia|vm_compute; lia].
Defined.

(** The second window of "aa bb cc dd" is "bb cc", at positions 3 to 8;
    the range asked for it, from 2 to 7, covers " bb c". *)
Example fuzzy_window_shifted :
  windowText (split space (fullNormalizedText (newTextMatcher fourWords))) 2 1
  = lit "bb cc"
  /\ length (join [space]
               (slice (split space
                         (fullNormalizedText (newTextMatcher fourWords)))
                      0 1)) = 2
  /\ option_map originalText
       (createDOMRange (newTextMatcher fourWords) 2 (2 + 5))
     = Some (lit " bb c").
Proof. split; [|split]; reflexivity. Qed.

(** ** A highlight that has been created *)

(** X18.  [createHighlightElement] returns [null] and leaves the state as
    it is when the range is collapsed or [isRangeHighlighted] holds of it.
    When it returns an element, neither was the case, the element is a new
    object, and the document holds it: a [span] with the class of the
    manipulation type in the current mode, which the selector of
    [isRangeHighlighted] matches. *)
Theorem createHighlightElement_result (range : Range)
    (manipulation : ManipulationBlock) (highlightId : HighlightId) (st : State) :
  (collapsed range || isRangeHighlighted (body st) range = true ->
   createHighlightElement range manipulation highlightId st = Ok None st)
  /\ (forall el st',
        createHighlightElement range manipulation highlightId st
        = Ok (Some el) st' ->
        collapsed range = false
        /\ isRangeHighlighted (body st) range = false
        /\ nextRef st <= el < nextRef st'
        /\ exists q kids,
             nodeAt q (body st')
             = Some (Elem (Some el) (lit "span")
                       (getHighlightClass (currentMode st)
                          (manipulation_type manipulation)) kids)
             /\ matchesHighlightSelector
                  (Elem (Some el) (lit "span")
                     (getHighlightClass (currentMode st)
                        (manipulation_type manipulation)) kids) = true).
Proof.
  split.
  - intros H. unfold createHighlightElement, tryCatch, bind, get.
    now rewrite H.
  - intros el st' E.
    destruct (createHighlightElement_fresh range manipulation highlightId st)
      as (o & st1 & E1 & _ & _ & _ & Hr).
    rewrite E in E1. injection E1 as <- <-.
    specialize (Hr el eq_refl).
    destruct (createHighlightElement_places _ _ _ _ _ _ E)
      as (Hc1 & Hc2 & q & kids & Hq).
    split; [exact Hc1|]. split; [exact Hc2|]. split; [exact Hr|].
    exists q, kids. split; [exact Hq|apply highlight_class_matches].
Qed.

(** ** Wrapping a range that lies in one text node, and unwrapping it *)

Section OneTextNode.

Lemma children_at {A} (l : list A) (i : nat) (x : A) :
  nth_error l i = Some x ->
  l = firstn i l ++ x :: skipn (i + 1) l /\ length (firstn i l) = i.
Proof.
  intros H. destruct (nth_error_decompose _ _ _ H) as (a & b & -> & <-).
  now rewrite firstn_length_app, skipn_S_length_app.
Qed.

Lemma replaced_child {A} (l : list A) (i : nat) (x y : A) :
  nth_error l i = Some x ->
  nth_error (firstn i l ++ y :: skipn (i + 1) l) i = Some y
  /\ firstn i (firstn i l ++ y :: skipn (i + 1) l) = firstn i l
  /\ skipn (i + 1) (firstn i l ++ y :: skipn (i + 1) l) = skipn (i + 1) l.
Proof.
  intros H. destruct (children_at _ _ _ H) as [_ Hl].
  split; [now apply nth_error_middle|]. split.
  - now apply firstn_at.
  - rewrite <- Hl at 1. apply skipn_S_length_app.
Qed.

Lemma replaceAt_nodeAt (p : path) (new : Dom.node) :
  forall n x, nodeAt p n = Some x -> nodeAt p (replaceAt p new n) = Some new.
Proof.
  induction p as [|i p IH]; intros n x; [reflexivity|].
  destruct n as [d|r t c kids]; simpl; [discriminate|].
  destruct (nth_error kids i) as [k|] eqn:Ek; [|discriminate].
  intros H. simpl.
  destruct (replaced_child _ _ _ (replaceAt p new k) Ek) as (-> & _ & _).
  exact (IH _ _ H).
Qed.

Lemma replaceAt_twice (p : path) (a b : Dom.node) :
  forall n x, nodeAt p n = Some x ->
    replaceAt p b (replaceAt p a n) = replaceAt p b n.
Proof.
  induction p as [|i p IH]; intros n x; [reflexivity|].
  destruct n as [d|r t c kids]; simpl; [discriminate|].
  destruct (nth_error kids i) as [k|] eqn:Ek; [|discriminate].
  intros H. simpl.
  destruct (replaced_child _ _ _ (replaceAt p a k) Ek) as (-> & -> & ->).
  now rewrite (IH _ _ H).
Qed.

Lemma replaceAt_same (p : path) :
  forall n x, nodeAt p n = Some x -> replaceAt p x n = n.
Proof.
  induction p as [|i p IH]; intros n x.
  - simpl. now intros [= ->].
  - destruct n as [d|r t c kids]; simpl; [discriminate|].
    destruct (nth_error kids i) as [k|] eqn:Ek; [|discriminate].
    intros H. rewrite (IH _ _ H). f_equal.
    symmetry. exact (proj1 (children_at _ _ _ Ek)).
Qed.

Lemma commonPrefix_same (p : path) : commonPrefix p p = p.
Proof.
  induction p as [|i p IH]; simpl; [reflexivity|].
  now rewrite Nat.eqb_refl, IH.
Qed.

Lemma path_eqb_refl (p : path) : path_eqb p p = true.
Proof. unfold path_eqb. now destruct (list_eq_dec Nat.eq_dec p p). Qed.

Variables (r : option nat) (t c : str) (kids : list Dom.node).
Variables (i : nat) (d : str).
Hypothesis child : nth_error kids i = Some (Text d).

(** Extracting a part of the text node. *)
Lemma extractRange_in_text (a b : nat) (p : path) :
  a <= b -> b <= length d ->
  forall n, nodeAt p n = Some (Elem r t c kids) ->
    extractRange (p ++ [i]) a (p ++ [i]) b n
    = Some (replaceAt p
              (Elem r t c
                 (firstn i kids ++ Text (firstn a d ++ skipn b d)
                  :: skipn (i + 1) kids)) n,
            [Text (substring d a b)], (p ++ [i], a)).
Proof.
  intros Hab Hb. induction p as [|j p IH]; intros n Hn.
  - simpl in Hn. injection Hn as ->. simpl.
    rewrite Nat.eqb_refl, child.
    apply Nat.leb_le in Hab. apply Nat.leb_le in Hb. now rewrite Hab, Hb.
  - destruct n as [d0|r0 t0 c0 kids0]; simpl in Hn; [discriminate|].
    destruct (nth_error kids0 j) as [k|] eqn:Ek; [|discriminate].
    simpl. rewrite Nat.eqb_refl, Ek. now rewrite (IH k Hn).
Qed.

(** Inserting a node into the text node. *)
Lemma insertInto_in_text (a : nat) (new : Dom.node) (p : path) :
  a <= length d ->
  forall n, nodeAt p n = Some (Elem r t c kids) ->
    insertInto (p ++ [i]) a new n
    = Some [replaceAt p
              (Elem r t c
                 (firstn i kids
                  ++ [Text (firstn a d); new; Text (skipn a d)]
                  ++ skipn (i + 1) kids)) n].
Proof.
  intros Ha. induction p as [|j p IH]; intros n Hn.
  - simpl in Hn. injection Hn as ->. simpl. rewrite child. simpl.
    apply Nat.leb_le in Ha. now rewrite Ha.
  - destruct n as [d0|r0 t0 c0 kids0]; simpl in Hn; [discriminate|].
    destruct (nth_error kids0 j) as [k|] eqn:Ek; [|discriminate].
    simpl. rewrite Ek. now rewrite (IH k Hn).
Qed.

End OneTextNode.

Lemma surroundContents_in_text (r : option nat) (t c : str)
    (kids : list Dom.node) (i : nat) (d : str) (a b : nat) (span : Dom.node)
    (p : path) (doc : Dom.node) :
  nth_error kids i = Some (Text d) ->
  a < b -> b <= length d ->
  nodeAt p doc = Some (Elem r t c kids) ->
  surroundContents (mkRange (p ++ [i]) a (p ++ [i]) b) span doc
  = Ok tt (replaceAt p
             (Elem r t c
                (firstn i kids ++ wrapped d a b span ++ skipn (i + 1) kids))
             doc).
Proof.
  intros child Hab Hb Hn.
  unfold surroundContents. unfold bind at 1. unfold get at 1.
  unfold partiallyContainsNonText, commonAncestorContainer.
  cbn [startContainer endContainer]. rewrite commonPrefix_same.
  rewrite skipn_all. cbn [partialNonText orb].
  unfold bind at 1. unfold extractContents. unfold bind at 1. unfold get at 1.
  unfold collapsed. cbn [startContainer endContainer Dom.startOffset Dom.endOffset].
  rewrite path_eqb_refl.
  assert (Hne : (a =? b) = false) by (apply Nat.eqb_neq; lia).
  rewrite Hne. cbn [andb].
  rewrite (extractRange_in_text r t c kids i d child a b p ltac:(lia) Hb
             doc Hn).
  unfold bind at 1. unfold put at 1. unfold ret at 1.
  set (kids1 := firstn i kids ++ Text (firstn a d ++ skipn b d)
                :: skipn (i + 1) kids).
  set (doc1 := replaceAt p (Elem r t c kids1) doc).
  assert (Hn1 : nodeAt p doc1 = Some (Elem r t c kids1))
    by exact (replaceAt_nodeAt p _ doc _ Hn).
  destruct (replaced_child kids i (Text d) (Text (firstn a d ++ skipn b d))
              child) as (Hc1 & Hf1 & Hs1).
  fold kids1 in Hc1, Hf1, Hs1.
  unfold insertNode. unfold bind at 1. unfold get at 1.
  cbn [startContainer Dom.startOffset].
  assert (Ha : a <= length (firstn a d ++ skipn b d))
    by (rewrite length_app, length_firstn; lia).
  rewrite (insertInto_in_text r t c kids1 i _ Hc1 a
             (withChildren span [Text (substring d a b)]) p Ha doc1 Hn1).
  unfold put. f_equal. unfold doc1. rewrite (replaceAt_twice p _ _ doc _ Hn).
  rewrite Hf1, Hs1. unfold wrapped. f_equal. f_equal. f_equal.
  assert (Hl : length (firstn a d) = a) by (rewrite length_firstn; lia).
  rewrite (firstn_at a _ _ Hl), (skipn_at a _ _ Hl). reflexivity.
Qed.


(** Wrapping a range that lies in one text node: the first way of
    [createHighlightElement] succeeds and splits the text node in three. *)
Lemma wrap_in_text_node (st : State) (p : path)
    (r : option nat) (t c : str) (kids : list Dom.node) (i : nat) (d : str)
    (a b : nat) (manipulation : ManipulationBlock) (highlightId : HighlightId) :
  nodeAt p (body st) = Some (Elem r t c kids) ->
  nth_error kids i = Some (Text d) ->
  a < b -> b <= length d ->
  isRangeHighlighted (body st) (mkRange (p ++ [i]) a (p ++ [i]) b) = false ->
  createHighlightElement (mkRange (p ++ [i]) a (p ++ [i]) b) manipulation
    highlightId st
  = Ok (Some (nextRef st))
       (mkState
          (replaceAt p
             (Elem r t c
                (firstn i kids
                 ++ [Text (firstn a d);
                     Elem (Some (nextRef st)) (lit "span")
                       (getHighlightClass (currentMode st)
                          (manipulation_type manipulation))
                       [Text (substring d a b)];
                     Text (skipn b d)]
                 ++ skipn (i + 1) kids))
             (body st))
          (S (nextRef st)) (highlightedElements st) (currentMode st)).
Proof.
  intros Hn Hc Hab Hb Hh.
  unfold createHighlightElement, tryCatch. unfold bind at 1. unfold get at 1.
  rewrite Hh. unfold collapsed.
  cbn [startContainer endContainer Dom.startOffset Dom.endOffset].
  rewrite path_eqb_refl.
  assert (Hne : (a =? b) = false) by (apply Nat.eqb_neq; lia).
  rewrite Hne. cbn [andb orb].
  unfold bind at 1. rewrite createSpan_run.
  unfold bind at 1. unfold onDocument at 1.
  cbn [body setBody nextRef highlightedElements currentMode].
  rewrite (surroundContents_in_text r t c kids i d a b _ p (body st)
             Hc Hab Hb Hn).
  reflexivity.
Qed.

(** X19.  For a range that lies in one text node, from offset [a] to a
    greater offset [b], and is not taken for highlighted,
    [createHighlightElement] succeeds on its first way, through
    [surroundContents]: it creates one new [span], and in the document the
    text node is replaced by three nodes, the text before [a], the [span]
    holding the text from [a] to [b], and the text from [b] on; nothing
    else changes. *)
Theorem createHighlightElement_in_text_node (st : State) (p : path)
    (r : option nat) (t c : str) (kids : list Dom.node) (i : nat) (d : str)
    (a b : nat) (manipulation : ManipulationBlock) (highlightId : HighlightId) :
  nodeAt p (body st) = Some (Elem r t c kids) ->
  nth_error kids i = Some (Text d) ->
  a < b -> b <= length d ->
  isRangeHighlighted (body st) (mkRange (p ++ [i]) a (p ++ [i]) b) = false ->
  createHighlightElement (mkRange (p ++ [i]) a (p ++ [i]) b) manipulation
    highlightId st
  = Ok (Some (nextRef st))
       (mkState
          (replaceAt p
             (Elem r t c
                (firstn i kids
                 ++ [Text (firstn a d);
                     Elem (Some (nextRef st)) (lit "span")
                       (getHighlightClass (currentMode st)
                          (manipulation_type manipulation))
                       [Text (substring d a b)];
                     Text (skipn b d)]
                 ++ skipn (i + 1) kids))
             (body st))
          (S (nextRef st)) (highlightedElements st) (currentMode st)).
Proof.
  intros Hn Hc Hab Hb Hh.
  exact (wrap_in_text_node st p r t c kids i d a b manipulation highlightId
           Hn Hc Hab Hb Hh).
Qed.

Lemma createHighlightElement_in_text_node_witness :
  nodeAt [] (body (mkState skyBody 0 [] full_color))
  = Some (Elem None (lit "body") []
            [Text (lit "The sky is falling and you should be very afraid of what comes next.")])
  /\ nth_error
       [Text (lit "The sky is falling and you should be very afraid of what comes next.")]
       0
     = Some (Text (lit "The sky is falling and you should be very afraid of what comes next."))
  /\ 23 < 48
  /\ 48 <= length (lit "The sky is falling and you should be very afraid of what comes next.")
  /\ isRangeHighlighted (body (mkState skyBody 0 [] full_color))
       (mkRange ([] ++ [0]) 23 ([] ++ [0]) 48) = false
  /\ createHighlightElement (mkRange ([] ++ [0]) 23 ([] ++ [0]) 48) skySpan
       (0, 0) (mkState skyBody 0 [] full_color)
     = Ok (Some 0)
          (mkState
             (Elem None (lit "body") []
                [Text (lit "The sky is falling and ");
                 Elem (Some 0) (lit "span")
                   (getHighlightClass full_color fear_mongering)
                   [Text (lit "you should be very afraid")];
                 Text (lit " of what comes next.")])
             1 [] full_color).
Proof.
  split; [reflexivity|]. split; [reflexivity|]. split; [lia|].
  split; [simpl; lia|]. split; [reflexivity|].
  exact (createHighlightElement_in_text_node (mkState skyBody 0 [] full_color)
           [] None (lit "body") []
           [Text (lit "The sky is falling and you should be very afraid of what comes next.")]
           0 (lit "The sky is falling and you should be very afraid of what comes next.")
           23 48 skySpan (0, 0) eq_refl eq_refl ltac:(lia) ltac:(simpl; lia)
           eq_refl).
Defined.

Section Unwrapping.

Lemma findRef_Elem (r : nat) r' t c kids :
  findRef r (Elem r' t c kids)
  = if match r' with Some x => x =? r | None => false end then Some []
    else findRefIn r 0 kids.
Proof. reflexivity. Qed.

Lemma findRefIn_app (r : nat) (a b : list Dom.node) :
  forall i,
    findRefIn r i (a ++ b)
    = match findRefIn r i a with
      | Some p => Some p
      | None => findRefIn r (i + length a) b
      end.
Proof.
  induction a as [|k a IH]; intros i; simpl.
  - now rewrite Nat.add_0_r.
  - destruct (findRef r k); [reflexivity|].
    rewrite IH. now rewrite Nat.add_succ_comm.
Qed.

Lemma findRefIn_None (r : nat) (l : list Dom.node) :
  forall i, findRefIn r i l = None ->
    Forall (fun k => findRef r k = None) l.
Proof.
  induction l as [|k l IH]; intros i; simpl; [constructor|].
  destruct (findRef r k) eqn:E; [discriminate|].
  intros H. constructor; [exact E|exact (IH _ H)].
Qed.

Lemma findRefIn_all_None (r : nat) (l : list Dom.node) :
  Forall (fun k => findRef r k = None) l ->
  forall i, findRefIn r i l = None.
Proof.
  induction 1 as [|k l Hk _ IH]; intros i; simpl; [reflexivity|].
  rewrite Hk. apply IH.
Qed.

Lemma findRef_None_inside (r : nat) (p : path) :
  forall n x, findRef r n = None -> nodeAt p n = Some x -> findRef r x = None.
Proof.
  induction p as [|j p IH]; intros n x Hr.
  - simpl. now intros [= <-].
  - destruct n as [d|r0 t0 c0 kids0]; simpl; [discriminate|].
    destruct (nth_error kids0 j) as [k|] eqn:Ek; [|discriminate].
    rewrite findRef_Elem in Hr.
    destruct (match r0 with Some x0 => x0 =? r | None => false end);
      [discriminate|].
    apply findRefIn_None in Hr. rewrite Forall_forall in Hr.
    apply IH. apply Hr. exact (nth_error_In _ _ Ek).
Qed.

Lemma findRef_replaceAt (r : nat) (y : Dom.node) (q : path) (p : path) :
  findRef r y = Some q ->
  forall n x, findRef r n = None -> nodeAt p n = Some x ->
    findRef r (replaceAt p y n) = Some (p ++ q).
Proof.
  intros Hy. induction p as [|j p IH]; intros n x Hr; [intros _; exact Hy|].
  destruct n as [d|r0 t0 c0 kids0]; simpl; [discriminate|].
  destruct (nth_error kids0 j) as [k|] eqn:Ek; [|discriminate].
  intros Hx. rewrite findRef_Elem in *.
  destruct (match r0 with Some x0 => x0 =? r | None => false end);
    [discriminate|].
  apply findRefIn_None in Hr.
  destruct (children_at _ _ _ Ek) as [Ekids Hlen].
  rewrite Ekids in Hr. apply Forall_app in Hr as [Hbefore Hrest].
  apply Forall_cons_iff in Hrest as [Hk _].
  rewrite findRefIn_app, (findRefIn_all_None _ _ Hbefore), Hlen.
  simpl. now rewrite (IH k x Hk Hx).
Qed.

Lemma unwrapAt_at (p : path) (j : nat) r t c kids r' t' c' inner :
  nth_error kids j = Some (Elem r' t' c' inner) ->
  forall n, nodeAt p n = Some (Elem r t c kids) ->
    unwrapAt (p ++ [j]) n
    = Some (replaceAt p
              (normalize (Elem r t c (firstn j kids ++ inner ++ skipn (j + 1) kids)))
              n).
Proof.
  intros Hj. induction p as [|k p IH]; intros n Hn.
  - simpl in Hn. injection Hn as ->. simpl. now rewrite Hj.
  - destruct n as [d|r0 t0 c0 kids0]; simpl in Hn; [discriminate|].
    destruct (nth_error kids0 k) as [x|] eqn:Ek; [|discriminate].
    specialize (IH x Hn).
    change ((k :: p) ++ [j]) with (k :: (p ++ [j])).
    destruct (p ++ [j]) as [|j' p'] eqn:Ep; [now destruct p|].
    change (unwrapAt (k :: j' :: p') (Elem r0 t0 c0 kids0))
      with (match nth_error kids0 k with
            | Some k0 =>
                match unwrapAt (j' :: p') k0 with
                | Some k' =>
                    Some (Elem r0 t0 c0
                            (firstn k kids0 ++ k' :: skipn (k + 1) kids0))
                | None => None
                end
            | None => None
            end).
    rewrite Ek, IH. cbn [replaceAt]. now rewrite Ek.
Qed.

Lemma mergeTexts_adjacent (d1 d2 : str) (y : list Dom.node) (x : list Dom.node) :
  mergeTexts (x ++ Text d1 :: Text d2 :: y)
  = mergeTexts (x ++ Text (d1 ++ d2) :: y).
Proof.
  induction x as [|e x IH].
  - simpl app. cbn [mergeTexts].
    destruct d1 as [|a1 d1]; [reflexivity|].
    destruct d2 as [|a2 d2].
    + now rewrite app_nil_r.
    + simpl app. destruct (mergeTexts y) as [|[d'|? ? ? ?] rest'];
        try reflexivity.
      now rewrite <- app_assoc.
  - simpl app. destruct e as [d0|? ? ? ?]; cbn [mergeTexts]; now rewrite IH.
Qed.

End Unwrapping.

(** Unwrapping the element that wraps a part of a text node gives the
    document back, when that element is the only one with its identity
    and the parent of the text node was normalized. *)
Lemma removeHighlight_in_text (doc : Dom.node) (p : path) (r : option nat)
    (t c : str) (kids : list Dom.node) (i : nat) (d : str) (a b : nat)
    (cls : str) (highlight : HighlightInfo) :
  nodeAt p doc = Some (Elem r t c kids) ->
  nth_error kids i = Some (Text d) ->
  a <= b -> b <= length d ->
  findRef (element highlight) doc = None ->
  normalize (Elem r t c kids) = Elem r t c kids ->
  removeHighlight highlight
    (replaceAt p
       (Elem r t c
          (firstn i kids
           ++ [Text (firstn a d);
               Elem (Some (element highlight)) (lit "span") cls
                 [Text (substring d a b)];
               Text (skipn b d)]
           ++ skipn (i + 1) kids))
       doc)
  = Ok tt doc.
Proof.
  intros Hn Hc Hab Hb Hfresh Hnorm.
  destruct (children_at _ _ _ Hc) as [Ekids Hlen].
  set (A := firstn i kids) in *. set (B := skipn (i + 1) kids) in *.
  set (T1 := Text (firstn a d)). set (T3 := Text (skipn b d)).
  set (S := Elem (Some (element highlight)) (lit "span") cls
              [Text (substring d a b)]).
  set (kids2 := A ++ [T1; S; T3] ++ B).
  set (doc2 := replaceAt p (Elem r t c kids2) doc).
  assert (Hparts : kids2 = (A ++ [T1]) ++ S :: T3 :: B)
    by (unfold kids2; now rewrite <- app_assoc).
  assert (Hlen2 : length (A ++ [T1]) = i + 1)
    by (rewrite length_app; simpl; lia).
  (* where the element is *)
  pose proof (findRef_None_inside _ _ _ _ Hfresh Hn) as HP.
  rewrite findRef_Elem in HP.
  destruct (match r with Some x => x =? element highlight | None => false end)
    eqn:Er; [discriminate|].
  apply findRefIn_None in HP. rewrite Ekids in HP.
  apply Forall_app in HP as [HA _].
  assert (Hfind : findRef (element highlight) doc2 = Some (p ++ [i + 1])).
  { apply (findRef_replaceAt _ _ [i + 1] p) with (x := Elem r t c kids);
      [|exact Hfresh|exact Hn].
    rewrite findRef_Elem, Er. unfold kids2.
    rewrite findRefIn_app, (findRefIn_all_None _ _ HA), Hlen.
    simpl. rewrite Nat.eqb_refl. f_equal. f_equal. lia. }
  assert (Hn2 : nodeAt p doc2 = Some (Elem r t c kids2))
    by exact (replaceAt_nodeAt p _ doc _ Hn).
  assert (Hs : nth_error kids2 (i + 1) = Some S)
    by (rewrite Hparts; now apply nth_error_middle).
  unfold removeHighlight, bind, get. rewrite Hfind.
  rewrite (unwrapAt_at p (i + 1) r t c kids2 _ _ _ _ Hs doc2 Hn2).
  unfold put. f_equal. unfold doc2.
  rewrite (replaceAt_twice p _ _ doc _ Hn).
  rewrite <- (replaceAt_same p doc _ Hn) at 2. f_equal.
  etransitivity; [|exact Hnorm]. cbn [normalize]. f_equal.
  rewrite Hparts, (firstn_at (i + 1) _ _ Hlen2).
  rewrite <- Hlen2 at 1. rewrite skipn_S_length_app.
  rewrite Ekids.
  rewrite !map_app. cbn [map normalize app].
  rewrite <- !app_assoc. cbn [app]. unfold T1, T3. cbn [normalize].
  rewrite !mergeTexts_adjacent. f_equal. f_equal. f_equal. f_equal.
  unfold substring. rewrite <- app_assoc. symmetry.
  exact (three_parts d a b Hab).
Qed.

(** X20.  Highlighting a range that lies in one text node and then clearing
    restores the document node for node, not only its text: when the
    registry is empty, the parent of the text node is normalized and no
    element has the identity of the object about to be created, wrapping
    the range, registering the element and calling [clearHighlights]
    leaves the document exactly as it was, with the registry empty. *)
Theorem highlight_then_clear_restores_document (st : State) (p : path)
    (r : option nat) (t c : str) (kids : list Dom.node) (i : nat) (d : str)
    (a b : nat) (manipulation : ManipulationBlock) (highlightId : HighlightId) :
  nodeAt p (body st) = Some (Elem r t c kids) ->
  nth_error kids i = Some (Text d) ->
  a < b -> b <= length d ->
  isRangeHighlighted (body st) (mkRange (p ++ [i]) a (p ++ [i]) b) = false ->
  highlightedElements st = [] ->
  findRef (nextRef st) (body st) = None ->
  normalize (Elem r t c kids) = Elem r t c kids ->
  (highlightElement <-
     createHighlightElement (mkRange (p ++ [i]) a (p ++ [i]) b) manipulation
       highlightId ;;
   match highlightElement with
   | Some el => register highlightId (mkHighlightInfo el manipulation highlightId)
   | None => ret tt
   end ;;;
   clearHighlights)%monad st
  = Ok tt (mkState (body st) (S (nextRef st)) [] (currentMode st)).
Proof.
  intros Hn Hc Hab Hb Hh Hreg Hfresh Hnorm.
  unfold bind at 1.
  rewrite (wrap_in_text_node st p r t c kids i d a b
             manipulation highlightId Hn Hc Hab Hb Hh).
  unfold bind at 1. unfold register at 1.
  cbn [body nextRef highlightedElements currentMode]. rewrite Hreg.
  cbn [mapSet].
  unfold clearHighlights. unfold bind at 1. unfold get at 1.
  cbn [highlightedElements forEachHighlight].
  unfold bind at 1. unfold bind at 1. unfold tryCatch, onDocument.
  cbn [body].
  rewrite (removeHighlight_in_text (body st) p r t c kids i d a b _
             (mkHighlightInfo (nextRef st) manipulation highlightId)
             Hn Hc ltac:(lia) Hb Hfresh Hnorm).
  reflexivity.
Qed.

Lemma highlight_then_clear_restores_document_witness :
  nodeAt [] (body (mkState skyBody 0 [] full_color))
  = Some (Elem None (lit "body") []
            [Text (lit "The sky is falling and you should be very afraid of what comes next.")])
  /\ nth_error
       [Text (lit "The sky is falling and you should be very afraid of what comes next.")]
       0
     = Some (Text (lit "The sky is falling and you should be very afraid of what comes next."))
  /\ 23 < 48
  /\ 48 <= length (lit "The sky is falling and you should be very afraid of what comes next.")
  /\ isRangeHighlighted (body (mkState skyBody 0 [] full_color))
       (mkRange ([] ++ [0]) 23 ([] ++ [0]) 48) = false
  /\ highlightedElements (mkState skyBody 0 [] full_color) = []
  /\ findRef (nextRef (mkState skyBody 0 [] full_color))
       (body (mkState skyBody 0 [] full_color)) = None
  /\ normalize
       (Elem None (lit "body") []
          [Text (lit "The sky is falling and you should be very afraid of what comes next.")])
     = Elem None (lit "body") []
         [Text (lit "The sky is falling and you should be very afraid of what comes next.")]
  /\ (highlightElement <-
        createHighlightElement (mkRange ([] ++ [0]) 23 ([] ++ [0]) 48) skySpan
          (0, 0) ;;
      match highlightElement with
      | Some el => register (0, 0) (mkHighlightInfo el skySpan (0, 0))
      | None => ret tt
      end ;;;
      clearHighlights)%monad (mkState skyBody 0 [] full_color)
     = Ok tt (mkState skyBody 1 [] full_color).
Proof.
  split; [reflexivity|]. split; [reflexivity|]. split; [lia|].
  split; [simpl; lia|]. split; [reflexivity|]. split; [reflexivity|].
  split; [reflexivity|]. split; [reflexivity|].
  exact (highlight_then_clear_restores_document
           (mkState skyBody 0 [] full_color) [] None (lit "body") []
           [Text (lit "The sky is falling and you should be very afraid of what comes next.")]
           0 (lit "The sky is falling and you should be very afraid of what comes next.")
           23 48 skySpan (0, 0) eq_refl eq_refl ltac:(lia) ltac:(simpl; lia)
           eq_refl eq_refl eq_refl eq_refl).
Defined.

(** ** One quotation, found once *)

(** X21.  The page as the user sees it after [highlightManipulations] for
    one manipulation whose normalized quotation occurs exactly once in the
    concatenated text, inside one text node whose raw text is already
    normalized and which [isRangeHighlighted] does not take for
    highlighted, starting from an empty registry: the text node is split
    in three, the middle part is the normalized quotation inside a new
    [span] with the class of the manipulation type in the given mode, that
    one highlight is registered under the id of manipulation 0, range 0,
    and nothing else changes. *)
Theorem highlightManipulations_single_match
    (relocate : Dom.node -> Range -> Dom.node -> Range -> Range)
    (manipulation : ManipulationBlock) (mode : HighlightMode) (st : State)
    (item : TextPositionMap) (k : nat) (p : path) (i : nat)
    (r : option nat) (t c : str) (kids : list Dom.node) :
  let tm := newTextMatcher (body st) in
  let target := normalizeText (original_text manipulation) in
  let d := tdata (node item) in
  let a := k - startOffset item in
  let b := k - startOffset item + length target in
  highlightedElements st = [] ->
  target <> [] ->
  occurrences target (fullNormalizedText tm) = [k] ->
  In item (textPositionMap tm) ->
  owns item k -> owns item (k + length target - 1) ->
  tdata (node item) = normalizedText item ->
  tpath (node item) = p ++ [i] ->
  nodeAt p (body st) = Some (Elem r t c kids) ->
  isRangeHighlighted (body st) (mkRange (p ++ [i]) a (p ++ [i]) b) = false ->
  substring d a b = target
  /\ highlightManipulations relocate [manipulation] mode st
     = Ok tt
         (mkState
            (replaceAt p
               (Elem r t c
                  (firstn i kids
                   ++ [Text (firstn a d);
                       Elem (Some (nextRef st)) (lit "span")
                         (getHighlightClass mode
                            (manipulation_type manipulation))
                         [Text target];
                       Text (skipn b d)]
                   ++ skipn (i + 1) kids))
               (body st))
            (S (nextRef st))
            [((0, 0), mkHighlightInfo (nextRef st) manipulation (0, 0))]
            mode).
Proof.
  cbv zeta. intros Hreg Hne Hocc Hin Hk Hlast Hraw Hpath Hn Hh.
  set (target := normalizeText (original_text manipulation)) in *.
  destruct (findTextMatches_occurrences (body st) (original_text manipulation)
              Hne) as (l & Hm & Hl & Hr).
  fold target in Hl, Hr. rewrite Hocc in Hl.
  destruct l as [|[k' dr] [|x l]]; try discriminate.
  simpl in Hl. injection Hl as ->.
  specialize (Hr k dr (or_introl eq_refl)).
  assert (Hocc' : occursAt target (fullNormalizedText (newTextMatcher (body st)))
                    k = true).
  { assert (Hk' : In k (occurrences target
                          (fullNormalizedText (newTextMatcher (body st)))))
      by (rewrite Hocc; now left).
    apply filter_In in Hk'. apply Hk'. }
  destruct (match_in_normalized_node (body st) target k dr item Hne Hocc' Hr
              Hin Hk Hlast Hraw) as [Hrange Horig].
  rewrite Hpath in Hrange.
  pose proof (textPositionMap_nodeAt (body st) item Hin) as Hnode.
  rewrite Hpath in Hnode.
  assert (Hc : nth_error kids i = Some (Text (tdata (node item)))).
  { clear - Hnode Hn. revert Hnode Hn. generalize (body st).
    induction p as [|j p IH]; intros n Hnode Hn.
    - simpl in Hn. injection Hn as ->. simpl in Hnode.
      destruct (nth_error kids i) as [x|]; [|discriminate].
      now injection Hnode as ->.
    - destruct n as [d0|r0 t0 c0 kids0]; simpl in Hn, Hnode; [discriminate|].
      destruct (nth_error kids0 j) as [x|]; [|discriminate].
      exact (IH x Hnode Hn). }
  assert (Hlen : 0 < length target)
    by (destruct target; [congruence|simpl; lia]).
  assert (Hb : k - startOffset item + length target
               <= length (tdata (node item))).
  { destruct (In_nth_error _ _ Hin) as [idx Hidx].
    destruct (segmentsFrom_nth _ _ (newTextMatcher_segments (body st))
                idx item Hidx) as (_ & _ & Hend & _ & _).
    rewrite Hraw. unfold owns in Hk, Hlast. lia. }
  assert (Hsub : substring (tdata (node item)) (k - startOffset item)
                   (k - startOffset item + length target) = target).
  { transitivity (originalText dr); [|exact Horig].
    rewrite (proj1 (createDOMRange_fields _ _ _ _ Hr)).
    change (rootElement (newTextMatcher (body st))) with (body st).
    rewrite Hrange. symmetry.
    exact (rangeToString_one_text _ _ _ _ _ Hnode). }
  split; [exact Hsub|].
  unfold highlightManipulations. unfold bind at 1. unfold get at 1.
  unfold bind at 1. unfold put at 1. unfold bind at 1.
  rewrite Hreg.
  rewrite (clearHighlights_nothing
             (mkState (body st) (nextRef st) [] mode) eq_refl).
  cbn [forEachManipulation]. unfold bind at 1.
  unfold highlightManipulation. unfold bind at 1. unfold get at 1.
  cbn [body].
  assert (Hloc : locate (newTextMatcher (body st)) (original_text manipulation)
                 = [dr]).
  { unfold locate, findTextRanges. now rewrite Hm. }
  rewrite Hloc. cbn [forEachRange].
  unfold bind at 1. unfold get at 1. unfold bind at 1.
  rewrite Hrange.
  rewrite (wrap_in_text_node (mkState (body st) (nextRef st) [] mode)
             p r t c kids i (tdata (node item))
             (k - startOffset item)
             (k - startOffset item + length target)
             manipulation (0, 0) Hn Hc ltac:(lia) Hb Hh).
  rewrite Hsub. reflexivity.
Qed.

Lemma highlightManipulations_single_match_witness :
  highlightedElements (mkState skyBody 0 [] full_color) = []
  /\ normalizeText (original_text skySpan) <> []
  /\ occurrences (normalizeText (original_text skySpan))
       (fullNormalizedText (newTextMatcher skyBody)) = [23]
  /\ In skyItem (textPositionMap (newTextMatcher skyBody))
  /\ owns skyItem 23
  /\ owns skyItem (23 + length (normalizeText (original_text skySpan)) - 1)
  /\ tdata (node skyItem) = normalizedText skyItem
  /\ tpath (node skyItem) = [] ++ [0]
  /\ nodeAt [] skyBody = Some (Elem None (lit "body") [] [Text skyText])
  /\ isRangeHighlighted skyBody (mkRange [0] 23 [0] 48) = false
  /\ substring skyText 23 48 = lit "you should be very afraid"
  /\ highlightManipulations noRelocation [skySpan] full_color
       (mkState skyBody 0 [] full_color)
     = Ok tt
         (mkState
            (Elem None (lit "body") []
               [Text (lit "The sky is falling and ");
                Elem (Some 0) (lit "span")
                  (getHighlightClass full_color fear_mongering)
                  [Text (lit "you should be very afraid")];
                Text (lit " of what comes next.")])
            1 [((0, 0), mkHighlightInfo 0 skySpan (0, 0))] full_color).
Proof.
  assert (H1 : highlightedElements (mkState skyBody 0 [] full_color) = [])
    by reflexivity.
  assert (H2 : normalizeText (original_text skySpan) <> []) by discriminate.
  assert (H3 : occurrences (normalizeText (original_text skySpan))
                 (fullNormalizedText (newTextMatcher skyBody)) = [23])
    by reflexivity.
  assert (H4 : In skyItem (textPositionMap (newTextMatcher skyBody)))
    by (left; reflexivity).
  assert (H5 : owns skyItem 23) by (unfold owns; simpl; lia).
  assert (H6 : owns skyItem
                 (23 + length (normalizeText (original_text skySpan)) - 1))
    by (unfold owns; simpl; lia).
  assert (H7 : tdata (node skyItem) = normalizedText skyItem) by reflexivity.
  assert (H8 : tpath (node skyItem) = [] ++ [0]) by reflexivity.
  assert (H9 : nodeAt [] skyBody
               = Some (Elem None (lit "body") [] [Text skyText]))
    by reflexivity.
  assert (H10 : isRangeHighlighted skyBody (mkRange [0] 23 [0] 48) = false)
    by reflexivity.
  repeat (split; [assumption|]).
  exact (highlightManipulations_single_match noRelocation skySpan full_color
           (mkState skyBody 0 [] full_color) skyItem 23 [] 0 None (lit "body")
           [] [Text skyText] H1 H2 H3 H4 H5 H6 H7 H8 H9 H10).
Defined.

(** ** What the next matcher sees of a wrapped text node *)

Section LabelFacts.

Lemma labels_children (tag : str) (l : list Dom.node) :
  forall i,
    map (fun x => (parentTag x, tdata x)) (walkChildren tag i l)
    = flat_map (labels tag) l.
Proof.
  induction l as [|k l IH]; intros i; simpl; [reflexivity|].
  rewrite map_app, map_map, IH. reflexivity.
Qed.

Lemma labels_Elem (parent : str) r t c kids :
  labels parent (Elem r t c kids) = flat_map (labels t) kids.
Proof. unfold labels at 1. rewrite walkText_Elem. apply labels_children. Qed.

Lemma rawTexts_labels (doc : Dom.node) :
  rawTexts doc = map snd (filter acceptLabel (labels [] doc)).
Proof.
  unfold rawTexts, labels.
  induction (walkText [] doc) as [|x l IH]; simpl; [reflexivity|].
  unfold acceptLabel at 1. cbn [fst snd].
  change (acceptNode (mkTextRef [] (parentTag x) (tdata x)))
    with (acceptNode x).
  destruct (acceptNode x); simpl; now rewrite IH.
Qed.

(** Replacing the children of the element at [p] replaces its part of the
    walk. *)
Lemma labels_replaceAt (p : path) r t c kids :
  forall parent n,
    nodeAt p n = Some (Elem r t c kids) ->
    exists before after,
      forall kids',
        labels parent (replaceAt p (Elem r t c kids') n)
        = before ++ flat_map (labels t) kids' ++ after.
Proof.
  induction p as [|j p IH]; intros parent n Hn.
  - exists [], []. intros kids'. simpl replaceAt.
    now rewrite labels_Elem, app_nil_r.
  - destruct n as [d0|r0 t0 c0 kids0]; simpl in Hn; [discriminate|].
    destruct (nth_error kids0 j) as [x|] eqn:Ej; [|discriminate].
    destruct (IH t0 x Hn) as (before & after & H).
    exists (flat_map (labels t0) (firstn j kids0) ++ before),
           (after ++ flat_map (labels t0) (skipn (j + 1) kids0)).
    intros kids'. cbn [replaceAt]. rewrite Ej, labels_Elem.
    rewrite flat_map_app. cbn [flat_map]. rewrite H.
    now rewrite <- !app_assoc.
Qed.

End LabelFacts.

(** X22.  After [createHighlightElement] has wrapped a range that lies in
    one text node, the raw texts from which the next [TextMatcher] builds
    its index are those of before, except that the text of that node
    comes as up to three texts, the part before the range, the wrapped
    part (now the child of a [span]) and the part after it, each one kept
    if [acceptNode] accepts it; the index joins them by spaces, so a word
    cut by the range is two words to the next search. *)
Theorem wrapped_text_node_in_index (st : State) (p : path)
    (r : option nat) (t c : str) (kids : list Dom.node) (i : nat) (d : str)
    (a b : nat) (manipulation : ManipulationBlock) (highlightId : HighlightId) :
  nodeAt p (body st) = Some (Elem r t c kids) ->
  nth_error kids i = Some (Text d) ->
  a < b -> b <= length d ->
  isRangeHighlighted (body st) (mkRange (p ++ [i]) a (p ++ [i]) b) = false ->
  exists st' before after,
    createHighlightElement (mkRange (p ++ [i]) a (p ++ [i]) b) manipulation
      highlightId st = Ok (Some (nextRef st)) st'
    /\ rawTexts (body st)
       = before ++ map snd (filter acceptLabel [(t, d)]) ++ after
    /\ rawTexts (body st')
       = before
         ++ map snd (filter acceptLabel
                       [(t, firstn a d); (lit "span", substring d a b);
                        (t, skipn b d)])
         ++ after
    /\ fullNormalizedText (newTextMatcher (body st'))
       = normalizeText (join [space] (rawTexts (body st'))).
Proof.
  intros Hn Hc Hab Hb Hh.
  destruct (labels_replaceAt p r t c kids [] (body st) Hn)
    as (before & after & H).
  destruct (children_at _ _ _ Hc) as [Ekids _].
  eexists _, (map snd (filter acceptLabel
                         (before ++ flat_map (labels t) (firstn i kids)))),
          (map snd (filter acceptLabel
                      (flat_map (labels t) (skipn (i + 1) kids) ++ after))).
  split; [exact (wrap_in_text_node st p r t c kids i d a b manipulation
                   highlightId Hn Hc Hab Hb Hh)|].
  cbn [body]. split; [|split].
  - rewrite rawTexts_labels.
    rewrite <- (replaceAt_same p (body st) _ Hn), (H kids).
    rewrite Ekids at 1. rewrite flat_map_app. cbn [flat_map].
    change (labels t (Text d)) with [(t, d)].
    rewrite !filter_app, !map_app. now rewrite <- !app_assoc.
  - rewrite rawTexts_labels, H.
    rewrite !flat_map_app.
    change (flat_map (labels t)
              [Text (firstn a d);
               Elem (Some (nextRef st)) (lit "span")
                 (getHighlightClass (currentMode st)
                    (manipulation_type manipulation))
                 [Text (substring d a b)];
               Text (skipn b d)])
      with [(t, firstn a d); (lit "span", substring d a b); (t, skipn b d)].
    rewrite !filter_app, !map_app. rewrite <- !app_assoc.
    reflexivity.
  - apply fullNormalizedText_join.
Qed.

Lemma wrapped_text_node_in_index_witness :
  nodeAt [] (body (mkState reactBody 0 [] full_color))
  = Some (Elem None (lit "body") [] [Text (lit "We react")])
  /\ nth_error [Text (lit "We react")] 0 = Some (Text (lit "We react"))
  /\ 5 < 8
  /\ 8 <= length (lit "We react")
  /\ isRangeHighlighted (body (mkState reactBody 0 [] full_color))
       (mkRange ([] ++ [0]) 5 ([] ++ [0]) 8) = false
  /\ exists st' before after,
       createHighlightElement (mkRange ([] ++ [0]) 5 ([] ++ [0]) 8) actSpan
         (0, 0) (mkState reactBody 0 [] full_color)
       = Ok (Some (nextRef (mkState reactBody 0 [] full_color))) st'
       /\ rawTexts (body (mkState reactBody 0 [] full_color))
          = before
            ++ map snd (filter acceptLabel [(lit "body", lit "We react")])
            ++ after
       /\ rawTexts (body st')
          = before
            ++ map snd (filter acceptLabel
                          [(lit "body", firstn 5 (lit "We react"));
                           (lit "span", substring (lit "We react") 5 8);
                           (lit "body", skipn 8 (lit "We react"))])
            ++ after
       /\ fullNormalizedText (newTextMatcher (body st'))
          = normalizeText (join [space] (rawTexts (body st'))).
Proof.
  split; [reflexivity|]. split; [reflexivity|]. split; [lia|].
  split; [simpl; lia|]. split; [reflexivity|].
  exact (wrapped_text_node_in_index (mkState reactBody 0 [] full_color) []
           None (lit "body") [] [Text (lit "We react")] 0 (lit "We react")
           5 8 actSpan (0, 0) eq_refl eq_refl ltac:(lia) ltac:(simpl; lia)
           eq_refl).
Defined.

(** "act" is found inside "react" and wrapped; to the matcher of the next
    manipulation the text is then "We re act", in which "react" does not
    occur: only the first of the two quotations is highlighted. *)
Example react_scenario :
  fullNormalizedText (newTextMatcher reactBody) = lit "We react"
  /\ fullNormalizedText
       (newTextMatcher
          (body (finalState
                   (highlightManipulations noRelocation [actSpan] full_color
                      (mkState reactBody 0 [] full_color)))))
     = lit "We re act"
  /\ map fst
       (highlightedElements
          (finalState
             (highlightManipulations noRelocation [actSpan; reactSpan]
                full_color (mkState reactBody 0 [] full_color))))
     = [(0, 0)]
  /\ map fst
       (highlightedElements
          (finalState
             (highlightManipulations noRelocation [reactSpan; actSpan]
                full_color (mkState reactBody 0 [] full_color))))
     = [(0, 0)].
Proof. repeat split. Qed.

(** ** The stored API key *)

(** Quotients and remainders by a constant, named and tied by their
    equation, so that [lia] can work with them. *)
Ltac euclid_step x n :=
  let q := fresh "q" in
  let m := fresh "m" in
  pose proof (Nat.div_mod_eq x n);
  pose proof (Nat.mod_upper_bound x n ltac:(lia));
  set (q := x / n) in *; set (m := x mod n) in *; clearbody q m.

Ltac euclid :=
  repeat match goal with
         | |- context [?x / ?n] => euclid_step x n
         | |- context [?x mod ?n] => euclid_step x n
         | H : context [?x / ?n] |- _ => euclid_step x n
         | H : context [?x mod ?n] |- _ => euclid_step x n
         end.

Section Base64Facts.
Import Storage.

(** Induction on a string three bytes at a time. *)
Lemma triples_induction (P : str -> Prop) :
  P [] -> (forall a, P [a]) -> (forall a b, P [a; b]) ->
  (forall a b c rest, P rest -> P (a :: b :: c :: rest)) ->
  forall s, P s.
Proof.
  intros H0 H1 H2 H3.
  assert (H : forall s, P s /\ (forall a, P (a :: s))
                        /\ (forall a b, P (a :: b :: s))).
  { induction s as [|c s (IH0 & IH1 & IH2)].
    - split; [exact H0|]. split; [exact H1|exact H2].
    - split; [apply IH1|]. split; [intros a; apply IH2|].
      intros a b. apply H3. exact IH0. }
  intros s. apply H.
Qed.

Lemma byte_bound (a : ascii) : nat_of_ascii a < 256.
Proof. destruct a as [[] [] [] [] [] [] [] []]; vm_compute; lia. Qed.

Lemma btoa_sextets (s : str) :
  btoa s = map encodeSextet (sextetsOf s) ++ paddingOf s.
Proof.
  induction s as [| a | a b | a b c rest IH] using triples_induction;
    try reflexivity.
  cbn [btoa sextetsOf map app]. rewrite IH. unfold paddingOf.
  replace (length (a :: b :: c :: rest) mod 3) with (length rest mod 3).
  - reflexivity.
  - cbn [length]. replace (S (S (S (length rest)))) with (length rest + 1 * 3)
      by lia.
    now rewrite Nat.Div0.mod_add.
Qed.

Lemma sextets_bounded (s : str) : Forall (fun n => n < 64) (sextetsOf s).
Proof.
  induction s as [| a | a b | a b c rest IH] using triples_induction;
    cbn [sextetsOf]; repeat (apply Forall_cons);
    try apply Forall_nil; try exact IH;
    try pose proof (byte_bound a); try pose proof (byte_bound b);
    try pose proof (byte_bound c);
    euclid; lia.
Qed.

Lemma sextets_length (s : str) :
  exists k,
    (length s mod 3 = 0 /\ length (sextetsOf s) = 4 * k)
    \/ (length s mod 3 = 1 /\ length (sextetsOf s) = 4 * k + 2)
    \/ (length s mod 3 = 2 /\ length (sextetsOf s) = 4 * k + 3).
Proof.
  induction s as [| a | a b | a b c rest [k IH]] using triples_induction.
  - exists 0. left. now split.
  - exists 0. right. left. now split.
  - exists 0. right. right. now split.
  - exists (S k).
    replace (length (a :: b :: c :: rest) mod 3) with (length rest mod 3).
    + cbn [sextetsOf length]. lia.
    + cbn [length]. replace (S (S (S (length rest)))) with (length rest + 1 * 3)
        by lia.
      now rewrite Nat.Div0.mod_add.
Qed.

Lemma decode_encode (n : nat) :
  n < 64 -> decodeChar (encodeSextet n) = Some n.
Proof.
  intros H. do 64 (destruct n as [|n]; [reflexivity|]). lia.
Qed.

Lemma encode_visible (n : nat) :
  n < 64 ->
  isAsciiWhitespace (encodeSextet n) = false
  /\ Ascii.eqb (encodeSextet n) pad = false.
Proof.
  intros H. do 64 (destruct n as [|n]; [split; reflexivity|]). lia.
Qed.

Lemma decodeAll_encoded (l : list nat) :
  Forall (fun n => n < 64) l -> decodeAll (map encodeSextet l) = Some l.
Proof.
  induction 1 as [|n l Hn _ IH]; simpl; [reflexivity|].
  now rewrite (decode_encode n Hn), IH.
Qed.

Lemma decodeSextets_sextets (s : str) : decodeSextets (sextetsOf s) = s.
Proof.
  assert (Hb : forall a x, nat_of_ascii a = x -> ascii_of_nat x = a)
    by (intros a x <-; apply ascii_nat_embedding).
  induction s as [| a | a b | a b c rest IH] using triples_induction;
    cbn [sextetsOf decodeSextets]; try rewrite IH; try reflexivity;
    repeat f_equal; apply Hb;
    try pose proof (byte_bound a); try pose proof (byte_bound b);
    try pose proof (byte_bound c);
    euclid; lia.
Qed.

End Base64Facts.

Section RoundTrip.
Import Storage.

Lemma filter_all {A} (f : A -> bool) (l : list A) :
  Forall (fun x => f x = true) l -> filter f l = l.
Proof.
  induction 1 as [|x l Hx _ IH]; simpl; [reflexivity|].
  now rewrite Hx, IH.
Qed.

Lemma stripPadding_reversed (rb : str) :
  Forall (fun c => Ascii.eqb c pad = false) rb ->
  stripPadding (rev rb) = rev rb
  /\ stripPadding (rev rb ++ [pad]) = rev rb
  /\ stripPadding (rev rb ++ [pad; pad]) = rev rb.
Proof.
  intros H. unfold stripPadding.
  rewrite !rev_app_distr, rev_involutive. simpl rev. simpl app.
  destruct H as [|p1 r Hp1 Hr].
  - now repeat split.
  - rewrite Hp1. simpl. split; [now destruct r|]. split; [|reflexivity].
    destruct r; reflexivity.
Qed.

Lemma stripPadding_padded (body : str) :
  Forall (fun c => Ascii.eqb c pad = false) body ->
  stripPadding body = body
  /\ stripPadding (body ++ [pad]) = body
  /\ stripPadding (body ++ [pad; pad]) = body.
Proof.
  intros H. rewrite <- (rev_involutive body).
  apply stripPadding_reversed. now apply Forall_rev.
Qed.

Lemma mod4 (k r : nat) : r < 4 -> (4 * k + r) mod 4 = r.
Proof.
  intros H. replace (4 * k + r) with (r + k * 4) by lia.
  rewrite Nat.Div0.mod_add. now apply Nat.mod_small.
Qed.

Lemma atob_btoa (s : str) : atob (btoa s) = Some s.
Proof.
  pose proof (sextets_bounded s) as Hb.
  assert (Hvis : Forall (fun c => negb (isAsciiWhitespace c) = true)
                   (map encodeSextet (sextetsOf s))
                 /\ Forall (fun c => Ascii.eqb c pad = false)
                      (map encodeSextet (sextetsOf s))).
  { split; rewrite Forall_map; eapply Forall_impl; try exact Hb;
      intros n Hn; simpl; destruct (encode_visible n Hn) as [H1 H2];
      [now rewrite H1|exact H2]. }
  destruct Hvis as [Hws Hpad].
  destruct (stripPadding_padded _ Hpad) as (S0 & S1 & S2).
  unfold atob. rewrite btoa_sextets.
  rewrite filter_all.
  2:{ apply Forall_app. split; [exact Hws|].
      unfold paddingOf. destruct (length s mod 3) as [|[|[|n]]];
        repeat constructor. }
  rewrite length_app, length_map.
  destruct (sextets_length s) as [k [[Hm Hl]|[[Hm Hl]|[Hm Hl]]]];
    unfold paddingOf; rewrite Hm, Hl; cbn [length].
  - rewrite app_nil_r, Nat.add_0_r.
    assert (E0 : (4 * k) mod 4 = 0)
      by (rewrite <- (Nat.add_0_r (4 * k)); apply mod4; lia).
    rewrite E0. cbn [Nat.eqb]. rewrite S0.
    rewrite length_map, Hl, E0.
    cbn [Nat.eqb]. rewrite (decodeAll_encoded _ Hb).
    now rewrite decodeSextets_sextets.
  - replace (4 * k + 2 + 2) with (4 * S k + 0) by lia.
    rewrite (mod4 (S k) 0) by lia. cbn [Nat.eqb]. rewrite S2.
    rewrite length_map, Hl. rewrite (mod4 k 2) by lia.
    cbn [Nat.eqb]. rewrite (decodeAll_encoded _ Hb).
    now rewrite decodeSextets_sextets.
  - replace (4 * k + 3 + 1) with (4 * S k + 0) by lia.
    rewrite (mod4 (S k) 0) by lia. cbn [Nat.eqb]. rewrite S1.
    rewrite length_map, Hl. rewrite (mod4 k 3) by lia.
    cbn [Nat.eqb]. rewrite (decodeAll_encoded _ Hb).
    now rewrite decodeSextets_sextets.
Qed.

Lemma btoa_length (s : str) : length (btoa s) = 4 * ((length s + 2) / 3).
Proof.
  induction s as [| a | a b | a b c rest IH] using triples_induction;
    try reflexivity.
  cbn [btoa length]. rewrite IH.
  replace (S (S (S (length rest))) + 2) with (length rest + 2 + 1 * 3) by lia.
  rewrite Nat.div_add by lia. lia.
Qed.

Lemma btoa_empty (s : str) : btoa s = [] <-> s = [].
Proof.
  split; [|now intros ->].
  destruct s as [|a [|b [|c rest]]]; simpl; congruence.
Qed.

End RoundTrip.

(** X23.  [btoa] and [atob] are inverse on the strings [btoa] accepts, and
    so are [obfuscate] and [deobfuscate]: what [deobfuscate] makes of an
    obfuscated text is the text.  The obfuscated text has four characters
    for every three code units of the text, rounded up, and is empty only
    for the empty text. *)
Theorem deobfuscate_obfuscate (text : str) :
  Storage.deobfuscate (Storage.obfuscate text) = text
  /\ Storage.atob (Storage.btoa text) = Some text
  /\ length (Storage.obfuscate text) = 4 * ((length text + 2) / 3)
  /\ (Storage.obfuscate text = [] <-> text = []).
Proof.
  split; [|split; [|split]].
  - unfold Storage.deobfuscate, Storage.obfuscate.
    rewrite atob_btoa. apply rev_involutive.
  - apply atob_btoa.
  - unfold Storage.obfuscate. rewrite btoa_length. now rewrite length_rev.
  - unfold Storage.obfuscate. rewrite btoa_empty. split.
    + intros H. apply (f_equal (@rev ascii)) in H.
      now rewrite rev_involutive in H.
    + now intros ->.
Qed.

(** X24.  The API key that [getAPIKey] reads after [storeAPIKey] is the key
    that was stored, whatever was in the storage before, except for the
    empty key, which reads as [null]: its obfuscation is the empty string,
    which [getAPIKey] takes for no key.  [hasValidAPIKey] holds afterwards
    exactly when the stored key is not empty, and after [removeAPIKey]
    there is no key. *)
Theorem getAPIKey_after_storeAPIKey (provider : Storage.LLMProvider)
    (apiKey : str) (storage : Storage.SyncStorage) :
  Storage.getAPIKey provider (Storage.storeAPIKey provider apiKey storage)
  = match apiKey with
    | [] => None
    | _ :: _ => Some apiKey
    end
  /\ Storage.hasValidAPIKey provider
       (Storage.storeAPIKey provider apiKey storage)
     = negb (length apiKey =? 0)
  /\ Storage.getAPIKey provider (Storage.removeAPIKey provider storage) = None
  /\ Storage.getAPIKey provider
       (Storage.removeAPIKey provider
          (Storage.storeAPIKey provider apiKey storage)) = None.
Proof.
  assert (Hget : forall key value st,
            Storage.storageGet key (Storage.storageSet key value st)
            = Some value).
  { intros key value st. induction st as [|[k v] st IH]; simpl.
    - now rewrite (proj2 (str_eqb_eq key key) eq_refl).
    - destruct (str_eqb key k) eqn:E; simpl; rewrite E; [reflexivity|exact IH]. }
  assert (Hrem : forall key st,
            Storage.storageGet key (Storage.storageRemove key st) = None).
  { intros key st. unfold Storage.storageRemove.
    induction st as [|[k v] st IH]; simpl; [reflexivity|].
    destruct (str_eqb key k) eqn:E; simpl; [exact IH|].
    now rewrite E. }
  assert (Hkey : Storage.getAPIKey provider
                   (Storage.storeAPIKey provider apiKey storage)
                 = match apiKey with
                   | [] => None
                   | _ :: _ => Some apiKey
                   end).
  { unfold Storage.getAPIKey, Storage.storeAPIKey. rewrite Hget.
    destruct apiKey as [|a rest]; [reflexivity|].
    destruct (length (Storage.obfuscate (a :: rest)) =? 0) eqn:E.
    - apply Nat.eqb_eq in E. apply length_zero_iff_nil in E.
      unfold Storage.obfuscate in E. apply (proj1 (btoa_empty _)) in E.
      apply (f_equal (@length ascii)) in E. simpl in E.
      rewrite ?length_app, ?length_rev in E. simpl in E. lia.
    - unfold Storage.deobfuscate, Storage.obfuscate.
      rewrite atob_btoa. now rewrite rev_involutive. }
  split; [exact Hkey|]. split; [|split].
  - unfold Storage.hasValidAPIKey. rewrite Hkey.
    now destruct apiKey.
  - unfold Storage.getAPIKey, Storage.removeAPIKey. now rewrite Hrem.
  - unfold Storage.getAPIKey, Storage.removeAPIKey. now rewrite Hrem.
Qed.

(** The test vectors of RFC 4648, and what [atob] forgives: white space
    and missing padding, but not a single [=] where two are due. *)
Example base64_vectors :
  map Storage.btoa [lit ""; lit "f"; lit "fo"; lit "foo"; lit "foob"; lit "fooba";
                    lit "foobar"]
  = [lit ""; lit "Zg=="; lit "Zm8="; lit "Zm9v"; lit "Zm9vYg=="; lit "Zm9vYmE=";
     lit "Zm9vYmFy"]
  /\ map Storage.atob [lit "Zm9vYg=="; lit " Zm9v Yg "; lit "Zm9vYg="; lit "Zm9vY";
                       lit "Zm9v*g=="]
     = [Some (lit "foob"); Some (lit "foob"); None; None; None]
  /\ Storage.obfuscate (lit "AIza") = lit "YXpJQQ=="
  /\ Storage.deobfuscate (lit "not base64!") = lit "".
Proof. repeat split. Qed.
